(** * Bezier-patch mesh transform: a shallow embedding

    The development follows [libs/image/tests/kis_mesh_transform_worker_test.cpp]:
    the geometry primitives ([lerp], [bezierCurve], [deCasteljau]), the
    [BezierPatch] samplers, the [BezierMesh] with its row/column subdivision
    and the inverse-mapping solver [calculateLocalPos].

    Numbers.  A [qreal] is modelled as an exact rational ([Q]); equality of
    numbers is [Qeq] and equality of points is component-wise [Qeq]
    ([peq], written [=p=]).  Statements over this embedding are statements
    about the formulas of the source in exact arithmetic; rounding is not
    part of them.  The places where the source divides by a number that can
    be zero use a small extended-number type ([xreal]) carrying the
    IEEE-754 results of such a division.  Where a statement is about the
    computed values themselves, the module [Binary64] embeds the same
    functions over binary64 numbers.  Sizes and indices of vectors ([int] in
    the source) are [nat]; the [int] coordinates of the patch iterator are
    integers, and the index arithmetic of its [advance] is written with the
    wrap-around of [int]. *)

From Stdlib Require Import QArith Qabs Qminmax Qround Lqa.
From Stdlib Require Import List Bool Arith Lia ZArith Sorted.
From Stdlib Require Import Setoid Morphisms.
From Stdlib Require Floats.
Import ListNotations.

Set Warnings "-inexact-float".

Open Scope Q_scope.

(* ------------------------------------------------------------------ *)
(** ** Points *)

Record QPointF : Type := mkPoint { px : Q; py : Q }.

(** [QPointF()] is the null point. *)
Definition nullPoint : QPointF := mkPoint 0 0.

Definition padd (a b : QPointF) : QPointF := mkPoint (px a + px b) (py a + py b).
Definition psub (a b : QPointF) : QPointF := mkPoint (px a - px b) (py a - py b).
Definition pscale (k : Q) (a : QPointF) : QPointF := mkPoint (k * px a) (k * py a).

Definition popp (a : QPointF) : QPointF := mkPoint (- px a) (- py a).

Definition peq (a b : QPointF) : Prop := px a == px b /\ py a == py b.

Declare Scope point_scope.
Delimit Scope point_scope with P.
Bind Scope point_scope with QPointF.
Arguments padd (a b)%_point_scope.
Arguments psub (a b)%_point_scope.
Arguments popp a%_point_scope.
Arguments pscale k%_Q_scope a%_point_scope.
Notation "- x" := (popp x) : point_scope.
Infix "+" := padd : point_scope.
Infix "-" := psub : point_scope.
Infix "*" := pscale : point_scope.
Infix "=p=" := peq (at level 70, no associativity).

(* ------------------------------------------------------------------ *)
(** ** Geometry primitives *)

Definition pow2 (x : Q) : Q := x * x.
Definition pow3 (x : Q) : Q := x * x * x.

(** [lerp(pt1, pt2, t) = pt1 + (pt2 - pt1) * t] *)
Definition lerp (pt1 pt2 : QPointF) (t : Q) : QPointF :=
  (pt1 + t * (pt2 - pt1))%P.

Definition bezierCurve (p0 p1 p2 p3 : QPointF) (t : Q) : QPointF :=
  let t_2 := pow2 t in
  let t_3 := t_2 * t in
  let t_inv := 1 - t in
  let t_inv_2 := pow2 t_inv in
  let t_inv_3 := t_inv_2 * t_inv in
  (t_inv_3 * p0 + (3 * t_inv_2 * t) * p1 + (3 * t_inv * t_2) * p2 + t_3 * p3)%P.

Definition bezierCurveDeriv (p0 p1 p2 p3 : QPointF) (t : Q) : QPointF :=
  let t_2 := pow2 t in
  let t_inv := 1 - t in
  let t_inv_2 := pow2 t_inv in
  ((3 * t_inv_2) * (p1 - p0) + (6 * t_inv * t) * (p2 - p1) + (3 * t_2) * (p3 - p2))%P.

(** One pass of the inner loop of [deCasteljau]:
    [q[i] = (1.0 - t) * q[i] + t * q[i + 1]] for [i = 0 .. 3 - j]; the list
    holds the live prefix [q[0 .. 4 - j]] and comes back one shorter. *)
Fixpoint deCasteljau_pass (t : Q) (q : list QPointF) : list QPointF :=
  match q with
  | a :: (b :: _) as rest => ((1 - t) * a + t * b)%P :: deCasteljau_pass t rest
  | _ => []
  end.

(** The five outputs [*p0 .. *p4] of [deCasteljau]. *)
Record Split : Type := mkSplit { sp0 : QPointF; sp1 : QPointF; sp2 : QPointF; sp3 : QPointF; sp4 : QPointF }.

Definition deCasteljau (q0 q1 q2 q3 : QPointF) (t : Q) : Split :=
  let qa := deCasteljau_pass t [q0; q1; q2; q3] in   (* j = 1 *)
  let qb := deCasteljau_pass t qa in                 (* j = 2 *)
  let qc := deCasteljau_pass t qb in                 (* j = 3 *)
  (* after the loops: q[0] = qc[0], q[1] = qb[1], q[2] = qa[2] *)
  mkSplit (nth 0 qa nullPoint) (nth 0 qb nullPoint) (nth 0 qc nullPoint)
          (nth 1 qb nullPoint) (nth 2 qa nullPoint).

(* ------------------------------------------------------------------ *)
(** ** Comparisons and Qt helpers *)

(** [x < y] on [qreal], as a boolean. *)
Definition Qltb (x y : Q) : bool :=
  match x ?= y with Lt => true | _ => false end.

(** Qt's [qFuzzyCompare(double p1, double p2)]:
    [qAbs(p1 - p2) * 1000000000000. <= qMin(qAbs(p1), qAbs(p2))]. *)
Definition qFuzzyCompare (p1 p2 : Q) : bool :=
  Qle_bool (Qabs (p1 - p2) * 1000000000000) (Qmin (Qabs p1) (Qabs p2)).

(** [qreal(n)] for a non-negative [int]. *)
Definition qrealOfNat (n : nat) : Q := inject_Z (Z.of_nat n).


(* ------------------------------------------------------------------ *)
(** ** IEEE-754 results of a division whose divisor may be zero *)

Inductive xreal : Type :=
| XFin (q : Q)
| XPosInf
| XNegInf
| XNaN.

(** [a / b] on doubles: a zero divisor gives an infinity of the sign of
    [a], or NaN for [0 / 0]. *)
Definition xdiv (a b : Q) : xreal :=
  if Qeq_bool b 0 then
    match a ?= 0 with
    | Gt => XPosInf
    | Lt => XNegInf
    | Eq => XNaN
    end
  else XFin (a / b).

(** [a * b] for an extended [a] and a finite [b]. *)
Definition xmul (a : xreal) (b : Q) : xreal :=
  match a with
  | XFin q => XFin (q * b)
  | XPosInf => match b ?= 0 with Gt => XPosInf | Lt => XNegInf | Eq => XNaN end
  | XNegInf => match b ?= 0 with Gt => XNegInf | Lt => XPosInf | Eq => XNaN end
  | XNaN => XNaN
  end.

(** [a > b]; every comparison with NaN is false. *)
Definition xgt (a : xreal) (b : Q) : bool :=
  match a with
  | XFin q => Qltb b q
  | XPosInf => true
  | XNegInf | XNaN => false
  end.

(** [a < b] for a finite [a]. *)
Definition xlt (a : Q) (b : xreal) : bool :=
  match b with
  | XFin q => Qltb a q
  | XPosInf => true
  | XNegInf | XNaN => false
  end.

Definition xfinite (a : xreal) : bool :=
  match a with XFin _ => true | _ => false end.

(* ------------------------------------------------------------------ *)
(** ** Rectangles *)

Record QRectF : Type := mkRect { rectX : Q; rectY : Q; rectW : Q; rectH : Q }.

Definition topLeft (rc : QRectF) : QPointF := mkPoint (rectX rc) (rectY rc).
Definition bottomRight (rc : QRectF) : QPointF :=
  mkPoint (rectX rc + rectW rc) (rectY rc + rectH rc).

(** [QRectF(topLeft, bottomRight)] *)
Definition rectOfCorners (tl br : QPointF) : QRectF :=
  mkRect (px tl) (py tl) (px br - px tl) (py br - py tl).

(** Modelled from the spec: [KisAlgebra2D::relativeToAbsolute(pt, rc)]
    (kis_algebra_2d.h), the "relative-to-absolute mapping of the
    (xProportion,yProportion) pair against the patch's source rectangle". *)
Definition relativeToAbsolute (pt : QPointF) (rc : QRectF) : QPointF :=
  (topLeft rc + mkPoint (px pt * rectW rc) (py pt * rectH rc))%P.

(** The overload on rectangles defined in the test file itself. *)
Definition relativeToAbsoluteRect (rel rc : QRectF) : QRectF :=
  rectOfCorners (relativeToAbsolute (topLeft rel) rc)
                (relativeToAbsolute (bottomRight rel) rc).

(** Modelled from the spec: [KisAlgebra2D::crossProduct] (kis_algebra_2d.h),
    the cross product of two vectors. *)
Definition crossProduct (a b : QPointF) : Q := px a * py b - py a * px b.

(** Sequencing of steps that can fail. *)
Notation "x <- e ;; k" := (match e with Some x => k | None => None end)
  (at level 61, e at next level, right associativity).

(* ------------------------------------------------------------------ *)
(** ** BezierPatch *)

Module BezierPatch.

Inductive ControlPointType : Type :=
| TL | TL_HC | TL_VC
| TR | TR_HC | TR_VC
| BL | BL_HC | BL_VC
| BR | BR_HC | BR_VC.

Record t : Type := mk {
  originalRect : QRectF;
  points : ControlPointType -> QPointF
}.



Definition srcBoundingRect (patch : t) : QRectF := originalRect patch.

(** [std::merge] of two sorted ranges: the element of the second range is
    taken only when it is strictly smaller. *)
Fixpoint merge (a : list Q) : list Q -> list Q :=
  fix merge_b (b : list Q) : list Q :=
    match a, b with
    | [], _ => b
    | _, [] => a
    | x :: a', y :: b' =>
        if Qltb y x then y :: merge_b b' else x :: merge a' b
    end.

(** [std::unique] with a binary predicate: an element is dropped when the
    predicate holds between the last kept element and it. *)
Fixpoint unique_from (pred : Q -> Q -> bool) (kept : Q) (l : list Q) : list Q :=
  match l with
  | [] => []
  | x :: r => if pred kept x then unique_from pred kept r
              else x :: unique_from pred x r
  end.

Definition unique (pred : Q -> Q -> bool) (l : list Q) : list Q :=
  match l with
  | [] => []
  | x :: r => x :: unique_from pred x r
  end.

Definition mergeSteps (a b : list Q) : list Q :=
  unique qFuzzyCompare (merge a b).

(** The four boundary curves of a patch and the bilinear interpolation of
    its corners, as the samplers write them. *)
Definition topCurve (patch : t) (x : Q) : QPointF :=
  bezierCurve (points patch TL) (points patch TL_HC) (points patch TR_HC) (points patch TR) x.
Definition bottomCurve (patch : t) (x : Q) : QPointF :=
  bezierCurve (points patch BL) (points patch BL_HC) (points patch BR_HC) (points patch BR) x.
Definition leftCurve (patch : t) (y : Q) : QPointF :=
  bezierCurve (points patch TL) (points patch TL_VC) (points patch BL_VC) (points patch BL) y.
Definition rightCurve (patch : t) (y : Q) : QPointF :=
  bezierCurve (points patch TR) (points patch TR_VC) (points patch BR_VC) (points patch BR) y.

(** The body shared by the two samplers: [transf = Sc + Sd - Sb]. *)
Definition transfAt (patch : t) (xProportion yProportion : Q) : QPointF :=
  let pt := points patch in
  let Sc := lerp (bezierCurve (pt TL) (pt TL_HC) (pt TR_HC) (pt TR) xProportion)
                 (bezierCurve (pt BL) (pt BL_HC) (pt BR_HC) (pt BR) xProportion)
                 yProportion in
  let Sd := lerp (bezierCurve (pt TL) (pt TL_VC) (pt BL_VC) (pt BL) yProportion)
                 (bezierCurve (pt TR) (pt TR_VC) (pt BR_VC) (pt BR) yProportion)
                 xProportion in
  let Sb := lerp (lerp (pt TL) (pt TR) xProportion)
                 (lerp (pt BL) (pt BR) xProportion)
                 yProportion in
  (Sc + Sd - Sb)%P.

Definition origAt (patch : t) (xProportion yProportion : Q) : QPointF :=
  relativeToAbsolute (mkPoint xProportion yProportion) (originalRect patch).

(** What a sampler hands back: the grid size and the points it appended
    to [origPoints] and [transfPoints], row by row. *)
Record GridSample : Type := mkGrid {
  gridSize : nat * nat;
  origPoints : list QPointF;
  transfPoints : list QPointF
}.

(** The nested [for y] / [for x] loops over given proportions. *)
Definition sampleAt (patch : t) (xProportions yProportions : list Q) : GridSample :=
  mkGrid (length xProportions, length yProportions)
         (flat_map (fun y => map (fun x => origAt patch x y) xProportions) yProportions)
         (flat_map (fun y => map (fun x => transfAt patch x y) xProportions) yProportions).

(** [qreal(x) / (size - 1)] for [x = 0 .. size - 1], with the IEEE-754
    result of the division: for [size = 1] the one quotient is [0 / 0], a
    NaN. *)
Definition regularProportions (size : nat) : list xreal :=
  map (fun x => xdiv (qrealOfNat x) (inject_Z (Z.of_nat size - 1))) (seq 0 size).




Section WithSqrt.

(** [std::sqrt] on the values it is applied to. *)
Variable qSqrt : Q -> Q.

(** Modelled from the spec: [KisAlgebra2D::norm] (kis_algebra_2d.h), the
    length of the chord vector. *)
Definition norm (a : QPointF) : Q := qSqrt (pow2 (px a) + pow2 (py a)).

(** Modelled from the spec: [kisDistance] (kis_global.h), the chord
    length between two points. *)
Definition kisDistance (a b : QPointF) : Q :=
  qSqrt (pow2 (px a - px b) + pow2 (py a - py b)).

Definition isLinearSegment (p0 d0 p1 d1 : QPointF) : bool :=
  let diff := (p1 - p0)%P in
  let dist := norm diff in
  let normCoeff := xdiv (1 / 3) dist in
  let offset1 := xmul normCoeff (crossProduct diff d0) in
  if xgt offset1 1 then false
  else
    let offset2 := xmul normCoeff (crossProduct diff d1) in
    if xgt offset2 1 then false
    else true.

(** [minStepSize = 2.0 / kisDistance(p0, p3)] *)
Definition minStepSize (p0 p3 : QPointF) : xreal := xdiv 2 (kisDistance p0 p3).

(** The [while (!stackedPoints.isEmpty())] loop of [linearizeCurve]; the
    head of [stackedPoints] is the top of the stack.  [fuel] bounds the
    number of iterations; [None] means it ran out. *)
Fixpoint linearizeLoop (fuel : nat) (p0 p1 p2 p3 : QPointF) (minStep : xreal)
         (stackedPoints : list (QPointF * QPointF * Q))
         (lastP lastD : QPointF) (lastT : Q) (steps : list Q)
  : option (list Q) :=
  match stackedPoints with
  | [] => Some steps
  | (p, d, t) :: rest =>
      match fuel with
      | O => None
      | S fuel' =>
          if xlt (t - lastT) minStep || isLinearSegment lastP lastD p d then
            linearizeLoop fuel' p0 p1 p2 p3 minStep rest p d t (steps ++ [t])
          else
            let t' := (1 # 2) * (lastT + t) in
            let p' := bezierCurve p0 p1 p2 p3 t' in
            let d' := bezierCurveDeriv p0 p1 p2 p3 t' in
            linearizeLoop fuel' p0 p1 p2 p3 minStep
                          ((p', d', t') :: stackedPoints) lastP lastD lastT steps
      end
  end.

Definition linearizeCurve (fuel : nat) (p0 p1 p2 p3 : QPointF) : option (list Q) :=
  linearizeLoop fuel p0 p1 p2 p3 (minStepSize p0 p3)
                [(p3, (3 * (p3 - p2))%P, 1)]
                p0 (3 * (p1 - p0))%P 0 [0].

(** [horizontalSteps]: the steps of the top and bottom curves, merged. *)
Definition horizontalSteps (fuel : nat) (patch : t) : option (list Q) :=
  let pt := points patch in
  topSteps <- linearizeCurve fuel (pt TL) (pt TL_HC) (pt TR_HC) (pt TR) ;;
  bottomSteps <- linearizeCurve fuel (pt BL) (pt BL_HC) (pt BR_HC) (pt BR) ;;
  Some (mergeSteps topSteps bottomSteps).

(** [verticalSteps]: the steps of the left and right curves, merged. *)
Definition verticalSteps (fuel : nat) (patch : t) : option (list Q) :=
  let pt := points patch in
  leftSteps <- linearizeCurve fuel (pt TL) (pt TL_VC) (pt BL_VC) (pt BL) ;;
  rightSteps <- linearizeCurve fuel (pt TR) (pt TR_VC) (pt BR_VC) (pt BR) ;;
  Some (mergeSteps leftSteps rightSteps).

Definition sampleIrregularGrid (fuel : nat) (patch : t) : option GridSample :=
  hs <- horizontalSteps fuel patch ;;
  vs <- verticalSteps fuel patch ;;
  Some (sampleAt patch hs vs).

End WithSqrt.

End BezierPatch.

(* ------------------------------------------------------------------ *)
(** ** Node *)

Module Node.

Record t : Type := mk {
  leftControl : QPointF;
  topControl : QPointF;
  node : QPointF;
  rightControl : QPointF;
  bottomControl : QPointF
}.

(** [Node(const QPointF &_node)] *)
Definition ofPoint (_node : QPointF) : t := mk _node _node _node _node _node.

(** [Node()] *)
Definition empty : t := mk nullPoint nullPoint nullPoint nullPoint nullPoint.

Definition setBottomControl (n : t) (p : QPointF) : t :=
  mk (leftControl n) (topControl n) (node n) (rightControl n) p.
Definition setTopControl (n : t) (p : QPointF) : t :=
  mk (leftControl n) p (node n) (rightControl n) (bottomControl n).
Definition setRightControl (n : t) (p : QPointF) : t :=
  mk (leftControl n) (topControl n) (node n) p (bottomControl n).
Definition setLeftControl (n : t) (p : QPointF) : t :=
  mk p (topControl n) (node n) (rightControl n) (bottomControl n).

End Node.

(* ------------------------------------------------------------------ *)
(** ** Vector operations that are undefined out of range

    [None] stands for an access outside the vector (undefined behaviour in
    the source). *)

Fixpoint set_nth {A : Type} (i : nat) (x : A) (l : list A) : option (list A) :=
  match l, i with
  | [], _ => None
  | _ :: r, O => Some (x :: r)
  | y :: r, S i' => option_map (cons y) (set_nth i' x r)
  end.

(** [v.insert(v.begin() + i, xs.begin(), xs.end())] *)
Definition insert_range {A : Type} (i : nat) (xs l : list A) : option (list A) :=
  if (i <=? length l)%nat then Some (firstn i l ++ xs ++ skipn i l) else None.

(** [std::upper_bound(l.begin(), l.end(), t)] on a sorted vector: the index
    of the first element greater than [t] ([length l] when there is none). *)
Fixpoint upper_bound (l : list Q) (t : Q) : nat :=
  match l with
  | [] => O
  | x :: r => if Qltb t x then O else S (upper_bound r t)
  end.

(* ------------------------------------------------------------------ *)
(** ** BezierMesh *)

Module BezierMesh.

Record t : Type := mk {
  m_nodes : list Node.t;
  m_rows : list Q;
  m_columns : list Q;
  m_size : nat * nat;          (* (width, height) *)
  m_originalRect : QRectF
}.

Definition width (m : t) : nat := fst (m_size m).
Definition height (m : t) : nat := snd (m_size m).

(** [qreal(i) / (n - 1)] *)
Definition proportion (i n : nat) : Q := qrealOfNat i / inject_Z (Z.of_nat n - 1).

(** The constructor [BezierMesh(mapRect, size)]. *)
Definition make (mapRect : QRectF) (size : nat * nat) : t :=
  let w := fst size in
  let h := snd size in
  mk (flat_map (fun row =>
        let yPos := proportion row h * rectH mapRect + rectY mapRect in
        map (fun col =>
               let xPos := proportion col w * rectW mapRect + rectX mapRect in
               Node.ofPoint (mkPoint xPos yPos))
            (seq 0 w))
        (seq 0 h))
     (map (fun row => proportion row h) (seq 0 h))
     (map (fun col => proportion col w) (seq 0 w))
     size
     mapRect.

(** [node(col, row)] is [m_nodes[row * m_size.width() + col]]. *)
Definition nodeIndex (w col row : nat) : nat := (row * w + col)%nat.

Definition node (m : t) (col row : nat) : option Node.t :=
  nth_error (m_nodes m) (nodeIndex (width m) col row).

(** [splitCurveHorizontally(left, right, t, newNode)] gives back the
    updated [left] and [right] and the filled [newNode]. *)
Definition splitCurveHorizontally (left right : Node.t) (t : Q)
  : Node.t * Node.t * Node.t :=
  let s := deCasteljau (Node.node left) (Node.rightControl left)
                       (Node.leftControl right) (Node.node right) t in
  let left' := Node.setRightControl left (sp0 s) in
  let right' := Node.setLeftControl right (sp4 s) in
  let newPos := sp2 s in
  let newNode :=
    Node.mk (sp1 s)
            (newPos + lerp (Node.topControl left' - Node.node left')
                           (Node.topControl right' - Node.node right') t)%P
            newPos
            (sp3 s)
            (newPos + lerp (Node.bottomControl left' - Node.node left')
                           (Node.bottomControl right' - Node.node right') t)%P in
  (left', right', newNode).

Definition splitCurveVertically (top bottom : Node.t) (t : Q)
  : Node.t * Node.t * Node.t :=
  let s := deCasteljau (Node.node top) (Node.bottomControl top)
                       (Node.topControl bottom) (Node.node bottom) t in
  let top' := Node.setBottomControl top (sp0 s) in
  let bottom' := Node.setTopControl bottom (sp4 s) in
  let newPos := sp2 s in
  let newNode :=
    Node.mk (newPos + lerp (Node.leftControl top' - Node.node top')
                           (Node.leftControl bottom' - Node.node bottom') t)%P
            (sp1 s)
            newPos
            (newPos + lerp (Node.rightControl top' - Node.node top')
                           (Node.rightControl bottom' - Node.node bottom') t)%P
            (sp3 s) in
  (top', bottom', newNode).

(** The [for (col ...)] loop of [subdivideRow]: the two nodes are updated
    in place in [nodes], the new node is stored in [newRow[col]]. *)
Fixpoint splitRowLoop (w topRow bottomRow : nat) (relT : Q) (cols : list nat)
         (nodes newRow : list Node.t) : option (list Node.t * list Node.t) :=
  match cols with
  | [] => Some (nodes, newRow)
  | col :: cols' =>
      top <- nth_error nodes (nodeIndex w col topRow) ;;
      bottom <- nth_error nodes (nodeIndex w col bottomRow) ;;
      let '(top', bottom', newNode) := splitCurveVertically top bottom relT in
      nodes1 <- set_nth (nodeIndex w col topRow) top' nodes ;;
      nodes2 <- set_nth (nodeIndex w col bottomRow) bottom' nodes1 ;;
      newRow' <- set_nth col newNode newRow ;;
      splitRowLoop w topRow bottomRow relT cols' nodes2 newRow'
  end.

(** The guard shared by the two subdivisions: the early return on
    [qFuzzyCompare] and [KIS_SAFE_ASSERT_RECOVER_RETURN(t > 0.0 && t < 1.0)],
    which returns as well. *)
Definition returnsEarly (t : Q) : bool :=
  (qFuzzyCompare t 0 || qFuzzyCompare t 1) || negb (Qltb 0 t && Qltb t 1).

Definition subdivideRow (t : Q) (m : BezierMesh.t) : option BezierMesh.t :=
  if returnsEarly t then Some m
  else
    match upper_bound (m_rows m) t with
    | O => None                                   (* prev(begin()) *)
    | S topRow =>
        let bottomRow := S topRow in
        a <- nth_error (m_rows m) topRow ;;       (* *it *)
        b <- nth_error (m_rows m) bottomRow ;;    (* *next(it) *)
        let relT := (t - a) / (b - a) in
        let w := width m in
        r <- splitRowLoop w topRow bottomRow relT (seq 0 w)
                          (m_nodes m) (repeat Node.empty w) ;;
        let '(nodes, newRow) := r in
        nodes' <- insert_range (bottomRow * w) newRow nodes ;;
        rows' <- insert_range bottomRow [t] (m_rows m) ;;
        Some (mk nodes' rows' (m_columns m) (w, S (height m)) (m_originalRect m))
    end.

(** The [for (row ...)] loop of [subdivideColumn]. *)
Fixpoint splitColumnLoop (w leftColumn rightColumn : nat) (relT : Q) (rows : list nat)
         (nodes newColumn : list Node.t) : option (list Node.t * list Node.t) :=
  match rows with
  | [] => Some (nodes, newColumn)
  | row :: rows' =>
      left <- nth_error nodes (nodeIndex w leftColumn row) ;;
      right <- nth_error nodes (nodeIndex w rightColumn row) ;;
      let '(left', right', newNode) := splitCurveHorizontally left right relT in
      nodes1 <- set_nth (nodeIndex w leftColumn row) left' nodes ;;
      nodes2 <- set_nth (nodeIndex w rightColumn row) right' nodes1 ;;
      newColumn' <- set_nth row newNode newColumn ;;
      splitColumnLoop w leftColumn rightColumn relT rows' nodes2 newColumn'
  end.

(** The insertion loop of [subdivideColumn]: one node of [newColumn] is
    inserted at [dstIt], which then moves on by [m_size.width() + 1]. *)
Fixpoint insertColumnLoop (w dstIt : nat) (newColumn nodes : list Node.t)
  : option (list Node.t) :=
  match newColumn with
  | [] => Some nodes
  | n :: rest =>
      nodes' <- insert_range dstIt [n] nodes ;;
      insertColumnLoop w (dstIt + (w + 1)) rest nodes'
  end.

Definition subdivideColumn (t : Q) (m : BezierMesh.t) : option BezierMesh.t :=
  if returnsEarly t then Some m
  else
    match upper_bound (m_columns m) t with
    | O => None
    | S leftColumn =>
        let rightColumn := S leftColumn in
        a <- nth_error (m_columns m) leftColumn ;;
        b <- nth_error (m_columns m) rightColumn ;;
        let relT := (t - a) / (b - a) in
        let w := width m in
        let h := height m in
        r <- splitColumnLoop w leftColumn rightColumn relT (seq 0 h)
                             (m_nodes m) (repeat Node.empty h) ;;
        let '(nodes, newColumn) := r in
        nodes' <- insertColumnLoop w rightColumn newColumn nodes ;;
        columns' <- insert_range rightColumn [t] (m_columns m) ;;
        Some (mk nodes' (m_rows m) columns' (S w, h) (m_originalRect m))
    end.

(** The twelve assignments [patch.points[...] = ...] of [makePatch]. *)
Definition patchPoints (tl tr bl br : Node.t) (c : BezierPatch.ControlPointType)
  : QPointF :=
  match c with
  | BezierPatch.TL => Node.node tl
  | BezierPatch.TL_HC => Node.rightControl tl
  | BezierPatch.TL_VC => Node.bottomControl tl
  | BezierPatch.TR => Node.node tr
  | BezierPatch.TR_HC => Node.leftControl tr
  | BezierPatch.TR_VC => Node.bottomControl tr
  | BezierPatch.BL => Node.node bl
  | BezierPatch.BL_HC => Node.rightControl bl
  | BezierPatch.BL_VC => Node.topControl bl
  | BezierPatch.BR => Node.node br
  | BezierPatch.BR_HC => Node.leftControl br
  | BezierPatch.BR_VC => Node.topControl br
  end.

Definition makePatch (m : BezierMesh.t) (col row : nat) : option BezierPatch.t :=
  tl <- node m col row ;;
  tr <- node m (col + 1) row ;;
  bl <- node m col (row + 1) ;;
  br <- node m (col + 1) (row + 1) ;;
  c0 <- nth_error (m_columns m) col ;;
  c1 <- nth_error (m_columns m) (col + 1) ;;
  r0 <- nth_error (m_rows m) row ;;
  r1 <- nth_error (m_rows m) (row + 1) ;;
  let relRect := mkRect c0 r0 (c1 - c0) (r1 - r0) in
  Some (BezierPatch.mk (relativeToAbsoluteRect relRect (m_originalRect m))
                       (patchPoints tl tr bl br)).

End BezierMesh.

(* ------------------------------------------------------------------ *)
(** ** Inverse mapping solver *)

Module Solver.

Record Params2D : Type := mkParams {
  p0 : QPointF; p1 : QPointF; p2 : QPointF; p3 : QPointF;
  q0 : QPointF; q1 : QPointF; q2 : QPointF; q3 : QPointF;
  r0 : QPointF; r1 : QPointF; r2 : QPointF; r3 : QPointF;
  s0 : QPointF; s1 : QPointF; s2 : QPointF; s3 : QPointF;
  dstPoint : QPointF
}.

Definition meshForwardMapping (u v : Q) (p : Params2D) : QPointF :=
  let 'mkParams p0 p1 p2 p3 q0 q1 q2 q3 r0 r1 r2 r3 s0 s1 s2 s3 _ := p in
  (r0
   + pow3 u * v * (p0 - 3 * p1 + 3 * p2 - p3 - q0 + 3 * q1 - 3 * q2 + q3)
   + pow3 u * (- p0 + 3 * p1 - 3 * p2 + p3)
   + pow2 u * v * (- (3 * p0) + 6 * p1 - 3 * p2 + 3 * q0 - 6 * q1 + 3 * q2)
   + pow2 u * (3 * p0 - 6 * p1 + 3 * p2)
   + u * pow3 v * (r0 - 3 * r1 + 3 * r2 - r3 - s0 + 3 * s1 - 3 * s2 + s3)
   + u * pow2 v * (- (3 * r0) + 6 * r1 - 3 * r2 + 3 * s0 - 6 * s1 + 3 * s2)
   + u * v * (2 * p0 - 3 * p1 + p3 - 2 * q0 + 3 * q1 - q3
              + 3 * r0 - 3 * r1 - 3 * s0 + 3 * s1)
   + u * (- (2 * p0) + 3 * p1 - p3 - r0 + s0)
   + pow3 v * (- r0 + 3 * r1 - 3 * r2 + r3)
   + pow2 v * (3 * r0 - 6 * r1 + 3 * r2)
   + v * (- (3 * r0) + 3 * r1))%P.

Definition meshForwardMappingDiffU (u v : Q) (p : Params2D) : QPointF :=
  let 'mkParams p0 p1 p2 p3 q0 q1 q2 q3 r0 r1 r2 r3 s0 s1 s2 s3 _ := p in
  (- (2 * p0) + 3 * p1 - p3 - r0 + s0
   + pow2 u * v * (3 * p0 - 9 * p1 + 9 * p2 - 3 * p3 - 3 * q0 + 9 * q1 - 9 * q2 + 3 * q3)
   + pow2 u * (- (3 * p0) + 9 * p1 - 9 * p2 + 3 * p3)
   + u * v * (- (6 * p0) + 12 * p1 - 6 * p2 + 6 * q0 - 12 * q1 + 6 * q2)
   + u * (6 * p0 - 12 * p1 + 6 * p2)
   + pow3 v * (r0 - 3 * r1 + 3 * r2 - r3 - s0 + 3 * s1 - 3 * s2 + s3)
   + pow2 v * (- (3 * r0) + 6 * r1 - 3 * r2 + 3 * s0 - 6 * s1 + 3 * s2)
   + v * (2 * p0 - 3 * p1 + p3 - 2 * q0 + 3 * q1 - q3
          + 3 * r0 - 3 * r1 - 3 * s0 + 3 * s1))%P.

Definition meshForwardMappingDiffV (u v : Q) (p : Params2D) : QPointF :=
  let 'mkParams p0 p1 p2 p3 q0 q1 q2 q3 r0 r1 r2 r3 s0 s1 s2 s3 _ := p in
  (- (3 * r0) + 3 * r1
   + pow3 u * (p0 - 3 * p1 + 3 * p2 - p3 - q0 + 3 * q1 - 3 * q2 + q3)
   + pow2 u * (- (3 * p0) + 6 * p1 - 3 * p2 + 3 * q0 - 6 * q1 + 3 * q2)
   + u * pow2 v * (3 * r0 - 9 * r1 + 9 * r2 - 3 * r3 - 3 * s0 + 9 * s1 - 9 * s2 + 3 * s3)
   + u * v * (- (6 * r0) + 12 * r1 - 6 * r2 + 6 * s0 - 12 * s1 + 6 * s2)
   + u * (2 * p0 - 3 * p1 + p3 - 2 * q0 + 3 * q1 - q3
          + 3 * r0 - 3 * r1 - 3 * s0 + 3 * s1)
   + pow2 v * (- (3 * r0) + 9 * r1 - 9 * r2 + 3 * r3)
   + v * (6 * r0 - 12 * r1 + 6 * r2))%P.

(** Modelled from the spec: [kisSquareDistance] (kis_global.h), the
    "squared Euclidean distance between the forward-mapped point and the
    target". *)
Definition kisSquareDistance (a b : QPointF) : Q :=
  pow2 (px a - px b) + pow2 (py a - py b).

(** A [gsl_vector] of size 2 is a pair, written as a [QPointF]. *)
Definition my_f (x : QPointF) (params : Params2D) : Q :=
  let S := meshForwardMapping (px x) (py x) params in
  kisSquareDistance S (dstPoint params).

Definition my_df (x : QPointF) (params : Params2D) : QPointF :=
  let S := meshForwardMapping (px x) (py x) params in
  let dU := meshForwardMappingDiffU (px x) (py x) params in
  let dV := meshForwardMappingDiffV (px x) (py x) params in
  mkPoint (2 * (px S - px (dstPoint params)) * px dU
           + 2 * (py S - py (dstPoint params)) * py dU)
          (2 * (px S - px (dstPoint params)) * px dV
           + 2 * (py S - py (dstPoint params)) * py dV).

(** The part of GSL that [calculateLocalPos] calls.  [iterate] gives the
    status of [gsl_multimin_fdfminimizer_iterate] and the minimizer after
    the call; [x] and [gradient] read [s->x] and [s->gradient]. *)
Record Minimizer : Type := mkMinimizer {
  state : Type;
  fdfminimizer_set :
    (QPointF -> Q) -> (QPointF -> QPointF) -> QPointF -> Q -> Q -> state;
  fdfminimizer_iterate : state -> Z * state;
  x : state -> QPointF;
  gradient : state -> QPointF;
  test_gradient : QPointF -> Q -> Z
}.

Definition GSL_SUCCESS : Z := 0.
Definition GSL_CONTINUE : Z := (-2).
Definition GSL_ENOPROG : Z := 27.

Definition paramsOf (patch : BezierPatch.t) (dst : QPointF) : Params2D :=
  let pt := BezierPatch.points patch in
  mkParams (pt BezierPatch.TL) (pt BezierPatch.TL_HC) (pt BezierPatch.TR_HC) (pt BezierPatch.TR)
           (pt BezierPatch.BL) (pt BezierPatch.BL_HC) (pt BezierPatch.BR_HC) (pt BezierPatch.BR)
           (pt BezierPatch.TL) (pt BezierPatch.TL_VC) (pt BezierPatch.BL_VC) (pt BezierPatch.BL)
           (pt BezierPatch.TR) (pt BezierPatch.TR_VC) (pt BezierPatch.BR_VC) (pt BezierPatch.BR)
           dst.

Definition maxIter : nat := Z.to_nat 10000.

(** What the [do ... while] loop leaves behind. *)
Record Outcome (M : Minimizer) : Type := mkOutcome {
  result : QPointF;
  iter : nat;
  status : Z;
  final : state M
}.
Arguments mkOutcome {M}.
Arguments result {M}.
Arguments iter {M}.
Arguments status {M}.
Arguments final {M}.

(** The [do ... while (status == GSL_CONTINUE && iter < 10000)] loop.
    [budget] starts at [maxIter]; the test on [iter] stops the loop before
    the budget can run out. *)
Fixpoint iterateLoop (M : Minimizer) (budget : nat) (s : state M) (iter : nat)
         (result : QPointF) : Outcome M :=
  match budget with
  | O => mkOutcome result iter GSL_CONTINUE s
  | S budget' =>
      let iter := S iter in
      let '(status, s') := fdfminimizer_iterate M s in
      if negb (status =? 0)%Z then mkOutcome result iter status s'    (* break *)
      else
        let status := test_gradient M (gradient M s') (1 # 10000) in
        let result := mkPoint (px (x M s')) (py (x M s')) in
        if (status =? GSL_CONTINUE)%Z && (iter <? maxIter)%nat then
          iterateLoop M budget' s' iter result
        else mkOutcome result iter status s'
  end.

Definition startingPoint : QPointF := mkPoint (1 # 2) (1 # 2).

Definition solve (M : Minimizer) (patch : BezierPatch.t) (dst : QPointF) : Outcome M :=
  let p := paramsOf patch dst in
  let s := fdfminimizer_set M (fun v => my_f v p) (fun v => my_df v p)
                            startingPoint (1 # 100) (1 # 10) in
  (* QPointF result;  result.rx() = s->x[0];  result.rx() = s->x[1]; *)
  let result := nullPoint in
  let result := mkPoint (px (x M s)) (py result) in
  let result := mkPoint (py (x M s)) (py result) in
  iterateLoop M maxIter s 0 result.

Definition calculateLocalPos (M : Minimizer) (patch : BezierPatch.t) (dst : QPointF)
  : QPointF :=
  result (solve M patch dst).

End Solver.

(* ------------------------------------------------------------------ *)
(** ** Mesh invariants and reachable meshes *)

(** First element 0 and last element 1. *)
Definition endpoints (l : list Q) : Prop := hd 0 l == 0 /\ last l 0 == 1.

(** Sizes of the three vectors and the end points of the two parametric
    sequences. *)
Definition shape_ok (m : BezierMesh.t) : Prop :=
  length (BezierMesh.m_nodes m) = (BezierMesh.width m * BezierMesh.height m)%nat
  /\ length (BezierMesh.m_columns m) = BezierMesh.width m
  /\ length (BezierMesh.m_rows m) = BezierMesh.height m
  /\ endpoints (BezierMesh.m_columns m)
  /\ endpoints (BezierMesh.m_rows m).

(** Sorted, duplicates allowed. *)
Definition sorted_ok (m : BezierMesh.t) : Prop :=
  StronglySorted Qle (BezierMesh.m_columns m)
  /\ StronglySorted Qle (BezierMesh.m_rows m).

(** Strictly sorted, hence free of duplicates. *)
Definition strictly_sorted_ok (m : BezierMesh.t) : Prop :=
  StronglySorted Qlt (BezierMesh.m_columns m)
  /\ StronglySorted Qlt (BezierMesh.m_rows m).

Definition wf (m : BezierMesh.t) : Prop := shape_ok m /\ sorted_ok m.

(** Meshes obtained from a constructor call (logical size at least 2x2) by
    subdivision calls. *)
Inductive reachable : BezierMesh.t -> Prop :=
| reachable_make (mapRect : QRectF) (w h : nat) :
    (2 <= w)%nat -> (2 <= h)%nat -> reachable (BezierMesh.make mapRect (w, h))
| reachable_row (m m' : BezierMesh.t) (t : Q) :
    reachable m -> BezierMesh.subdivideRow t m = Some m' -> reachable m'
| reachable_column (m m' : BezierMesh.t) (t : Q) :
    reachable m -> BezierMesh.subdivideColumn t m = Some m' -> reachable m'.

(* ------------------------------------------------------------------ *)
(** ** What a subdivision leaves in the node storage

    The nodes of the subdivided mesh, read off the mesh before the call. *)

Definition nodeOr (m : BezierMesh.t) (col row : nat) : Node.t :=
  nth (BezierMesh.nodeIndex (BezierMesh.width m) col row) (BezierMesh.m_nodes m) Node.empty.

(** The split done in column [col] by [subdivideRow] between the rows
    [topRow] and [topRow + 1]. *)
Definition rowSplit (m : BezierMesh.t) (topRow : nat) (relT : Q) (col : nat)
  : Node.t * Node.t * Node.t :=
  BezierMesh.splitCurveVertically (nodeOr m col topRow) (nodeOr m col (S topRow)) relT.

(** The split done in row [row] by [subdivideColumn] between the columns
    [leftColumn] and [leftColumn + 1]. *)
Definition columnSplit (m : BezierMesh.t) (leftColumn : nat) (relT : Q) (row : nat)
  : Node.t * Node.t * Node.t :=
  BezierMesh.splitCurveHorizontally (nodeOr m leftColumn row) (nodeOr m (S leftColumn) row) relT.

(** Node [(col, row)] once the loop of [subdivideRow] has handled the
    columns below [n]. *)
Definition rowLoopNode (m : BezierMesh.t) (topRow : nat) (relT : Q) (n col row : nat)
  : Node.t :=
  if (col <? n)%nat && (row =? topRow)%nat then fst (fst (rowSplit m topRow relT col))
  else if (col <? n)%nat && (row =? S topRow)%nat then snd (fst (rowSplit m topRow relT col))
  else nodeOr m col row.

(** Node [(col, row)] once the loop of [subdivideColumn] has handled the
    rows below [n]. *)
Definition columnLoopNode (m : BezierMesh.t) (leftColumn : nat) (relT : Q) (n col row : nat)
  : Node.t :=
  if (row <? n)%nat && (col =? leftColumn)%nat then fst (fst (columnSplit m leftColumn relT row))
  else if (row <? n)%nat && (col =? S leftColumn)%nat then snd (fst (columnSplit m leftColumn relT row))
  else nodeOr m col row.

(** Node [(col, row)] of the mesh after a row was inserted below [topRow]. *)
Definition rowSubdivided (m : BezierMesh.t) (topRow : nat) (relT : Q) (col row : nat)
  : Node.t :=
  let w := BezierMesh.width m in
  if (row <=? topRow)%nat then rowLoopNode m topRow relT w col row
  else if (row =? S topRow)%nat then snd (rowSplit m topRow relT col)
  else rowLoopNode m topRow relT w col (row - 1).

(** Node [(col, row)] of the mesh after a column was inserted right of
    [leftColumn]. *)
Definition columnSubdivided (m : BezierMesh.t) (leftColumn : nat) (relT : Q) (col row : nat)
  : Node.t :=
  let h := BezierMesh.height m in
  if (col <=? leftColumn)%nat then columnLoopNode m leftColumn relT h col row
  else if (col =? S leftColumn)%nat then snd (columnSplit m leftColumn relT row)
  else columnLoopNode m leftColumn relT h (col - 1) row.

(** The state of the loop of [subdivideRow] before column [n]. *)
Definition rowLoopInv (m : BezierMesh.t) (topRow : nat) (relT : Q) (n : nat)
           (cur newRow : list Node.t) : Prop :=
  length cur = length (BezierMesh.m_nodes m)
  /\ length newRow = BezierMesh.width m
  /\ (forall col row, (col < BezierMesh.width m)%nat -> (row < BezierMesh.height m)%nat ->
        nth_error cur (BezierMesh.nodeIndex (BezierMesh.width m) col row)
        = Some (rowLoopNode m topRow relT n col row))
  /\ (forall col, (col < n)%nat ->
        nth_error newRow col = Some (snd (rowSplit m topRow relT col))).

(** The state of the loop of [subdivideColumn] before row [n]. *)
Definition columnLoopInv (m : BezierMesh.t) (leftColumn : nat) (relT : Q) (n : nat)
           (cur newColumn : list Node.t) : Prop :=
  length cur = length (BezierMesh.m_nodes m)
  /\ length newColumn = BezierMesh.height m
  /\ (forall col row, (col < BezierMesh.width m)%nat -> (row < BezierMesh.height m)%nat ->
        nth_error cur (BezierMesh.nodeIndex (BezierMesh.width m) col row)
        = Some (columnLoopNode m leftColumn relT n col row))
  /\ (forall row, (row < n)%nat ->
        nth_error newColumn row = Some (snd (columnSplit m leftColumn relT row))).

(** Where a row (or column) of the mesh before a subdivision below row
    (right of column) [i] is found afterwards. *)
Definition shifted (i n : nat) : nat := if (n <=? i)%nat then n else S n.

(* ------------------------------------------------------------------ *)
(** ** Concrete meshes

    [BezierMesh mesh(QRectF(0,0,100,100))] as in [testMesh], and what two
    calls [mesh.subdivideRow(0.5)] make of it. *)

Definition unitMesh : BezierMesh.t := BezierMesh.make (mkRect 0 0 100 100) (2, 2)%nat.

Definition afterSubdivideRow (t : Q) (m : BezierMesh.t) : BezierMesh.t :=
  match BezierMesh.subdivideRow t m with Some m' => m' | None => m end.

Definition meshHalf : BezierMesh.t := afterSubdivideRow (1 # 2) unitMesh.
Definition meshHalfTwice : BezierMesh.t := afterSubdivideRow (1 # 2) meshHalf.

(** A parameter below 1 that [qFuzzyCompare] does not tell from 1. *)
Definition almostOne : Q := 1 - (1 # 10000000000000).

(* ------------------------------------------------------------------ *)
(** ** Auxiliary notions for the statements *)

(** [3 t^2 - 2 t^3]: the parameter at which a cubic whose inner control
    points coincide with its end points is, as a straight segment, at [t]. *)
Definition smoothstep (t : Q) : Q := 3 * pow2 t - 2 * pow3 t.

(** A square root on rationals, exact on squares of rationals and rounded
    down (on the numerator) elsewhere; it instantiates [std::sqrt] in the
    examples. *)
Definition isqrt (q : Q) : Q :=
  inject_Z (Z.sqrt (Qnum q * QDen q)) / inject_Z (QDen q).

(** A curved patch on the rectangle (0,0)-(1000,1000): every corner has its
    two control points offset by (300,30) and (20,300), mirrored towards
    the inside (the offsets of [testGlobalToLocal]). *)
Definition testPatchPoints (c : BezierPatch.ControlPointType) : QPointF :=
  match c with
  | BezierPatch.TL => mkPoint 0 0
  | BezierPatch.TL_HC => mkPoint 300 30
  | BezierPatch.TL_VC => mkPoint 20 300
  | BezierPatch.TR => mkPoint 1000 0
  | BezierPatch.TR_HC => mkPoint 700 30
  | BezierPatch.TR_VC => mkPoint 980 300
  | BezierPatch.BL => mkPoint 0 1000
  | BezierPatch.BL_HC => mkPoint 300 1030
  | BezierPatch.BL_VC => mkPoint 20 700
  | BezierPatch.BR => mkPoint 1000 1000
  | BezierPatch.BR_HC => mkPoint 700 1030
  | BezierPatch.BR_VC => mkPoint 980 700
  end.

Definition testPatch : BezierPatch.t :=
  BezierPatch.mk (mkRect 0 0 1000 1000) testPatchPoints.

(** The flat patch on the same rectangle: every control point lies on its
    corner. *)
Definition flatPatchPoints (c : BezierPatch.ControlPointType) : QPointF :=
  match c with
  | BezierPatch.TL | BezierPatch.TL_HC | BezierPatch.TL_VC => mkPoint 0 0
  | BezierPatch.TR | BezierPatch.TR_HC | BezierPatch.TR_VC => mkPoint 1000 0
  | BezierPatch.BL | BezierPatch.BL_HC | BezierPatch.BL_VC => mkPoint 0 1000
  | BezierPatch.BR | BezierPatch.BR_HC | BezierPatch.BR_VC => mkPoint 1000 1000
  end.

Definition flatPatch : BezierPatch.t :=
  BezierPatch.mk (mkRect 0 0 1000 1000) flatPatchPoints.

(** A minimizer that, like GSL's [vector_bfgs2], reports [GSL_ENOPROG]
    without moving when the gradient at the current point is zero, and
    otherwise takes a step along the negative gradient.  The state holds
    the gradient function, the current point and the gradient there. *)
Definition stallingMinimizer : Solver.Minimizer :=
  Solver.mkMinimizer
    ((QPointF -> QPointF) * QPointF * QPointF)%type
    (fun _ df x0 _ _ => (df, x0, df x0))
    (fun s =>
       let '(df, x, g) := s in
       if Qeq_bool (px g) 0 && Qeq_bool (py g) 0 then (Solver.GSL_ENOPROG, s)
       else
         let x' := (x - (1 # 100) * g)%P in
         (Solver.GSL_SUCCESS, (df, x', df x')))
    (fun s => snd (fst s))
    (fun s => snd s)
    (fun g epsabs =>
       if Qltb (pow2 (px g) + pow2 (py g)) (pow2 epsabs) then Solver.GSL_SUCCESS
       else Solver.GSL_CONTINUE).

(** A small curved patch over the rectangle (0,0)-(4,3); its top curve
    bulges to the negative side of the chord, the bottom, left and right
    curves to the positive side. *)
Definition smallPatchPoints (c : BezierPatch.ControlPointType) : QPointF :=
  match c with
  | BezierPatch.TL => mkPoint 0 0
  | BezierPatch.TL_HC => mkPoint 1 (-2)
  | BezierPatch.TL_VC => mkPoint 1 1
  | BezierPatch.TR => mkPoint 4 0
  | BezierPatch.TR_HC => mkPoint 3 (-2)
  | BezierPatch.TR_VC => mkPoint 3 1
  | BezierPatch.BL => mkPoint 0 3
  | BezierPatch.BL_HC => mkPoint 1 4
  | BezierPatch.BL_VC => mkPoint 1 2
  | BezierPatch.BR => mkPoint 4 3
  | BezierPatch.BR_HC => mkPoint 3 4
  | BezierPatch.BR_VC => mkPoint 3 2
  end.

Definition smallPatch : BezierPatch.t :=
  BezierPatch.mk (mkRect 0 0 4 3) smallPatchPoints.

(* ------------------------------------------------------------------ *)
(** ** Further functions of the test file *)

Definition bezierCurveDeriv2 (p0 p1 p2 p3 : QPointF) (t : Q) : QPointF :=
  let t_inv := 1 - t in
  ((6 * t_inv) * (p2 - 2 * p1 + p0) + (6 * t) * (p3 - 2 * p2 + p1))%P.

(** [my_fdf] writes the value into [*f] and the gradient into [df]. *)
Definition my_fdf (x : QPointF) (params : Solver.Params2D) : Q * QPointF :=
  let S := Solver.meshForwardMapping (px x) (py x) params in
  let dU := Solver.meshForwardMappingDiffU (px x) (py x) params in
  let dV := Solver.meshForwardMappingDiffV (px x) (py x) params in
  (Solver.kisSquareDistance S (Solver.dstPoint params),
   mkPoint (2 * (px S - px (Solver.dstPoint params)) * px dU
            + 2 * (py S - py (Solver.dstPoint params)) * py dU)
           (2 * (px S - px (Solver.dstPoint params)) * px dV
            + 2 * (py S - py (Solver.dstPoint params)) * py dV)).

(** The patch iterator of [BezierMesh].  The position is the pair
    [(m_col, m_row)] of [int]s, kept as integers because [decrement] and
    [advance] can leave the non-negative range; [/] and [%] on [int]
    truncate towards zero, and a division that is undefined (a zero
    divisor, that is a mesh of width 1, or [INT_MIN / -1]) is written
    [None].  The index arithmetic of [advance] is done in [int]: a result
    outside the range wraps around.  [increment] and [decrement] change a
    coordinate by one; what is proved about them is stated for coordinates
    that stay within [int].  The mesh the iterator points to is an argument
    of the operations. *)
Module PatchIterator.

Record t : Type := mk { m_col : Z; m_row : Z }.

Definition meshWidth (m : BezierMesh.t) : Z := Z.of_nat (BezierMesh.width m).
Definition meshHeight (m : BezierMesh.t) : Z := Z.of_nat (BezierMesh.height m).

Definition INT_MIN : Z := (-2147483648)%Z.
Definition INT_MAX : Z := 2147483647%Z.

(** The range of [int]. *)
Definition inInt (z : Z) : Prop := (INT_MIN <= z <= INT_MAX)%Z.

(** The [int] that holds the exact result [z] of an operation on [int]s. *)
Definition wrapInt (z : Z) : Z := ((z - INT_MIN) mod 4294967296 + INT_MIN)%Z.

(** [m_row * (m_mesh->m_size.width() - 1) + m_col], computed in [int]. *)
Definition index (m : BezierMesh.t) (it : t) : Z :=
  wrapInt (wrapInt (m_row it * wrapInt (meshWidth m - 1)) + m_col it).

(** The number of a position, counted row by row, as an exact integer. *)
Definition linearIndex (m : BezierMesh.t) (it : t) : Z :=
  (m_row it * (meshWidth m - 1) + m_col it)%Z.

Definition increment (m : BezierMesh.t) (it : t) : t :=
  let col := (m_col it + 1)%Z in
  if (meshWidth m - 1 <=? col)%Z then mk 0 (m_row it + 1) else mk col (m_row it).

Definition decrement (m : BezierMesh.t) (it : t) : t :=
  let col := (m_col it - 1)%Z in
  if (col <? 0)%Z then mk (meshWidth m - 2) (m_row it - 1) else mk col (m_row it).

Definition advance (m : BezierMesh.t) (n : Z) (it : t) : option t :=
  let w1 := wrapInt (meshWidth m - 1) in
  let index := wrapInt (index m it + n) in
  if ((w1 =? 0) || ((w1 =? -1) && (index =? INT_MIN)))%Z then None
  else Some (mk (Z.rem index w1) (Z.quot index w1)).

(** [distance_to]: the difference of the two indices, as an exact
    integer. *)
Definition distance_to (m : BezierMesh.t) (it z : t) : Z :=
  let index := (m_row it * (meshWidth m - 1) + m_col it)%Z in
  let otherIndex := (m_row z * (meshWidth m - 1) + m_col z)%Z in
  (otherIndex - index)%Z.

(** A position inside the mesh: one of its [(width - 1) * (height - 1)]
    patches. *)
Definition inRange (m : BezierMesh.t) (it : t) : Prop :=
  (0 <= m_col it < meshWidth m - 1)%Z /\ (0 <= m_row it < meshHeight m - 1)%Z.

(** The position of the patch number [k], counted row by row. *)
Definition atIndex (m : BezierMesh.t) (k : nat) : t :=
  mk (Z.of_nat k mod (meshWidth m - 1)) (Z.of_nat k / (meshWidth m - 1)).

(** [equal] for two iterators over the same mesh. *)
Definition equal (it other : t) : bool :=
  (m_row it =? m_row other)%Z && (m_col it =? m_col other)%Z.

(** [dereference]; a negative index is outside the vectors. *)
Definition dereference (m : BezierMesh.t) (it : t) : option BezierPatch.t :=
  if (m_col it <? 0)%Z || (m_row it <? 0)%Z then None
  else BezierMesh.makePatch m (Z.to_nat (m_col it)) (Z.to_nat (m_row it)).

Definition begin (m : BezierMesh.t) : t := mk 0 0.
Definition end_ (m : BezierMesh.t) : t := mk 0 (meshHeight m - 1).

(** [for (auto it = mesh.begin(); it != mesh.end(); ++it)] of [testMesh]:
    the positions the loop body sees; [fuel] bounds the number of
    increments. *)
Fixpoint visit (m : BezierMesh.t) (fuel : nat) (it : t) : option (list t) :=
  if equal it (end_ m) then Some []
  else
    match fuel with
    | O => None
    | S fuel' =>
        rest <- visit m fuel' (increment m it) ;;
        Some (it :: rest)
    end.

End PatchIterator.

(** The coefficient of [h^2] in the expansions below: first and second
    central differences of a derivative [g], taken at [-1], [0] and [1]. *)
Definition secondOrder (gm g0 gp : QPointF) (h : Q) : QPointF :=
  ((1 # 4) * (gp - gm) + (h * (1 # 6)) * (gp - 2 * g0 + gm))%P.

(** [2^n] as a rational. *)
Fixpoint twoPow (n : nat) : Q :=
  match n with
  | O => 1
  | S n' => 2 * twoPow n'
  end.

(** The parameter of a stacked point of [linearizeCurve]. *)
Definition stackedT (e : QPointF * QPointF * Q) : Q := snd e.

(* ------------------------------------------------------------------ *)
(** ** The same arithmetic in binary64

    A second embedding of the geometry primitives and of
    [sampleIrregularGrid], with [qreal] as an IEEE-754 binary64 number and
    the operations in the order the source writes them.  It is used where
    a statement about computed values has to be checked against rounding;
    division by zero, infinities and NaN are the ones of the format. *)

Module Binary64.

Import PrimFloat.
Local Open Scope float_scope.

Record QPointF : Type := mkPoint { px : float; py : float }.

Definition padd (a b : QPointF) : QPointF := mkPoint (px a + px b) (py a + py b).
Definition psub (a b : QPointF) : QPointF := mkPoint (px a - px b) (py a - py b).
(** [c * p] is [QPointF(p.xp * c, p.yp * c)]. *)
Definition pscale (c : float) (p : QPointF) : QPointF := mkPoint (px p * c) (py p * c).

Definition pow2 (x : float) : float := x * x.

(** Qt's [qAbs], [qMin] and [qFuzzyCompare(double, double)]. *)
Definition qAbs (t : float) : float := if leb 0 t then t else - t.
Definition qMin (a b : float) : float := if ltb a b then a else b.
Definition qFuzzyCompare (p1 p2 : float) : bool :=
  leb (qAbs (p1 - p2) * 1000000000000) (qMin (qAbs p1) (qAbs p2)).

Definition lerp (pt1 pt2 : QPointF) (t : float) : QPointF :=
  padd pt1 (pscale t (psub pt2 pt1)).

Definition bezierCurve (p0 p1 p2 p3 : QPointF) (t : float) : QPointF :=
  let t_2 := pow2 t in
  let t_3 := t_2 * t in
  let t_inv := 1 - t in
  let t_inv_2 := pow2 t_inv in
  let t_inv_3 := t_inv_2 * t_inv in
  padd (padd (padd (pscale t_inv_3 p0)
                   (pscale (3 * t_inv_2 * t) p1))
             (pscale (3 * t_inv * t_2) p2))
       (pscale t_3 p3).

Definition bezierCurveDeriv (p0 p1 p2 p3 : QPointF) (t : float) : QPointF :=
  let t_2 := pow2 t in
  let t_inv := 1 - t in
  let t_inv_2 := pow2 t_inv in
  padd (padd (pscale (3 * t_inv_2) (psub p1 p0))
             (pscale (6 * t_inv * t) (psub p2 p1)))
       (pscale (3 * t_2) (psub p3 p2)).

(** One pass of the inner loop of [deCasteljau]:
    [q[i] = (1.0 - t) * q[i] + t * q[i + 1]]. *)
Fixpoint deCasteljau_pass (t : float) (q : list QPointF) : list QPointF :=
  match q with
  | a :: (b :: _) as rest =>
      padd (pscale (1 - t) a) (pscale t b) :: deCasteljau_pass t rest
  | _ => []
  end.

(** The five outputs [*p0 .. *p4] of [deCasteljau]. *)
Record Split : Type :=
  mkSplit { sp0 : QPointF; sp1 : QPointF; sp2 : QPointF; sp3 : QPointF; sp4 : QPointF }.

Definition nullPoint : QPointF := mkPoint 0 0.

Definition deCasteljau (q0 q1 q2 q3 : QPointF) (t : float) : Split :=
  let qa := deCasteljau_pass t [q0; q1; q2; q3] in   (* j = 1 *)
  let qb := deCasteljau_pass t qa in                 (* j = 2 *)
  let qc := deCasteljau_pass t qb in                 (* j = 3 *)
  mkSplit (nth 0 qa nullPoint) (nth 0 qb nullPoint) (nth 0 qc nullPoint)
          (nth 1 qb nullPoint) (nth 2 qa nullPoint).

(** [KisAlgebra2D::norm], [kisDistance] and [KisAlgebra2D::crossProduct],
    the same formulas as in the exact embedding, with [std::sqrt] the
    correctly rounded square root of the format. *)
Definition norm (a : QPointF) : float := sqrt (px a * px a + py a * py a).
Definition kisDistance (a b : QPointF) : float :=
  sqrt (pow2 (px a - px b) + pow2 (py a - py b)).
Definition crossProduct (a b : QPointF) : float := px a * py b - py a * px b.

Definition isLinearSegment (p0 d0 p1 d1 : QPointF) : bool :=
  let diff := psub p1 p0 in
  let dist := norm diff in
  let normCoeff := 1 / 3 / dist in
  let offset1 := normCoeff * crossProduct diff d0 in
  if ltb 1 offset1 then false
  else
    let offset2 := normCoeff * crossProduct diff d1 in
    if ltb 1 offset2 then false
    else true.

Fixpoint linearizeLoop (fuel : nat) (p0 p1 p2 p3 : QPointF) (minStepSize : float)
         (stackedPoints : list (QPointF * QPointF * float))
         (lastP lastD : QPointF) (lastT : float) (steps : list float)
  : option (list float) :=
  match stackedPoints with
  | [] => Some steps
  | (p, d, t) :: rest =>
      match fuel with
      | O => None
      | S fuel' =>
          if ltb (t - lastT) minStepSize || isLinearSegment lastP lastD p d then
            linearizeLoop fuel' p0 p1 p2 p3 minStepSize rest p d t (steps ++ [t])
          else
            let t' := 0.5 * (lastT + t) in
            let p' := bezierCurve p0 p1 p2 p3 t' in
            let d' := bezierCurveDeriv p0 p1 p2 p3 t' in
            linearizeLoop fuel' p0 p1 p2 p3 minStepSize
                          ((p', d', t') :: stackedPoints) lastP lastD lastT steps
      end
  end.

Definition linearizeCurve (fuel : nat) (p0 p1 p2 p3 : QPointF) : option (list float) :=
  linearizeLoop fuel p0 p1 p2 p3 (2 / kisDistance p0 p3)
                [(p3, pscale 3 (psub p3 p2), 1)]
                p0 (pscale 3 (psub p1 p0)) 0 [0].

Fixpoint merge (a : list float) : list float -> list float :=
  fix merge_b (b : list float) : list float :=
    match a, b with
    | [], _ => b
    | _, [] => a
    | x :: a', y :: b' =>
        if ltb y x then y :: merge_b b' else x :: merge a' b
    end.

Fixpoint unique_from (kept : float) (l : list float) : list float :=
  match l with
  | [] => []
  | x :: r => if qFuzzyCompare kept x then unique_from kept r
              else x :: unique_from x r
  end.

Definition mergeSteps (a b : list float) : list float :=
  match merge a b with
  | [] => []
  | x :: r => x :: unique_from x r
  end.

(** The twelve control points of a patch, in the order of
    [ControlPointType]. *)
Record Patch : Type := mkPatch {
  TL : QPointF; TL_HC : QPointF; TL_VC : QPointF;
  TR : QPointF; TR_HC : QPointF; TR_VC : QPointF;
  BL : QPointF; BL_HC : QPointF; BL_VC : QPointF;
  BR : QPointF; BR_HC : QPointF; BR_VC : QPointF
}.

Definition leftCurve (p : Patch) (y : float) : QPointF :=
  bezierCurve (TL p) (TL_VC p) (BL_VC p) (BL p) y.
Definition rightCurve (p : Patch) (y : float) : QPointF :=
  bezierCurve (TR p) (TR_VC p) (BR_VC p) (BR p) y.

(** [transf = Sc + Sd - Sb] *)
Definition transfAt (p : Patch) (xProportion yProportion : float) : QPointF :=
  let Sc := lerp (bezierCurve (TL p) (TL_HC p) (TR_HC p) (TR p) xProportion)
                 (bezierCurve (BL p) (BL_HC p) (BR_HC p) (BR p) xProportion)
                 yProportion in
  let Sd := lerp (bezierCurve (TL p) (TL_VC p) (BL_VC p) (BL p) yProportion)
                 (bezierCurve (TR p) (TR_VC p) (BR_VC p) (BR p) yProportion)
                 xProportion in
  let Sb := lerp (lerp (TL p) (TR p) xProportion)
                 (lerp (BL p) (BR p) xProportion)
                 yProportion in
  psub (padd Sc Sd) Sb.

(** [sampleIrregularGrid]: the two merged step vectors and the vector
    [transfPoints], row by row. *)
Definition sampleIrregularGrid (fuel : nat) (p : Patch)
  : option (list float * list float * list QPointF) :=
  match linearizeCurve fuel (TL p) (TL_HC p) (TR_HC p) (TR p),
        linearizeCurve fuel (BL p) (BL_HC p) (BR_HC p) (BR p),
        linearizeCurve fuel (TL p) (TL_VC p) (BL_VC p) (BL p),
        linearizeCurve fuel (TR p) (TR_VC p) (BR_VC p) (BR p) with
  | Some topSteps, Some bottomSteps, Some leftSteps, Some rightSteps =>
      let horizontalSteps := mergeSteps topSteps bottomSteps in
      let verticalSteps := mergeSteps leftSteps rightSteps in
      Some (horizontalSteps, verticalSteps,
            flat_map (fun y => map (fun x => transfAt p x y) horizontalSteps)
                     verticalSteps)
  | _, _, _, _ => None
  end.

(** A patch on the square (0,0)-(100,100) whose control points lie 3.3
    off the chords. *)
Definition wavyPatch : Patch :=
  mkPatch (mkPoint 0 0) (mkPoint 30 3.3) (mkPoint (-3.3) 30)
          (mkPoint 100 0) (mkPoint 70 3.3) (mkPoint 96.7 30)
          (mkPoint 0 100) (mkPoint 30 103.3) (mkPoint (-3.3) 70)
          (mkPoint 100 100) (mkPoint 70 103.3) (mkPoint 96.7 70).

End Binary64.

(** Binary64 literals, for the statements about [Binary64]. *)
Import PrimFloat.
Arguments Binary64.mkPoint (px py)%_float_scope.

(* ================================================================== *)
(** * Properties *)

(** Proves an equality of points that is a ring identity in each of the
    two coordinates. *)
Ltac pring :=
  split; cbv [padd psub popp pscale px py sp0 sp1 sp2 sp3 sp4]; ring.

(* ------------------------------------------------------------------ *)
(** ** Equality of points *)

#[global] Instance peq_Equivalence : Equivalence peq.
Proof.
  split.
  - intros a; split; reflexivity.
  - intros a b [H1 H2]; split; symmetry; assumption.
  - intros a b c [H1 H2] [H3 H4]; split; etransitivity; eassumption.
Qed.

#[global] Instance padd_Proper : Proper (peq ==> peq ==> peq) padd.
Proof. intros a a' [Ha1 Ha2] b b' [Hb1 Hb2]; split; simpl; rewrite ?Ha1, ?Ha2, ?Hb1, ?Hb2; reflexivity. Qed.

#[global] Instance psub_Proper : Proper (peq ==> peq ==> peq) psub.
Proof. intros a a' [Ha1 Ha2] b b' [Hb1 Hb2]; split; simpl; rewrite ?Ha1, ?Ha2, ?Hb1, ?Hb2; reflexivity. Qed.

#[global] Instance pscale_Proper : Proper (Qeq ==> peq ==> peq) pscale.
Proof. intros k k' Hk a a' [Ha1 Ha2]; split; simpl; rewrite ?Ha1, ?Ha2, ?Hk; reflexivity. Qed.

(* ------------------------------------------------------------------ *)
(** ** Basic facts on comparisons *)

Lemma Qltb_lt (x y : Q) : Qltb x y = true <-> x < y.
Proof.
  unfold Qltb. rewrite Qlt_alt. destruct (x ?= y); split; congruence.
Qed.

Lemma Qltb_ge (x y : Q) : Qltb x y = false <-> y <= x.
Proof.
  split; intros H.
  - apply Qnot_lt_le. intros Hlt. apply Qltb_lt in Hlt. congruence.
  - destruct (Qltb x y) eqn:E; [|reflexivity].
    apply Qltb_lt in E. exfalso. apply (Qlt_not_le _ _ E H).
Qed.

#[global] Instance Qltb_Proper : Proper (Qeq ==> Qeq ==> eq) Qltb.
Proof.
  intros a a' Ha b b' Hb. unfold Qltb. rewrite Ha, Hb. reflexivity.
Qed.

(* ------------------------------------------------------------------ *)
(** ** Cubic Bezier curves and De Casteljau *)



#[global] Instance bezierCurve_Proper :
  Proper (peq ==> peq ==> peq ==> peq ==> Qeq ==> peq) bezierCurve.
Proof.
  intros a a' Ha b b' Hb c c' Hc d d' Hd t t' Ht.
  unfold bezierCurve, pow2. rewrite Ha, Hb, Hc, Hd, Ht. reflexivity.
Qed.

#[global] Instance lerp_Proper : Proper (peq ==> peq ==> Qeq ==> peq) lerp.
Proof.
  intros a a' Ha b b' Hb t t' Ht. unfold lerp. rewrite Ha, Hb, Ht. reflexivity.
Qed.

(** The outputs of [deCasteljau], written out. *)
Lemma deCasteljau_unfold (q0 q1 q2 q3 : QPointF) (t : Q) :
  let q01 := ((1 - t) * q0 + t * q1)%P in
  let q12 := ((1 - t) * q1 + t * q2)%P in
  let q23 := ((1 - t) * q2 + t * q3)%P in
  let q012 := ((1 - t) * q01 + t * q12)%P in
  let q123 := ((1 - t) * q12 + t * q23)%P in
  deCasteljau q0 q1 q2 q3 t
  = mkSplit q01 q012 ((1 - t) * q012 + t * q123)%P q123 q23.
Proof. reflexivity. Qed.

Lemma deCasteljau_split_point (q0 q1 q2 q3 : QPointF) (t : Q) :
  sp2 (deCasteljau q0 q1 q2 q3 t) =p= bezierCurve q0 q1 q2 q3 t.
Proof. rewrite deCasteljau_unfold. unfold bezierCurve, pow2. pring. Qed.

Lemma deCasteljau_left_curve (q0 q1 q2 q3 : QPointF) (t s : Q) :
  let r := deCasteljau q0 q1 q2 q3 t in
  bezierCurve q0 (sp0 r) (sp1 r) (sp2 r) s =p= bezierCurve q0 q1 q2 q3 (t * s).
Proof. rewrite deCasteljau_unfold. unfold bezierCurve, pow2. pring. Qed.

Lemma deCasteljau_right_curve (q0 q1 q2 q3 : QPointF) (t s : Q) :
  let r := deCasteljau q0 q1 q2 q3 t in
  bezierCurve (sp2 r) (sp3 r) (sp4 r) q3 s
  =p= bezierCurve q0 q1 q2 q3 (t + (1 - t) * s).
Proof. rewrite deCasteljau_unfold. unfold bezierCurve, pow2. pring. Qed.

(* ------------------------------------------------------------------ *)
(** ** The Coons patch *)

Section Coons.

Import BezierPatch.

Variable patch : BezierPatch.t.

Lemma transfAt_left (y : Q) : transfAt patch 0 y =p= leftCurve patch y.
Proof. unfold transfAt, leftCurve, lerp, bezierCurve, pow2. pring. Qed.

Lemma transfAt_right (y : Q) : transfAt patch 1 y =p= rightCurve patch y.
Proof. unfold transfAt, rightCurve, lerp, bezierCurve, pow2. pring. Qed.

Lemma transfAt_top (x : Q) : transfAt patch x 0 =p= topCurve patch x.
Proof. unfold transfAt, topCurve, lerp, bezierCurve, pow2. pring. Qed.

Lemma transfAt_bottom (x : Q) : transfAt patch x 1 =p= bottomCurve patch x.
Proof. unfold transfAt, bottomCurve, lerp, bezierCurve, pow2. pring. Qed.

Lemma meshForwardMapping_transfAt (dst : QPointF) (u v : Q) :
  Solver.meshForwardMapping u v (Solver.paramsOf patch dst) =p= transfAt patch u v.
Proof.
  unfold Solver.meshForwardMapping, Solver.paramsOf, transfAt, lerp, bezierCurve,
    pow2, pow3.
  pring.
Qed.

End Coons.

(* ------------------------------------------------------------------ *)
(** ** Vectors *)

Section VectorFacts.

Local Open Scope nat_scope.
Context {A : Type}.
Implicit Types (l xs : list A) (i j : nat) (x : A).

Lemma set_nth_Some i x l : i < length l -> exists l', set_nth i x l = Some l'.
Proof.
  revert i; induction l as [|y l IH]; intros [|i] H; simpl in *; try lia.
  - eexists; reflexivity.
  - destruct (IH i) as [l' ->]; [lia|]. eexists; reflexivity.
Qed.

Lemma set_nth_length i x l l' : set_nth i x l = Some l' -> length l' = length l.
Proof.
  revert i l'; induction l as [|y l IH]; intros [|i] l' H; simpl in *; try discriminate.
  - injection H as <-. reflexivity.
  - destruct (set_nth i x l) eqn:E; simpl in H; [|discriminate].
    injection H as <-. simpl. f_equal. eapply IH; eassumption.
Qed.

Lemma set_nth_nth_error i x l l' :
  set_nth i x l = Some l' ->
  forall j, nth_error l' j = if j =? i then Some x else nth_error l j.
Proof.
  revert i l'; induction l as [|y l IH]; intros [|i] l' H; simpl in *; try discriminate.
  - injection H as <-. intros [|j]; reflexivity.
  - destruct (set_nth i x l) eqn:E; simpl in H; [|discriminate].
    injection H as <-. intros [|j]; simpl; [reflexivity|].
    apply (IH _ _ E).
Qed.

Lemma insert_range_Some i xs l :
  i <= length l -> insert_range i xs l = Some (firstn i l ++ xs ++ skipn i l).
Proof.
  intros H. unfold insert_range.
  destruct (i <=? length l) eqn:E; [reflexivity|].
  apply Nat.leb_gt in E. lia.
Qed.

Lemma insert_range_inv i xs l l' :
  insert_range i xs l = Some l' ->
  i <= length l /\ l' = firstn i l ++ xs ++ skipn i l.
Proof.
  unfold insert_range. destruct (i <=? length l) eqn:E; [|discriminate].
  apply Nat.leb_le in E. intros H; injection H as <-. auto.
Qed.

Lemma insert_length i xs l :
  i <= length l -> length (firstn i l ++ xs ++ skipn i l) = length l + length xs.
Proof.
  intros H. rewrite !length_app, length_firstn, length_skipn. lia.
Qed.

Lemma insert_nth_error i xs l j :
  i <= length l ->
  nth_error (firstn i l ++ xs ++ skipn i l) j =
    if j <? i then nth_error l j
    else if j <? i + length xs then nth_error xs (j - i)
         else nth_error l (j - length xs).
Proof.
  intros H.
  destruct (j <? i) eqn:E1.
  - apply Nat.ltb_lt in E1.
    rewrite nth_error_app1 by (rewrite length_firstn; lia).
    rewrite nth_error_firstn.
    apply Nat.ltb_lt in E1. rewrite E1. reflexivity.
  - apply Nat.ltb_ge in E1.
    rewrite nth_error_app2 by (rewrite length_firstn; lia).
    rewrite length_firstn, Nat.min_l by lia.
    destruct (j <? i + length xs) eqn:E2.
    + apply Nat.ltb_lt in E2. rewrite nth_error_app1 by lia. reflexivity.
    + apply Nat.ltb_ge in E2. rewrite nth_error_app2 by lia.
      rewrite nth_error_skipn. f_equal. lia.
Qed.

(** Row-major access to the result of two nested loops. *)
Lemma nth_error_grid {B C : Type} (f : B -> A -> C) (xs : list A) (ys : list B)
      (ix iy : nat) (a : A) (b : B) :
  nth_error xs ix = Some a ->
  nth_error ys iy = Some b ->
  nth_error (flat_map (fun y => map (f y) xs) ys) (iy * length xs + ix) = Some (f b a).
Proof.
  intros Hx. revert iy. induction ys as [|y ys IH]; intros [|iy] Hy; simpl in *;
    try discriminate.
  - injection Hy as ->.
    assert (ix < length xs) by (apply nth_error_Some; congruence).
    rewrite nth_error_app1 by (rewrite length_map; assumption).
    apply map_nth_error. assumption.
  - rewrite nth_error_app2 by (rewrite length_map; lia).
    rewrite length_map.
    replace (length xs + iy * length xs + ix - length xs) with (iy * length xs + ix) by lia.
    apply IH. assumption.
Qed.

Lemma length_flat_map_uniform {B : Type} (g : B -> list A) (n : nat) (ys : list B) :
  (forall y, length (g y) = n) -> length (flat_map g ys) = length ys * n.
Proof.
  intros Hg. induction ys as [|y ys IH]; simpl; [reflexivity|].
  rewrite length_app, Hg, IH. reflexivity.
Qed.

End VectorFacts.

(* ------------------------------------------------------------------ *)
(** ** Sorted parametric sequences and [upper_bound] *)

Lemma upper_bound_le_length (l : list Q) (t : Q) : (upper_bound l t <= length l)%nat.
Proof.
  induction l as [|x l IH]; simpl; [lia|]. destruct (Qltb t x); simpl; lia.
Qed.

(** Below the bound every element is at most [t]. *)
Lemma upper_bound_below (l : list Q) (t : Q) (j : nat) (a : Q) :
  (j < upper_bound l t)%nat -> nth_error l j = Some a -> a <= t.
Proof.
  revert j; induction l as [|x l IH]; intros j Hj Ha; simpl in *; [lia|].
  destruct (Qltb t x) eqn:E; [lia|].
  destruct j as [|j]; simpl in Ha.
  - injection Ha as <-. apply Qltb_ge. assumption.
  - apply (IH j); [lia|assumption].
Qed.

(** The element at the bound, when there is one, is greater than [t]. *)
Lemma upper_bound_at (l : list Q) (t : Q) :
  (upper_bound l t < length l)%nat ->
  exists b, nth_error l (upper_bound l t) = Some b /\ t < b.
Proof.
  induction l as [|x l IH]; simpl; intros H; [lia|].
  destruct (Qltb t x) eqn:E.
  - exists x. split; [reflexivity|]. apply Qltb_lt. assumption.
  - simpl. apply IH. lia.
Qed.

Lemma upper_bound_all (l : list Q) (t : Q) :
  upper_bound l t = length l -> Forall (fun x => x <= t) l.
Proof.
  induction l as [|x l IH]; simpl; intros H; [constructor|].
  destruct (Qltb t x) eqn:E; [discriminate|].
  constructor; [apply Qltb_ge; assumption|]. apply IH. lia.
Qed.

Lemma Forall_last (P : Q -> Prop) (l : list Q) (d : Q) :
  l <> [] -> Forall P l -> P (last l d).
Proof.
  induction l as [|x l IH]; intros Hne HF; [congruence|].
  inversion HF; subst. destruct l as [|y l]; [assumption|].
  change (P (last (y :: l) d)). apply IH; [discriminate|assumption].
Qed.

(** Between 0 and 1 the bound falls strictly inside the sequence. *)
Lemma upper_bound_inside (l : list Q) (t : Q) :
  endpoints l -> 0 < t -> t < 1 ->
  exists i a b,
    upper_bound l t = S i /\ (S i < length l)%nat
    /\ nth_error l i = Some a /\ nth_error l (S i) = Some b
    /\ a <= t /\ t < b.
Proof.
  intros [Hhd Hlast] H0 H1.
  destruct l as [|x l]; [simpl in Hlast; lra|].
  simpl in Hhd.
  assert (Hub : (upper_bound (x :: l) t < length (x :: l))%nat).
  { destruct (Nat.eq_dec (upper_bound (x :: l) t) (length (x :: l))) as [E|E].
    - apply upper_bound_all in E.
      apply (Forall_last _ _ 0) in E; [|discriminate]. cbv beta in E. lra.
    - pose proof (upper_bound_le_length (x :: l) t). lia. }
  destruct (upper_bound_at _ _ Hub) as [b [Hb Htb]].
  remember (upper_bound (x :: l) t) as u eqn:Hu.
  destruct u as [|i].
  - simpl in Hu. destruct (Qltb t x) eqn:E; [|discriminate].
    apply Qltb_lt in E. lra.
  - assert (Hi : (i < length (x :: l))%nat) by lia.
    destruct (nth_error (x :: l) i) as [a|] eqn:Ha;
      [|apply nth_error_None in Ha; lia].
    exists i, a, b. repeat split; try assumption.
    apply (upper_bound_below (x :: l) t i); [lia|assumption].
Qed.

Lemma Forall_firstn_skipn (P : Q -> Prop) (l : list Q) (n : nat) :
  Forall P l -> Forall P (firstn n l) /\ Forall P (skipn n l).
Proof.
  intros H. rewrite <- (firstn_skipn n l) in H. apply Forall_app in H. exact H.
Qed.

Lemma Forall_insert (P : Q -> Prop) (l : list Q) (n : nat) (t : Q) :
  P t -> Forall P l -> Forall P (firstn n l ++ [t] ++ skipn n l).
Proof.
  intros Ht Hl. destruct (Forall_firstn_skipn P l n Hl) as [H1 H2].
  apply Forall_app. split; [assumption|].
  constructor; assumption.
Qed.

Lemma last_app_nonempty (l r : list Q) (d : Q) : r <> [] -> last (l ++ r) d = last r d.
Proof.
  intros Hr. induction l as [|x l IH]; [reflexivity|].
  simpl. rewrite IH. destruct (l ++ r) eqn:E; [|reflexivity].
  apply app_eq_nil in E. destruct E; congruence.
Qed.

(** Inserting [t] at its upper bound keeps the sequence sorted. *)
Lemma upper_bound_insert_sorted (l : list Q) (t : Q) :
  StronglySorted Qle l ->
  StronglySorted Qle (firstn (upper_bound l t) l ++ [t] ++ skipn (upper_bound l t) l).
Proof.
  induction 1 as [|x l Hs IH Hx]; simpl.
  - constructor; constructor.
  - destruct (Qltb t x) eqn:E; simpl.
    + apply Qltb_lt in E. constructor.
      * constructor; assumption.
      * constructor; [lra|].
        eapply Forall_impl; [|exact Hx]. simpl. intros y Hy. lra.
    + apply Qltb_ge in E. constructor; [assumption|].
      apply Forall_insert; assumption.
Qed.

(** In a sorted sequence, a value strictly between two neighbours has its
    upper bound at the second one. *)
Lemma upper_bound_between (l : list Q) (t : Q) (i : nat) (a b : Q) :
  StronglySorted Qle l ->
  nth_error l i = Some a -> nth_error l (S i) = Some b ->
  a <= t -> t < b ->
  upper_bound l t = S i.
Proof.
  intros Hs. revert i. induction Hs as [|x l Hs IH Hx]; intros i Ha Hb Hat Htb.
  - destruct i; discriminate.
  - simpl. destruct i as [|i]; simpl in Ha, Hb.
    + injection Ha as ->.
      assert (E : Qltb t a = false) by (apply Qltb_ge; assumption).
      rewrite E. f_equal.
      destruct l as [|y l]; [discriminate|]. simpl in Hb. injection Hb as ->.
      simpl. assert (E' : Qltb t b = true) by (apply Qltb_lt; assumption).
      rewrite E'. reflexivity.
    + assert (Hxa : x <= a).
      { rewrite Forall_forall in Hx. apply Hx. eapply nth_error_In; eassumption. }
      assert (E : Qltb t x = false) by (apply Qltb_ge; lra).
      rewrite E. f_equal. apply IH; assumption.
Qed.

Lemma endpoints_insert (l : list Q) (n : nat) (t : Q) :
  (0 < n)%nat -> (n < length l)%nat ->
  endpoints l -> endpoints (firstn n l ++ [t] ++ skipn n l).
Proof.
  intros Hn Hlen [Hhd Hlast]. split.
  - destruct l as [|x l]; [simpl in Hlen; lia|].
    destruct n as [|n]; [lia|]. simpl. assumption.
  - rewrite app_assoc.
    destruct (skipn n l) as [|y r] eqn:E.
    { apply (f_equal (@length Q)) in E. rewrite length_skipn in E. simpl in E. lia. }
    rewrite last_app_nonempty by discriminate.
    rewrite <- (firstn_skipn n l), E, last_app_nonempty in Hlast by discriminate.
    assumption.
Qed.

(* ------------------------------------------------------------------ *)
(** ** Row-major indices *)

Section Indices.

Local Open Scope nat_scope.

Lemma nodeIndex_lt (w h col row : nat) :
  col < w -> row < h -> BezierMesh.nodeIndex w col row < w * h.
Proof. unfold BezierMesh.nodeIndex. nia. Qed.

Lemma nodeIndex_inj (w col row col' row' : nat) :
  col < w -> col' < w ->
  BezierMesh.nodeIndex w col row = BezierMesh.nodeIndex w col' row' ->
  col = col' /\ row = row'.
Proof.
  unfold BezierMesh.nodeIndex. intros H1 H2 H.
  assert (row = row') by nia. subst. lia.
Qed.

Lemma nodeIndex_eqb (w col row col' row' : nat) :
  col < w -> col' < w ->
  (BezierMesh.nodeIndex w col row =? BezierMesh.nodeIndex w col' row')
  = (col =? col') && (row =? row').
Proof.
  intros H1 H2.
  destruct (Nat.eqb_spec (BezierMesh.nodeIndex w col row) (BezierMesh.nodeIndex w col' row'))
    as [E|E].
  - apply nodeIndex_inj in E; try assumption. destruct E; subst.
    rewrite !Nat.eqb_refl. reflexivity.
  - destruct (Nat.eqb_spec col col'), (Nat.eqb_spec row row'); subst; simpl;
      congruence.
Qed.

Lemma nodeIndex_below (w col row i : nat) :
  col < w -> row <= i -> BezierMesh.nodeIndex w col row < S i * w.
Proof.
  unfold BezierMesh.nodeIndex. intros Hc Hr.
  pose proof (Nat.mul_le_mono_r row i w Hr). simpl. lia.
Qed.

Lemma nodeIndex_above (w col row i : nat) :
  i <= row -> i * w <= BezierMesh.nodeIndex w col row.
Proof.
  unfold BezierMesh.nodeIndex. intros Hr.
  pose proof (Nat.mul_le_mono_r i row w Hr). lia.
Qed.

Lemma nodeIndex_pred (w col row : nat) :
  0 < row -> BezierMesh.nodeIndex w col row - w = BezierMesh.nodeIndex w col (row - 1).
Proof.
  unfold BezierMesh.nodeIndex. intros Hr.
  destruct row as [|row]; [lia|]. simpl. rewrite Nat.sub_0_r. lia.
Qed.

Lemma nodeOr_nth_error (m : BezierMesh.t) (col row : nat) :
  length (BezierMesh.m_nodes m) = BezierMesh.width m * BezierMesh.height m ->
  col < BezierMesh.width m -> row < BezierMesh.height m ->
  nth_error (BezierMesh.m_nodes m) (BezierMesh.nodeIndex (BezierMesh.width m) col row)
  = Some (nodeOr m col row).
Proof.
  intros Hlen Hc Hr. unfold nodeOr. apply nth_error_nth'.
  rewrite Hlen. apply nodeIndex_lt; assumption.
Qed.

End Indices.

(* ------------------------------------------------------------------ *)
(** ** The loops of the two subdivisions *)

(** Turns the boolean tests of a goal into hypotheses. *)
Ltac bool_cases :=
  repeat match goal with
         | |- context [(?a <? ?b)%nat] => destruct (Nat.ltb_spec a b)
         | |- context [(?a <=? ?b)%nat] => destruct (Nat.leb_spec a b)
         | |- context [(?a =? ?b)%nat] => destruct (Nat.eqb_spec a b)
         end; cbn [andb fst snd]; try reflexivity; try lia.

Section RowLoop.

Local Open Scope nat_scope.

Variables (m : BezierMesh.t) (topRow : nat) (relT : Q).
Local Notation "'w'" := (BezierMesh.width m).
Local Notation "'h'" := (BezierMesh.height m).
Hypothesis Hlen : length (BezierMesh.m_nodes m) = w * h.
Hypothesis Htop : S topRow < h.

Lemma rowLoopInv_start :
  rowLoopInv m topRow relT 0 (BezierMesh.m_nodes m) (repeat Node.empty w).
Proof.
  repeat split.
  - apply repeat_length.
  - intros col row Hc Hr. rewrite nodeOr_nth_error by assumption.
    unfold rowLoopNode. reflexivity.
  - intros col Hc. lia.
Qed.

Lemma splitRowLoop_inv (d n : nat) (cur newRow : list Node.t) :
  n + d = w ->
  rowLoopInv m topRow relT n cur newRow ->
  exists cur' newRow',
    BezierMesh.splitRowLoop w topRow (S topRow) relT (seq n d) cur newRow
    = Some (cur', newRow')
    /\ rowLoopInv m topRow relT w cur' newRow'.
Proof.
  revert n cur newRow. induction d as [|d IH]; intros n cur newRow Hn Hinv.
  - simpl. exists cur, newRow. split; [reflexivity|].
    replace w with n by lia. assumption.
  - destruct Hinv as (Hl1 & Hl2 & Hcur & Hnew).
    assert (Hnw : n < w) by lia.
    cbn [seq BezierMesh.splitRowLoop].
    rewrite (Hcur n topRow) by lia.
    rewrite (Hcur n (S topRow)) by lia.
    assert (E1 : rowLoopNode m topRow relT n n topRow = nodeOr m n topRow).
    { unfold rowLoopNode. bool_cases. }
    assert (E2 : rowLoopNode m topRow relT n n (S topRow) = nodeOr m n (S topRow)).
    { unfold rowLoopNode. bool_cases. }
    rewrite E1, E2.
    change (BezierMesh.splitCurveVertically (nodeOr m n topRow) (nodeOr m n (S topRow)) relT)
      with (rowSplit m topRow relT n).
    destruct (rowSplit m topRow relT n) as [[top' bottom'] newNode] eqn:Esplit.
    assert (Hi1 : BezierMesh.nodeIndex w n topRow < length cur).
    { rewrite Hl1, Hlen. apply nodeIndex_lt; lia. }
    destruct (set_nth_Some _ top' _ Hi1) as [nodes1 Hs1]. rewrite Hs1.
    assert (Hi2 : BezierMesh.nodeIndex w n (S topRow) < length nodes1).
    { rewrite (set_nth_length _ _ _ _ Hs1), Hl1, Hlen. apply nodeIndex_lt; lia. }
    destruct (set_nth_Some _ bottom' _ Hi2) as [nodes2 Hs2]. rewrite Hs2.
    assert (Hi3 : n < length newRow) by lia.
    destruct (set_nth_Some _ newNode _ Hi3) as [newRow' Hs3]. rewrite Hs3.
    apply IH; [lia|].
    repeat split.
    + rewrite (set_nth_length _ _ _ _ Hs2), (set_nth_length _ _ _ _ Hs1). assumption.
    + rewrite (set_nth_length _ _ _ _ Hs3). assumption.
    + intros col row Hc Hr.
      rewrite (set_nth_nth_error _ _ _ _ Hs2), (set_nth_nth_error _ _ _ _ Hs1).
      rewrite !nodeIndex_eqb by assumption.
      rewrite Hcur by assumption.
      unfold rowLoopNode.
      destruct (Nat.eqb_spec col n) as [->|Hcn].
      * rewrite Esplit. bool_cases.
      * bool_cases.
    + intros col Hc.
      rewrite (set_nth_nth_error _ _ _ _ Hs3).
      destruct (Nat.eqb_spec col n) as [->|Hcn].
      * rewrite Esplit. reflexivity.
      * apply Hnew. lia.
Qed.

End RowLoop.

Section ColumnLoop.

Local Open Scope nat_scope.

Variables (m : BezierMesh.t) (leftColumn : nat) (relT : Q).
Local Notation "'w'" := (BezierMesh.width m).
Local Notation "'h'" := (BezierMesh.height m).
Hypothesis Hlen : length (BezierMesh.m_nodes m) = w * h.
Hypothesis Hleft : S leftColumn < w.

Lemma columnLoopInv_start :
  columnLoopInv m leftColumn relT 0 (BezierMesh.m_nodes m) (repeat Node.empty h).
Proof.
  repeat split.
  - apply repeat_length.
  - intros col row Hc Hr. rewrite nodeOr_nth_error by assumption.
    unfold columnLoopNode. reflexivity.
  - intros row Hr. lia.
Qed.

Lemma splitColumnLoop_inv (d n : nat) (cur newColumn : list Node.t) :
  n + d = h ->
  columnLoopInv m leftColumn relT n cur newColumn ->
  exists cur' newColumn',
    BezierMesh.splitColumnLoop w leftColumn (S leftColumn) relT (seq n d) cur newColumn
    = Some (cur', newColumn')
    /\ columnLoopInv m leftColumn relT h cur' newColumn'.
Proof.
  revert n cur newColumn. induction d as [|d IH]; intros n cur newColumn Hn Hinv.
  - simpl. exists cur, newColumn. split; [reflexivity|].
    replace h with n by lia. assumption.
  - destruct Hinv as (Hl1 & Hl2 & Hcur & Hnew).
    assert (Hnh : n < h) by lia.
    cbn [seq BezierMesh.splitColumnLoop].
    rewrite (Hcur leftColumn n) by lia.
    rewrite (Hcur (S leftColumn) n) by lia.
    assert (E1 : columnLoopNode m leftColumn relT n leftColumn n = nodeOr m leftColumn n).
    { unfold columnLoopNode. bool_cases. }
    assert (E2 : columnLoopNode m leftColumn relT n (S leftColumn) n
                 = nodeOr m (S leftColumn) n).
    { unfold columnLoopNode. bool_cases. }
    rewrite E1, E2.
    change (BezierMesh.splitCurveHorizontally (nodeOr m leftColumn n)
                                              (nodeOr m (S leftColumn) n) relT)
      with (columnSplit m leftColumn relT n).
    destruct (columnSplit m leftColumn relT n) as [[left' right'] newNode] eqn:Esplit.
    assert (Hi1 : BezierMesh.nodeIndex w leftColumn n < length cur).
    { rewrite Hl1, Hlen. apply nodeIndex_lt; lia. }
    destruct (set_nth_Some _ left' _ Hi1) as [nodes1 Hs1]. rewrite Hs1.
    assert (Hi2 : BezierMesh.nodeIndex w (S leftColumn) n < length nodes1).
    { rewrite (set_nth_length _ _ _ _ Hs1), Hl1, Hlen. apply nodeIndex_lt; lia. }
    destruct (set_nth_Some _ right' _ Hi2) as [nodes2 Hs2]. rewrite Hs2.
    assert (Hi3 : n < length newColumn) by lia.
    destruct (set_nth_Some _ newNode _ Hi3) as [newColumn' Hs3]. rewrite Hs3.
    apply IH; [lia|].
    repeat split.
    + rewrite (set_nth_length _ _ _ _ Hs2), (set_nth_length _ _ _ _ Hs1). assumption.
    + rewrite (set_nth_length _ _ _ _ Hs3). assumption.
    + intros col row Hc Hr.
      rewrite (set_nth_nth_error _ _ _ _ Hs2), (set_nth_nth_error _ _ _ _ Hs1).
      rewrite !nodeIndex_eqb by lia.
      rewrite Hcur by assumption.
      unfold columnLoopNode.
      destruct (Nat.eqb_spec row n) as [->|Hrn].
      * rewrite Esplit. bool_cases.
      * bool_cases.
    + intros row Hr.
      rewrite (set_nth_nth_error _ _ _ _ Hs3).
      destruct (Nat.eqb_spec row n) as [->|Hrn].
      * rewrite Esplit. reflexivity.
      * apply Hnew. lia.
Qed.

End ColumnLoop.

(** The insertion loop of [subdivideColumn] turns every stored row
    [rest[row * w .. row * w + w)] into one with [newColumn[row]] placed at
    index [rightColumn]. *)
Lemma insertColumnLoop_spec (w rightColumn : nat) (newColumn : list Node.t) :
  (rightColumn <= w)%nat ->
  forall pre rest : list Node.t,
    length rest = (length newColumn * w)%nat ->
    exists out,
      BezierMesh.insertColumnLoop w (length pre + rightColumn) newColumn (pre ++ rest)
      = Some (pre ++ out)
      /\ length out = (length newColumn * S w)%nat
      /\ forall col row, (col <= w)%nat -> (row < length newColumn)%nat ->
           nth_error out (BezierMesh.nodeIndex (S w) col row)
           = if (col <? rightColumn)%nat then nth_error rest (BezierMesh.nodeIndex w col row)
             else if (col =? rightColumn)%nat then nth_error newColumn row
                  else nth_error rest (BezierMesh.nodeIndex w (col - 1) row).
Proof.
  intros Hrc. induction newColumn as [|n ns IH]; intros pre rest Hlen.
  - simpl in *. destruct rest; [|discriminate]. exists []. repeat split.
    intros col row _ Hr. lia.
  - cbn [BezierMesh.insertColumnLoop].
    simpl length in Hlen.
    assert (HlenA : length (firstn w rest) = w) by (rewrite length_firstn; lia).
    assert (Hlen' : length (skipn w rest) = (length ns * w)%nat)
      by (rewrite length_skipn; lia).
    pose proof (firstn_skipn w rest) as Hsplit.
    remember (firstn w rest) as rowA eqn:HrowA.
    remember (skipn w rest) as rest' eqn:Hrest'.
    clear HrowA Hrest'. subst rest.
    rewrite insert_range_Some by (rewrite !length_app; lia).
    set (rowB := firstn rightColumn rowA ++ [n] ++ skipn rightColumn rowA).
    assert (HlenB : length rowB = S w).
    { unfold rowB. rewrite insert_length by lia. simpl. lia. }
    assert (E : firstn (length pre + rightColumn) (pre ++ rowA ++ rest') ++ [n]
                ++ skipn (length pre + rightColumn) (pre ++ rowA ++ rest')
                = (pre ++ rowB) ++ rest').
    { rewrite firstn_app_2, skipn_app.
      rewrite (skipn_all2 pre) by lia.
      replace (length pre + rightColumn - length pre)%nat with rightColumn by lia.
      rewrite firstn_app, skipn_app.
      replace (rightColumn - length rowA)%nat with 0%nat by lia.
      simpl firstn. simpl skipn. unfold rowB.
      rewrite app_nil_r. simpl. rewrite <- !app_assoc. reflexivity. }
    rewrite E.
    replace (length pre + rightColumn + (w + 1))%nat
      with (length (pre ++ rowB) + rightColumn)%nat by (rewrite length_app; lia).
    destruct (IH (pre ++ rowB) rest' Hlen') as (out & Hout & Hlout & Hnth).
    rewrite Hout. exists (rowB ++ out). repeat split.
    + rewrite app_assoc. reflexivity.
    + rewrite length_app, HlenB, Hlout. simpl. lia.
    + intros col row Hc Hr. unfold BezierMesh.nodeIndex in *.
      destruct row as [|row].
      * rewrite nth_error_app1 by (simpl; lia).
        simpl Nat.mul. simpl Nat.add. unfold rowB.
        rewrite insert_nth_error by lia.
        simpl length.
        destruct (Nat.ltb_spec col rightColumn).
        { rewrite nth_error_app1 by lia. reflexivity. }
        destruct (Nat.eqb_spec col rightColumn) as [->|Hne].
        { rewrite (proj2 (Nat.ltb_lt _ _)) by lia. rewrite Nat.sub_diag. reflexivity. }
        rewrite (proj2 (Nat.ltb_ge _ _)) by lia.
        rewrite nth_error_app1 by lia. reflexivity.
      * rewrite nth_error_app2 by (rewrite HlenB; simpl; lia).
        rewrite HlenB.
        replace (S row * S w + col - S w)%nat with (row * S w + col)%nat by (simpl; lia).
        rewrite Hnth by (simpl in Hr; lia).
        rewrite !(nth_error_app2 rowA) by (rewrite HlenA; simpl; lia).
        rewrite HlenA.
        replace (S row * w + col - w)%nat with (row * w + col)%nat by (simpl; lia).
        replace (S row * w + (col - 1) - w)%nat with (row * w + (col - 1))%nat
          by (simpl; lia).
        reflexivity.
Qed.

(* ------------------------------------------------------------------ *)
(** ** What [subdivideRow] and [subdivideColumn] compute *)

Section SubdivideSpec.

Local Open Scope nat_scope.

Variables (m : BezierMesh.t) (t : Q).
Local Notation "'w'" := (BezierMesh.width m).
Local Notation "'h'" := (BezierMesh.height m).
Hypothesis Hlen : length (BezierMesh.m_nodes m) = w * h.
Hypothesis Hgo : BezierMesh.returnsEarly t = false.

Lemma subdivideRow_spec (i : nat) (a b : Q) :
  upper_bound (BezierMesh.m_rows m) t = S i ->
  S i < h ->
  nth_error (BezierMesh.m_rows m) i = Some a ->
  nth_error (BezierMesh.m_rows m) (S i) = Some b ->
  exists m',
    BezierMesh.subdivideRow t m = Some m'
    /\ BezierMesh.m_size m' = (w, S h)
    /\ BezierMesh.m_rows m'
       = firstn (S i) (BezierMesh.m_rows m) ++ [t] ++ skipn (S i) (BezierMesh.m_rows m)
    /\ BezierMesh.m_columns m' = BezierMesh.m_columns m
    /\ BezierMesh.m_originalRect m' = BezierMesh.m_originalRect m
    /\ length (BezierMesh.m_nodes m') = w * S h
    /\ forall col row, col < w -> row < S h ->
         BezierMesh.node m' col row
         = Some (rowSubdivided m i ((t - a) / (b - a))%Q col row).
Proof.
  intros Hub Hi Ha Hb.
  unfold BezierMesh.subdivideRow. rewrite Hgo, Hub, Ha, Hb.
  destruct (splitRowLoop_inv m i ((t - a) / (b - a))%Q Hlen Hi w 0
              (BezierMesh.m_nodes m) (repeat Node.empty w) eq_refl
              (rowLoopInv_start m i _ Hlen Hi))
    as (cur & newRow & Hloop & Hl1 & Hl2 & Hcur & Hnew).
  rewrite Hloop.
  assert (Hpos : S i * w <= length cur).
  { rewrite Hl1, Hlen, (Nat.mul_comm w h). apply Nat.mul_le_mono_r. lia. }
  rewrite (insert_range_Some _ newRow cur Hpos).
  assert (Hrows : S i <= length (BezierMesh.m_rows m)).
  { apply Nat.lt_le_incl. apply nth_error_Some. congruence. }
  rewrite (insert_range_Some _ [t] _ Hrows).
  eexists. split; [reflexivity|]. cbn [BezierMesh.m_size BezierMesh.m_rows
    BezierMesh.m_columns BezierMesh.m_originalRect BezierMesh.m_nodes].
  repeat split.
  - rewrite insert_length by assumption. rewrite Hl1, Hl2, Hlen.
    rewrite Nat.mul_succ_r. reflexivity.
  - intros col row Hc Hr.
    unfold BezierMesh.node.
    cbn [BezierMesh.m_nodes BezierMesh.width BezierMesh.m_size fst].
    rewrite insert_nth_error by assumption.
    rewrite Hl2. unfold rowSubdivided.
    pose proof (nodeIndex_below w col row) as Hbelow.
    pose proof (nodeIndex_above w col row) as Habove.
    destruct (Nat.leb_spec row i) as [Hle|Hgt].
    + rewrite (proj2 (Nat.ltb_lt _ _)) by (apply Hbelow; assumption).
      apply Hcur; lia.
    + specialize (Habove (S i) Hgt).
      rewrite (proj2 (Nat.ltb_ge _ (S i * w))) by assumption.
      destruct (Nat.eqb_spec row (S i)) as [->|Hne].
      * specialize (Hbelow (S i) Hc (Nat.le_refl _)).
        rewrite (proj2 (Nat.ltb_lt _ _)) by (simpl in *; lia).
        replace (BezierMesh.nodeIndex w col (S i) - S i * w) with col
          by (unfold BezierMesh.nodeIndex; lia).
        apply Hnew. assumption.
      * pose proof (nodeIndex_above w col row (S (S i))) as Habove2.
        rewrite (proj2 (Nat.ltb_ge _ (S i * w + w)))
          by (simpl in *; lia).
        rewrite nodeIndex_pred by lia.
        apply Hcur; lia.
Qed.

Lemma subdivideColumn_spec (i : nat) (a b : Q) :
  upper_bound (BezierMesh.m_columns m) t = S i ->
  S i < w ->
  nth_error (BezierMesh.m_columns m) i = Some a ->
  nth_error (BezierMesh.m_columns m) (S i) = Some b ->
  exists m',
    BezierMesh.subdivideColumn t m = Some m'
    /\ BezierMesh.m_size m' = (S w, h)
    /\ BezierMesh.m_columns m'
       = firstn (S i) (BezierMesh.m_columns m) ++ [t] ++ skipn (S i) (BezierMesh.m_columns m)
    /\ BezierMesh.m_rows m' = BezierMesh.m_rows m
    /\ BezierMesh.m_originalRect m' = BezierMesh.m_originalRect m
    /\ length (BezierMesh.m_nodes m') = S w * h
    /\ forall col row, col < S w -> row < h ->
         BezierMesh.node m' col row
         = Some (columnSubdivided m i ((t - a) / (b - a))%Q col row).
Proof.
  intros Hub Hi Ha Hb.
  unfold BezierMesh.subdivideColumn. rewrite Hgo, Hub, Ha, Hb.
  destruct (splitColumnLoop_inv m i ((t - a) / (b - a))%Q Hlen Hi h 0
              (BezierMesh.m_nodes m) (repeat Node.empty h) eq_refl
              (columnLoopInv_start m i _ Hlen Hi))
    as (cur & newColumn & Hloop & Hl1 & Hl2 & Hcur & Hnew).
  rewrite Hloop.
  assert (Hlc : length cur = length newColumn * w) by (rewrite Hl1, Hl2, Hlen; lia).
  destruct (insertColumnLoop_spec w (S i) newColumn (Nat.lt_le_incl _ _ Hi) [] cur Hlc)
    as (out & Hout & Hlout & Hnth).
  simpl in Hout. rewrite Hout.
  assert (Hcols : S i <= length (BezierMesh.m_columns m)).
  { apply Nat.lt_le_incl. apply nth_error_Some. congruence. }
  rewrite (insert_range_Some _ [t] _ Hcols).
  eexists. split; [reflexivity|]. cbn [BezierMesh.m_size BezierMesh.m_rows
    BezierMesh.m_columns BezierMesh.m_originalRect BezierMesh.m_nodes].
  repeat split.
  - rewrite Hlout, Hl2. lia.
  - intros col row Hc Hr.
    unfold BezierMesh.node.
    cbn [BezierMesh.m_nodes BezierMesh.width BezierMesh.m_size fst].
    rewrite Hnth by lia.
    unfold columnSubdivided.
    destruct (Nat.ltb_spec col (S i)) as [Hlt|Hge].
    + rewrite (proj2 (Nat.leb_le _ _)) by lia. apply Hcur; lia.
    + rewrite (proj2 (Nat.leb_gt _ _)) by lia.
      destruct (Nat.eqb_spec col (S i)) as [->|Hne].
      * apply Hnew. assumption.
      * apply Hcur; lia.
Qed.

End SubdivideSpec.

(* ------------------------------------------------------------------ *)
(** ** The constructor *)

Section Constructor.

Variables (mapRect : QRectF) (w h : nat).

Lemma proportion_first (n : nat) : BezierMesh.proportion 0 n == 0.
Proof. unfold BezierMesh.proportion, qrealOfNat, Qdiv. simpl. ring. Qed.

Lemma proportion_last (n : nat) :
  (2 <= n)%nat -> BezierMesh.proportion (n - 1) n == 1.
Proof.
  intros Hn. unfold BezierMesh.proportion, qrealOfNat.
  replace (Z.of_nat (n - 1)) with (Z.of_nat n - 1)%Z by lia.
  field. intros H. unfold Qeq in H. simpl in H. lia.
Qed.

Lemma proportion_lt (n i j : nat) :
  (2 <= n)%nat -> (i < j)%nat -> BezierMesh.proportion i n < BezierMesh.proportion j n.
Proof.
  intros Hn Hij. unfold BezierMesh.proportion, qrealOfNat, Qdiv.
  apply Qmult_lt_compat_r.
  - apply Qinv_lt_0_compat. unfold Qlt. simpl. lia.
  - unfold Qlt. simpl. lia.
Qed.

Lemma sorted_map_seq (f : nat -> Q) (s n : nat) :
  (forall i j, (i < j)%nat -> f i < f j) ->
  StronglySorted Qlt (map f (seq s n)).
Proof.
  intros Hf. revert s. induction n as [|n IH]; intros s; simpl; constructor.
  - apply IH.
  - apply Forall_forall. intros y Hy. apply in_map_iff in Hy.
    destruct Hy as [k [<- Hk]]. apply in_seq in Hk. apply Hf. lia.
Qed.

Lemma endpoints_proportions (n : nat) :
  (2 <= n)%nat -> endpoints (map (fun i => BezierMesh.proportion i n) (seq 0 n)).
Proof.
  intros Hn. split.
  - destruct n as [|n]; [lia|]. simpl. apply proportion_first.
  - destruct n as [|n]; [lia|].
    rewrite seq_S, map_app. simpl map. rewrite last_last.
    pose proof (proportion_last (S n) Hn) as H.
    replace (S n - 1)%nat with n in H by lia. exact H.
Qed.

Lemma make_node (col row : nat) :
  (col < w)%nat -> (row < h)%nat ->
  BezierMesh.node (BezierMesh.make mapRect (w, h)) col row
  = Some (Node.ofPoint
            (mkPoint (BezierMesh.proportion col w * rectW mapRect + rectX mapRect)
                     (BezierMesh.proportion row h * rectH mapRect + rectY mapRect))).
Proof.
  intros Hc Hr. unfold BezierMesh.node, BezierMesh.make, BezierMesh.nodeIndex.
  cbn [BezierMesh.m_nodes BezierMesh.width BezierMesh.m_size fst snd].
  rewrite <- (length_seq w 0) at 1.
  apply (nth_error_grid
           (fun row col =>
              Node.ofPoint
                (mkPoint (BezierMesh.proportion col w * rectW mapRect + rectX mapRect)
                         (BezierMesh.proportion row h * rectH mapRect + rectY mapRect)))).
  - rewrite nth_error_seq. rewrite (proj2 (Nat.ltb_lt _ _)) by assumption. reflexivity.
  - rewrite nth_error_seq. rewrite (proj2 (Nat.ltb_lt _ _)) by assumption. reflexivity.
Qed.

Lemma make_shape : (2 <= w)%nat -> (2 <= h)%nat -> shape_ok (BezierMesh.make mapRect (w, h)).
Proof.
  intros Hw Hh. unfold shape_ok, BezierMesh.make, BezierMesh.width, BezierMesh.height.
  cbn [BezierMesh.m_nodes BezierMesh.m_columns BezierMesh.m_rows BezierMesh.m_size fst snd].
  repeat split.
  - rewrite (length_flat_map_uniform _ w), length_seq; [lia|].
    intros row. rewrite length_map, length_seq. reflexivity.
  - rewrite length_map, length_seq. reflexivity.
  - rewrite length_map, length_seq. reflexivity.
  - apply endpoints_proportions; assumption.
  - apply endpoints_proportions; assumption.
  - apply endpoints_proportions; assumption.
  - apply endpoints_proportions; assumption.
Qed.

End Constructor.

(* ------------------------------------------------------------------ *)
(** ** Invariants of the mesh *)

Lemma returnsEarly_false (t : Q) :
  BezierMesh.returnsEarly t = false -> 0 < t /\ t < 1.
Proof.
  unfold BezierMesh.returnsEarly. intros H.
  apply orb_false_iff in H. destruct H as [_ H].
  apply negb_false_iff, andb_true_iff in H.
  destruct H as [H0 H1]. split; apply Qltb_lt; assumption.
Qed.

Lemma returnsEarly_fuzzy (t : Q) :
  qFuzzyCompare t 0 || qFuzzyCompare t 1 = true -> BezierMesh.returnsEarly t = true.
Proof. unfold BezierMesh.returnsEarly. intros ->. reflexivity. Qed.

Lemma StronglySorted_lt_le (l : list Q) : StronglySorted Qlt l -> StronglySorted Qle l.
Proof.
  induction 1 as [|x l Hs IH Hx]; constructor; [assumption|].
  eapply Forall_impl; [|exact Hx]. intros y Hy. apply Qlt_le_weak. assumption.
Qed.

Lemma make_wf (mapRect : QRectF) (w h : nat) :
  (2 <= w)%nat -> (2 <= h)%nat -> wf (BezierMesh.make mapRect (w, h)).
Proof.
  intros Hw Hh. split; [apply make_shape; assumption|].
  split; apply StronglySorted_lt_le; apply sorted_map_seq; intros i j Hij;
    apply proportion_lt; assumption.
Qed.

Lemma make_strictly_sorted (mapRect : QRectF) (w h : nat) :
  (2 <= w)%nat -> (2 <= h)%nat -> strictly_sorted_ok (BezierMesh.make mapRect (w, h)).
Proof.
  intros Hw Hh.
  split; apply sorted_map_seq; intros i j Hij; apply proportion_lt; assumption.
Qed.

(** A call of [subdivideRow] on a well-formed mesh is defined, keeps the
    mesh well-formed, and either returns early or adds one row. *)
Lemma subdivideRow_wf (m : BezierMesh.t) (t : Q) :
  wf m ->
  exists m',
    BezierMesh.subdivideRow t m = Some m'
    /\ wf m'
    /\ (BezierMesh.returnsEarly t = true -> m' = m)
    /\ (BezierMesh.returnsEarly t = false ->
        BezierMesh.m_size m' = (BezierMesh.width m, S (BezierMesh.height m))).
Proof.
  intros Hwf. pose proof Hwf as [(Hn & Hc & Hr & Hec & Her) [Hsc Hsr]].
  destruct (BezierMesh.returnsEarly t) eqn:Hgo.
  - exists m. unfold BezierMesh.subdivideRow. rewrite Hgo.
    split; [reflexivity|]. split; [assumption|].
    split; [reflexivity|discriminate].
  - destruct (returnsEarly_false t Hgo) as [H0 H1].
    destruct (upper_bound_inside _ t Her H0 H1) as (i & a & b & Hub & Hi & Ha & Hb & _).
    rewrite Hr in Hi.
    destruct (subdivideRow_spec m t Hn Hgo i a b Hub Hi Ha Hb)
      as (m' & Hm' & Hsize & Hrows & Hcols & _ & Hlen & _).
    exists m'. split; [assumption|]. split; [|split; [discriminate|intros _; assumption]].
    unfold wf, shape_ok, sorted_ok, BezierMesh.width, BezierMesh.height.
    rewrite Hsize, Hrows, Hcols. cbn [fst snd].
    split.
    + refine (conj _ (conj _ (conj _ (conj _ _)))); try assumption.
      * rewrite insert_length by lia. simpl. lia.
      * apply endpoints_insert; [lia|lia|assumption].
    + split; [assumption|].
      rewrite <- Hub. apply upper_bound_insert_sorted. assumption.
Qed.

Lemma subdivideColumn_wf (m : BezierMesh.t) (t : Q) :
  wf m ->
  exists m',
    BezierMesh.subdivideColumn t m = Some m'
    /\ wf m'
    /\ (BezierMesh.returnsEarly t = true -> m' = m)
    /\ (BezierMesh.returnsEarly t = false ->
        BezierMesh.m_size m' = (S (BezierMesh.width m), BezierMesh.height m)).
Proof.
  intros Hwf. pose proof Hwf as [(Hn & Hc & Hr & Hec & Her) [Hsc Hsr]].
  destruct (BezierMesh.returnsEarly t) eqn:Hgo.
  - exists m. unfold BezierMesh.subdivideColumn. rewrite Hgo.
    split; [reflexivity|]. split; [assumption|].
    split; [reflexivity|discriminate].
  - destruct (returnsEarly_false t Hgo) as [H0 H1].
    destruct (upper_bound_inside _ t Hec H0 H1) as (i & a & b & Hub & Hi & Ha & Hb & _).
    rewrite Hc in Hi.
    destruct (subdivideColumn_spec m t Hn Hgo i a b Hub Hi Ha Hb)
      as (m' & Hm' & Hsize & Hcols & Hrows & _ & Hlen & _).
    exists m'. split; [assumption|]. split; [|split; [discriminate|intros _; assumption]].
    unfold wf, shape_ok, sorted_ok, BezierMesh.width, BezierMesh.height.
    rewrite Hsize, Hrows, Hcols. cbn [fst snd].
    split.
    + refine (conj _ (conj _ (conj _ (conj _ _)))); try assumption.
      * rewrite insert_length by lia. simpl. lia.
      * apply endpoints_insert; [lia|lia|assumption].
    + split; [|assumption].
      rewrite <- Hub. apply upper_bound_insert_sorted. assumption.
Qed.

Lemma reachable_wf (m : BezierMesh.t) : reachable m -> wf m.
Proof.
  induction 1 as [mapRect w h Hw Hh | m m' t Hm IH Hsub | m m' t Hm IH Hsub].
  - apply make_wf; assumption.
  - destruct (subdivideRow_wf m t IH) as (m'' & Hm'' & Hwf & _).
    rewrite Hsub in Hm''. injection Hm'' as <-. assumption.
  - destruct (subdivideColumn_wf m t IH) as (m'' & Hm'' & Hwf & _).
    rewrite Hsub in Hm''. injection Hm'' as <-. assumption.
Qed.

(* ------------------------------------------------------------------ *)
(** ** Reachable meshes (claims C9 and C1) *)

Lemma unitMesh_subdivideRow_half : BezierMesh.subdivideRow (1 # 2) unitMesh = Some meshHalf.
Proof. vm_compute. reflexivity. Qed.

Lemma meshHalf_subdivideRow_half : BezierMesh.subdivideRow (1 # 2) meshHalf = Some meshHalfTwice.
Proof. vm_compute. reflexivity. Qed.

Lemma unitMesh_reachable : reachable unitMesh.
Proof. apply reachable_make; lia. Qed.

Lemma meshHalfTwice_reachable : reachable meshHalfTwice.
Proof.
  eapply reachable_row; [|exact meshHalf_subdivideRow_half].
  eapply reachable_row; [|exact unitMesh_subdivideRow_half].
  exact unitMesh_reachable.
Qed.

(** C9, as stated, fails: after [subdivideRow(0.5)] was called twice on the
    2x2 mesh, the row sequence is [0; 1/2; 1/2; 1], which is not strictly
    sorted. *)
Lemma reachable_not_strictly_sorted :
  ~ (forall m, reachable m -> shape_ok m /\ strictly_sorted_ok m).
Proof.
  intros H. destruct (H meshHalfTwice meshHalfTwice_reachable) as [_ [_ Hrows]].
  vm_compute in Hrows.
  inversion Hrows as [|x l Hl Hx]; subst.
  inversion Hl as [|y l' Hl' Hy]; subst.
  inversion Hy as [|z l'' Hz _]; subst.
  vm_compute in Hz. discriminate.
Qed.

(** C9 (amended): every mesh reachable from a constructor call (logical
    size at least 2x2) by subdivision calls has [columns[0] == 0],
    [columns[last] == 1] (same for rows), a node storage of size
    [width * height], parametric sequences of lengths [width] and [height],
    and both sequences sorted in non-decreasing order. *)
Theorem reachable_mesh_invariant (m : BezierMesh.t) :
  reachable m ->
  (hd 0 (BezierMesh.m_columns m) == 0 /\ last (BezierMesh.m_columns m) 0 == 1)
  /\ (hd 0 (BezierMesh.m_rows m) == 0 /\ last (BezierMesh.m_rows m) 0 == 1)
  /\ length (BezierMesh.m_nodes m) = (BezierMesh.width m * BezierMesh.height m)%nat
  /\ length (BezierMesh.m_columns m) = BezierMesh.width m
  /\ length (BezierMesh.m_rows m) = BezierMesh.height m
  /\ StronglySorted Qle (BezierMesh.m_columns m)
  /\ StronglySorted Qle (BezierMesh.m_rows m).
Proof.
  intros Hm. destruct (reachable_wf m Hm) as [(Hn & Hc & Hr & Hec & Her) [Hsc Hsr]].
  repeat (split; try assumption); try apply Hec; try apply Her.
Qed.

Lemma reachable_mesh_invariant_witness :
  (hd 0 (BezierMesh.m_columns meshHalfTwice) == 0
   /\ last (BezierMesh.m_columns meshHalfTwice) 0 == 1)
  /\ (hd 0 (BezierMesh.m_rows meshHalfTwice) == 0
      /\ last (BezierMesh.m_rows meshHalfTwice) 0 == 1)
  /\ length (BezierMesh.m_nodes meshHalfTwice)
     = (BezierMesh.width meshHalfTwice * BezierMesh.height meshHalfTwice)%nat
  /\ length (BezierMesh.m_columns meshHalfTwice) = BezierMesh.width meshHalfTwice
  /\ length (BezierMesh.m_rows meshHalfTwice) = BezierMesh.height meshHalfTwice
  /\ StronglySorted Qle (BezierMesh.m_columns meshHalfTwice)
  /\ StronglySorted Qle (BezierMesh.m_rows meshHalfTwice).
Proof.
  apply (reachable_mesh_invariant meshHalfTwice).
  apply (reachable_row meshHalf meshHalfTwice (1 # 2));
    [|vm_compute; reflexivity].
  apply (reachable_row unitMesh meshHalf (1 # 2));
    [|vm_compute; reflexivity].
  apply reachable_make; lia.
Defined.




(* ------------------------------------------------------------------ *)
(** ** The frame of a subdivision (claim C10) *)

Section Frame.

Local Open Scope nat_scope.

Variable m : BezierMesh.t.
Hypothesis Hwf : wf m.

Lemma node_in_range (col row : nat) (n : Node.t) :
  col < BezierMesh.width m ->
  BezierMesh.node m col row = Some n ->
  row < BezierMesh.height m /\ nodeOr m col row = n.
Proof.
  intros Hc Hn. destruct Hwf as [(Hlen & _) _].
  assert (Hr : row < BezierMesh.height m).
  { destruct (Nat.lt_ge_cases row (BezierMesh.height m)) as [H|H]; [assumption|].
    exfalso.
    assert (Hsome : BezierMesh.nodeIndex (BezierMesh.width m) col row
                    < length (BezierMesh.m_nodes m)).
    { apply nth_error_Some. unfold BezierMesh.node in Hn. congruence. }
    pose proof (nodeIndex_above (BezierMesh.width m) col row _ H).
    rewrite Hlen, Nat.mul_comm in Hsome. lia. }
  split; [assumption|].
  unfold BezierMesh.node in Hn.
  rewrite nodeOr_nth_error in Hn by assumption. congruence.
Qed.

(** The row [i] below which [subdivideRow(t)] inserts. *)
Lemma row_bracket (t : Q) (i : nat) (a b : Q) :
  nth_error (BezierMesh.m_rows m) i = Some a ->
  nth_error (BezierMesh.m_rows m) (S i) = Some b ->
  (a < t)%Q -> (t < b)%Q ->
  upper_bound (BezierMesh.m_rows m) t = S i /\ S i < BezierMesh.height m.
Proof.
  intros Ha Hb Hat Htb. destruct Hwf as [(_ & _ & Hr & _) [_ Hsr]]. split.
  - eapply upper_bound_between; try eassumption. apply Qlt_le_weak. assumption.
  - rewrite <- Hr. apply nth_error_Some. congruence.
Qed.

Lemma column_bracket (t : Q) (i : nat) (a b : Q) :
  nth_error (BezierMesh.m_columns m) i = Some a ->
  nth_error (BezierMesh.m_columns m) (S i) = Some b ->
  (a < t)%Q -> (t < b)%Q ->
  upper_bound (BezierMesh.m_columns m) t = S i /\ S i < BezierMesh.width m.
Proof.
  intros Ha Hb Hat Htb. destruct Hwf as [(_ & Hc & _ & _) [Hsc _]]. split.
  - eapply upper_bound_between; try eassumption. apply Qlt_le_weak. assumption.
  - rewrite <- Hc. apply nth_error_Some. congruence.
Qed.

(** The nodes of the mesh before the call, as the row loop leaves them. *)
Lemma rowLoopNode_frame (i : nat) (relT : Q) (col row : nat) :
  col < BezierMesh.width m ->
  let n := nodeOr m col row in
  let n' := rowLoopNode m i relT (BezierMesh.width m) col row in
  Node.node n' = Node.node n
  /\ Node.leftControl n' = Node.leftControl n
  /\ Node.rightControl n' = Node.rightControl n
  /\ (row <> S i -> Node.topControl n' = Node.topControl n)
  /\ (row <> i -> Node.bottomControl n' = Node.bottomControl n)
  /\ (row <> i -> row <> S i -> n' = n).
Proof.
  intros Hc. unfold rowLoopNode, rowSplit, BezierMesh.splitCurveVertically.
  rewrite (proj2 (Nat.ltb_lt _ _) Hc). cbn [andb].
  destruct (Nat.eqb_spec row i) as [->|Hi].
  - cbn [fst snd]. repeat split; try reflexivity; congruence.
  - destruct (Nat.eqb_spec row (S i)) as [->|HSi].
    + cbn [fst snd]. repeat split; try reflexivity; congruence.
    + repeat split; reflexivity.
Qed.

Lemma columnLoopNode_frame (i : nat) (relT : Q) (col row : nat) :
  row < BezierMesh.height m ->
  let n := nodeOr m col row in
  let n' := columnLoopNode m i relT (BezierMesh.height m) col row in
  Node.node n' = Node.node n
  /\ Node.topControl n' = Node.topControl n
  /\ Node.bottomControl n' = Node.bottomControl n
  /\ (col <> S i -> Node.leftControl n' = Node.leftControl n)
  /\ (col <> i -> Node.rightControl n' = Node.rightControl n)
  /\ (col <> i -> col <> S i -> n' = n).
Proof.
  intros Hr. unfold columnLoopNode, columnSplit, BezierMesh.splitCurveHorizontally.
  rewrite (proj2 (Nat.ltb_lt _ _) Hr). cbn [andb].
  destruct (Nat.eqb_spec col i) as [->|Hi].
  - cbn [fst snd]. repeat split; try reflexivity; congruence.
  - destruct (Nat.eqb_spec col (S i)) as [->|HSi].
    + cbn [fst snd]. repeat split; try reflexivity; congruence.
    + repeat split; reflexivity.
Qed.

Lemma rowSubdivided_shifted (i : nat) (relT : Q) (col row : nat) :
  rowSubdivided m i relT col (shifted i row)
  = rowLoopNode m i relT (BezierMesh.width m) col row.
Proof.
  unfold rowSubdivided, shifted.
  destruct (Nat.leb_spec row i) as [H|H].
  - rewrite (proj2 (Nat.leb_le _ _) H). reflexivity.
  - rewrite (proj2 (Nat.leb_gt (S row) i)) by lia.
    destruct (Nat.eqb_spec (S row) (S i)); [lia|].
    replace (S row - 1) with row by lia. reflexivity.
Qed.

Lemma columnSubdivided_shifted (i : nat) (relT : Q) (col row : nat) :
  columnSubdivided m i relT (shifted i col) row
  = columnLoopNode m i relT (BezierMesh.height m) col row.
Proof.
  unfold columnSubdivided, shifted.
  destruct (Nat.leb_spec col i) as [H|H].
  - rewrite (proj2 (Nat.leb_le _ _) H). reflexivity.
  - rewrite (proj2 (Nat.leb_gt (S col) i)) by lia.
    destruct (Nat.eqb_spec (S col) (S i)); [lia|].
    replace (S col - 1) with col by lia. reflexivity.
Qed.

End Frame.

(** C10: in a well-formed mesh, for [t] strictly between the row positions
    [i] and [i + 1], [subdivideRow(t)] either returns early and leaves the
    mesh as it is, or adds a row and keeps every node that was there (rows
    up to [i] at their place, the others one row further down) with its
    position and its left and right controls, its top control unless it is
    in row [i + 1], and its bottom control unless it is in row [i], so that
    the nodes of the other rows are unchanged altogether; symmetrically for [subdivideColumn(t)] and the columns [i] and [i + 1],
    with the right control of column [i] and the left control of column
    [i + 1]. *)
Theorem subdivide_frame (m : BezierMesh.t) :
  wf m ->
  (forall (t : Q) (i : nat) (a b : Q),
      a < t -> t < b ->
      nth_error (BezierMesh.m_rows m) i = Some a ->
      nth_error (BezierMesh.m_rows m) (S i) = Some b ->
      exists m',
        BezierMesh.subdivideRow t m = Some m'
        /\ (m' = m
            \/ (BezierMesh.m_size m' = (BezierMesh.width m, S (BezierMesh.height m))
                /\ forall col row n,
                  (col < BezierMesh.width m)%nat ->
                  BezierMesh.node m col row = Some n ->
                  exists n',
                    BezierMesh.node m' col (shifted i row) = Some n'
                    /\ Node.node n' = Node.node n
                    /\ Node.leftControl n' = Node.leftControl n
                    /\ Node.rightControl n' = Node.rightControl n
                    /\ (row <> S i -> Node.topControl n' = Node.topControl n)
                    /\ (row <> i -> Node.bottomControl n' = Node.bottomControl n)
                    /\ (row <> i -> row <> S i -> n' = n))))
  /\ (forall (t : Q) (i : nat) (a b : Q),
         a < t -> t < b ->
         nth_error (BezierMesh.m_columns m) i = Some a ->
         nth_error (BezierMesh.m_columns m) (S i) = Some b ->
         exists m',
           BezierMesh.subdivideColumn t m = Some m'
           /\ (m' = m
               \/ (BezierMesh.m_size m' = (S (BezierMesh.width m), BezierMesh.height m)
                   /\ forall col row n,
                     (col < BezierMesh.width m)%nat ->
                     BezierMesh.node m col row = Some n ->
                     exists n',
                       BezierMesh.node m' (shifted i col) row = Some n'
                       /\ Node.node n' = Node.node n
                       /\ Node.topControl n' = Node.topControl n
                       /\ Node.bottomControl n' = Node.bottomControl n
                       /\ (col <> S i -> Node.leftControl n' = Node.leftControl n)
                       /\ (col <> i -> Node.rightControl n' = Node.rightControl n)
                       /\ (col <> i -> col <> S i -> n' = n)))).
Proof.
  intros Hwf. pose proof Hwf as [(Hlen & _) _].
  split; intros t i a b Hat Htb Ha Hb.
  - destruct (BezierMesh.returnsEarly t) eqn:Hgo.
    { exists m. split; [unfold BezierMesh.subdivideRow; rewrite Hgo; reflexivity|].
      left; reflexivity. }
    destruct (row_bracket m Hwf t i a b Ha Hb Hat Htb) as [Hub Hi].
    destruct (subdivideRow_spec m t Hlen Hgo i a b Hub Hi Ha Hb)
      as (m' & Hm' & Hsize & _ & _ & _ & _ & Hnode).
    exists m'. split; [assumption|]. right. split; [assumption|].
    intros col row n Hc Hn.
    destruct (node_in_range m Hwf col row n Hc Hn) as [Hr <-].
    eexists. split.
    + rewrite Hnode; [|assumption|unfold shifted; destruct (row <=? i)%nat; lia].
      rewrite rowSubdivided_shifted. reflexivity.
    + apply rowLoopNode_frame. assumption.
  - destruct (BezierMesh.returnsEarly t) eqn:Hgo.
    { exists m. split; [unfold BezierMesh.subdivideColumn; rewrite Hgo; reflexivity|].
      left; reflexivity. }
    destruct (column_bracket m Hwf t i a b Ha Hb Hat Htb) as [Hub Hi].
    destruct (subdivideColumn_spec m t Hlen Hgo i a b Hub Hi Ha Hb)
      as (m' & Hm' & Hsize & _ & _ & _ & _ & Hnode).
    exists m'. split; [assumption|]. right. split; [assumption|].
    intros col row n Hc Hn.
    destruct (node_in_range m Hwf col row n Hc Hn) as [Hr <-].
    eexists. split.
    + rewrite Hnode; [|unfold shifted; destruct (col <=? i)%nat; lia|assumption].
      rewrite columnSubdivided_shifted. reflexivity.
    + apply columnLoopNode_frame. assumption.
Qed.

Lemma subdivide_frame_witness :
  exists m',
    BezierMesh.subdivideRow (1 # 4) meshHalf = Some m'
    /\ (m' = meshHalf
        \/ (BezierMesh.m_size m' = (BezierMesh.width meshHalf, S (BezierMesh.height meshHalf))
            /\ forall col row n,
              (col < BezierMesh.width meshHalf)%nat ->
              BezierMesh.node meshHalf col row = Some n ->
              exists n',
                BezierMesh.node m' col (shifted 0 row) = Some n'
                /\ Node.node n' = Node.node n
                /\ Node.leftControl n' = Node.leftControl n
                /\ Node.rightControl n' = Node.rightControl n
                /\ (row <> 1%nat -> Node.topControl n' = Node.topControl n)
                /\ (row <> 0%nat -> Node.bottomControl n' = Node.bottomControl n)
                /\ (row <> 0%nat -> row <> 1%nat -> n' = n))).
Proof.
  assert (Hwf : wf meshHalf).
  { apply reachable_wf.
    apply (reachable_row unitMesh meshHalf (1 # 2));
      [|vm_compute; reflexivity].
    apply reachable_make; lia. }
  apply (proj1 (subdivide_frame meshHalf Hwf) (1 # 4) 0%nat (0 # 1) (1 # 2));
    vm_compute; reflexivity.
Defined.

(* ------------------------------------------------------------------ *)
(** ** The early return between two positions *)

Lemma qFuzzyCompare_zero (t : Q) : 0 < t -> qFuzzyCompare t 0 = false.
Proof.
  intros Ht. unfold qFuzzyCompare.
  destruct (Qle_bool (Qabs (t - 0) * 1000000000000) (Qmin (Qabs t) (Qabs 0))) eqn:E;
    [|reflexivity].
  exfalso. apply Qle_bool_iff in E.
  pose proof (Q.le_min_r (Qabs t) (Qabs 0)) as Hmin.
  change (Qabs 0) with 0 in Hmin.
  assert (Habs : Qabs (t - 0) == t).
  { rewrite Qabs_pos; [ring|]. lra. }
  rewrite Habs in E. change (Qabs 0) with 0 in E. lra.
Qed.

Lemma sorted_hd_le (l : list Q) (i : nat) (a : Q) :
  StronglySorted Qle l -> nth_error l i = Some a -> hd 0 l <= a.
Proof.
  intros Hs Ha. destruct Hs as [|x l Hs Hx]; [destruct i; discriminate|].
  simpl. destruct i as [|i]; simpl in Ha.
  - injection Ha as ->. apply Qle_refl.
  - rewrite Forall_forall in Hx. apply Hx. eapply nth_error_In; eassumption.
Qed.

Lemma sorted_le_last (l : list Q) (i : nat) (b : Q) :
  StronglySorted Qle l -> nth_error l i = Some b -> b <= last l 0.
Proof.
  intros Hs. revert i b. induction Hs as [|x l Hs IH Hx]; intros i b Hb.
  - destruct i; discriminate.
  - destruct l as [|y l].
    + destruct i as [|[|i]]; simpl in Hb; try discriminate.
      injection Hb as ->. apply Qle_refl.
    + change (last (x :: y :: l) 0) with (last (y :: l) 0).
      destruct i as [|i]; simpl in Hb.
      * injection Hb as ->.
        apply Qle_trans with y; [inversion Hx; assumption|].
        apply (IH 0%nat). reflexivity.
      * apply (IH i). assumption.
Qed.

(** Strictly between two positions of a sorted sequence from 0 to 1, the
    subdivisions return early only on [qFuzzyCompare(t, 1.0)]. *)
Lemma returnsEarly_between (l : list Q) (t : Q) (i : nat) (a b : Q) :
  endpoints l -> StronglySorted Qle l ->
  nth_error l i = Some a -> nth_error l (S i) = Some b ->
  a < t -> t < b ->
  qFuzzyCompare t 1 = false ->
  BezierMesh.returnsEarly t = false.
Proof.
  intros [Hhd Hlast] Hs Ha Hb Hat Htb Hfz.
  pose proof (sorted_hd_le l i a Hs Ha) as H0.
  pose proof (sorted_le_last l (S i) b Hs Hb) as H1.
  assert (Ht0 : 0 < t) by lra.
  assert (Ht1 : t < 1) by lra.
  unfold BezierMesh.returnsEarly.
  rewrite (qFuzzyCompare_zero t Ht0), Hfz.
  rewrite (proj2 (Qltb_lt 0 t) Ht0), (proj2 (Qltb_lt t 1) Ht1). reflexivity.
Qed.

(* ------------------------------------------------------------------ *)
(** ** The subdivision identity (claim C7) *)

Lemma makePatch_spec (m : BezierMesh.t) (col row : nat) :
  wf m ->
  (S col < BezierMesh.width m)%nat -> (S row < BezierMesh.height m)%nat ->
  exists rect,
    BezierMesh.makePatch m col row
    = Some (BezierPatch.mk rect
              (BezierMesh.patchPoints (nodeOr m col row) (nodeOr m (S col) row)
                                      (nodeOr m col (S row)) (nodeOr m (S col) (S row)))).
Proof.
  intros [(Hlen & Hc & Hr & _) _] Hcol Hrow.
  unfold BezierMesh.makePatch, BezierMesh.node.
  rewrite !Nat.add_1_r.
  rewrite !nodeOr_nth_error by (assumption || lia).
  destruct (nth_error (BezierMesh.m_columns m) col) as [c0|] eqn:E0;
    [|apply nth_error_None in E0; lia].
  destruct (nth_error (BezierMesh.m_columns m) (S col)) as [c1|] eqn:E1;
    [|apply nth_error_None in E1; lia].
  destruct (nth_error (BezierMesh.m_rows m) row) as [r0|] eqn:E2;
    [|apply nth_error_None in E2; lia].
  destruct (nth_error (BezierMesh.m_rows m) (S row)) as [r1|] eqn:E3;
    [|apply nth_error_None in E3; lia].
  eexists. reflexivity.
Qed.

(** For a [t] that [qFuzzyCompare] does not tell from
    1.0 the subdivision adds no node: [almostOne] lies strictly between the row positions 0 and 1 of
    the 2x2 mesh, [subdivideRow(almostOne)] returns early, no node is
    added, and the node at row 1 is not the point of the left boundary
    curve at the relative parameter. *)
Lemma subdivideRow_almostOne_adds_no_node :
  nth_error (BezierMesh.m_rows unitMesh) 0 = Some (0 # 1)
  /\ nth_error (BezierMesh.m_rows unitMesh) 1 = Some 1
  /\ 0 # 1 < almostOne /\ almostOne < 1
  /\ qFuzzyCompare almostOne 1 = true
  /\ BezierMesh.subdivideRow almostOne unitMesh = Some unitMesh
  /\ exists patch nl,
      BezierMesh.makePatch unitMesh 0 0 = Some patch
      /\ BezierMesh.node unitMesh 0 1 = Some nl
      /\ ~ Node.node nl
           =p= BezierPatch.leftCurve patch ((almostOne - (0 # 1)) / (1 - (0 # 1))).
Proof.
  split; [vm_compute; reflexivity|].
  split; [vm_compute; reflexivity|].
  split; [vm_compute; reflexivity|].
  split; [vm_compute; reflexivity|].
  split; [vm_compute; reflexivity|].
  split; [vm_compute; reflexivity|].
  eexists. eexists.
  split; [vm_compute; reflexivity|].
  split; [vm_compute; reflexivity|].
  intros [_ H]. vm_compute in H. discriminate.
Qed.

(** In binary64 the split point of [deCasteljau] and the value of
    [bezierCurve] come from different sequences of operations and are
    rounded differently.  On the curve (0,0), (0,0), (0,100), (0,100), the
    left edge of the 2x2 mesh over (0,0)-(100,100), at [t = 0.1], the
    relative parameter of [subdivideRow(0.1)], the vertical coordinate of
    the split point is 2.8000000000000003 and that of the curve point
    2.8000000000000007. *)
Lemma deCasteljau_binary64_off_curve :
  Binary64.sp2 (Binary64.deCasteljau (Binary64.mkPoint 0 0) (Binary64.mkPoint 0 0)
                                     (Binary64.mkPoint 0 100) (Binary64.mkPoint 0 100)
                                     0.1%float)
  = Binary64.mkPoint 0 2.8000000000000003
  /\ Binary64.bezierCurve (Binary64.mkPoint 0 0) (Binary64.mkPoint 0 0)
                          (Binary64.mkPoint 0 100) (Binary64.mkPoint 0 100) 0.1%float
     = Binary64.mkPoint 0 2.8000000000000007
  /\ PrimFloat.ltb 2.8000000000000003%float 2.8000000000000007%float = true.
Proof. repeat split; vm_compute; reflexivity. Qed.

(** C7, as stated, fails twice: for a [t] within the tolerance of
    [qFuzzyCompare] of 1.0 no node is added, and in binary64 the new node
    (the split point of [deCasteljau]) is not the computed point of the
    curve. *)
Lemma subdivision_identity_fails_in_code :
  (nth_error (BezierMesh.m_rows unitMesh) 0 = Some (0 # 1)
   /\ nth_error (BezierMesh.m_rows unitMesh) 1 = Some 1
   /\ 0 # 1 < almostOne /\ almostOne < 1
   /\ qFuzzyCompare almostOne 1 = true
   /\ BezierMesh.subdivideRow almostOne unitMesh = Some unitMesh
   /\ exists patch nl,
       BezierMesh.makePatch unitMesh 0 0 = Some patch
       /\ BezierMesh.node unitMesh 0 1 = Some nl
       /\ ~ Node.node nl
            =p= BezierPatch.leftCurve patch ((almostOne - (0 # 1)) / (1 - (0 # 1))))
  /\ (Binary64.sp2 (Binary64.deCasteljau (Binary64.mkPoint 0 0) (Binary64.mkPoint 0 0)
                                         (Binary64.mkPoint 0 100) (Binary64.mkPoint 0 100)
                                         0.1%float)
      = Binary64.mkPoint 0 2.8000000000000003
      /\ Binary64.bezierCurve (Binary64.mkPoint 0 0) (Binary64.mkPoint 0 0)
                              (Binary64.mkPoint 0 100) (Binary64.mkPoint 0 100) 0.1%float
         = Binary64.mkPoint 0 2.8000000000000007
      /\ PrimFloat.ltb 2.8000000000000003%float 2.8000000000000007%float = true).
Proof.
  split; [exact subdivideRow_almostOne_adds_no_node|exact deCasteljau_binary64_off_curve].
Qed.

(** C7 (amended): in exact arithmetic, that is with the formulas of the
    source read as polynomials, [deCasteljau(q0,q1,q2,q3,t)] bisects the
    cubic at [t]: its split point is [bezierCurve(q0,q1,q2,q3,t)] and the
    two sub-curves reproduce the original curve pointwise.  Consequently,
    again in exact arithmetic, in a well-formed mesh, for [t] strictly
    between the adjacent row positions [a] and [b] with indices [i] and
    [i + 1] and not within the tolerance of [qFuzzyCompare] of 1.0 (where
    the call returns early and adds no node), the left and right boundary
    curves of every patch of row [i] evaluated at the relative parameter
    [(t - a) / (b - a)] before the call are the positions of the new nodes
    of row [i + 1] after [subdivideRow(t)]; symmetrically for
    [subdivideColumn(t)] and the top and bottom boundary curves.  The values
    computed in binary64 agree with this up to rounding only. *)
Theorem subdivision_identity :
  (forall (q0 q1 q2 q3 : QPointF) (t : Q),
      let r := deCasteljau q0 q1 q2 q3 t in
      sp2 r =p= bezierCurve q0 q1 q2 q3 t
      /\ (forall s, bezierCurve q0 (sp0 r) (sp1 r) (sp2 r) s
                    =p= bezierCurve q0 q1 q2 q3 (t * s))
      /\ (forall s, bezierCurve (sp2 r) (sp3 r) (sp4 r) q3 s
                    =p= bezierCurve q0 q1 q2 q3 (t + (1 - t) * s)))
  /\ (forall (m : BezierMesh.t) (t : Q) (i : nat) (a b : Q),
         wf m -> qFuzzyCompare t 1 = false -> a < t -> t < b ->
         nth_error (BezierMesh.m_rows m) i = Some a ->
         nth_error (BezierMesh.m_rows m) (S i) = Some b ->
         exists m',
           BezierMesh.subdivideRow t m = Some m'
           /\ BezierMesh.m_size m' = (BezierMesh.width m, S (BezierMesh.height m))
           /\ forall col, (S col < BezierMesh.width m)%nat ->
                exists patch nl nr,
                  BezierMesh.makePatch m col i = Some patch
                  /\ BezierMesh.node m' col (S i) = Some nl
                  /\ Node.node nl =p= BezierPatch.leftCurve patch ((t - a) / (b - a))
                  /\ BezierMesh.node m' (S col) (S i) = Some nr
                  /\ Node.node nr =p= BezierPatch.rightCurve patch ((t - a) / (b - a)))
  /\ (forall (m : BezierMesh.t) (t : Q) (i : nat) (a b : Q),
         wf m -> qFuzzyCompare t 1 = false -> a < t -> t < b ->
         nth_error (BezierMesh.m_columns m) i = Some a ->
         nth_error (BezierMesh.m_columns m) (S i) = Some b ->
         exists m',
           BezierMesh.subdivideColumn t m = Some m'
           /\ BezierMesh.m_size m' = (S (BezierMesh.width m), BezierMesh.height m)
           /\ forall row, (S row < BezierMesh.height m)%nat ->
                exists patch nt nb,
                  BezierMesh.makePatch m i row = Some patch
                  /\ BezierMesh.node m' (S i) row = Some nt
                  /\ Node.node nt =p= BezierPatch.topCurve patch ((t - a) / (b - a))
                  /\ BezierMesh.node m' (S i) (S row) = Some nb
                  /\ Node.node nb =p= BezierPatch.bottomCurve patch ((t - a) / (b - a))).
Proof.
  split; [|split].
  - intros q0 q1 q2 q3 t r. split; [apply deCasteljau_split_point|].
    split; intros s; [apply deCasteljau_left_curve|apply deCasteljau_right_curve].
  - intros m t i a b Hwf Hfz Hat Htb Ha Hb.
    pose proof Hwf as [(Hlen & _ & _ & _ & Her) [_ Hsr]].
    pose proof (returnsEarly_between _ t i a b Her Hsr Ha Hb Hat Htb Hfz) as Hgo.
    destruct (row_bracket m Hwf t i a b Ha Hb Hat Htb) as [Hub Hi].
    destruct (subdivideRow_spec m t Hlen Hgo i a b Hub Hi Ha Hb)
      as (m' & Hm' & Hsize & _ & _ & _ & _ & Hnode).
    exists m'. split; [assumption|]. split; [assumption|].
    intros col Hcol.
    destruct (makePatch_spec m col i Hwf Hcol Hi) as [rect Hpatch].
    eexists. eexists. eexists. split; [exact Hpatch|].
    assert (Hnew : forall c, rowSubdivided m i ((t - a) / (b - a)) c (S i)
                             = snd (rowSplit m i ((t - a) / (b - a)) c)).
    { intros c. unfold rowSubdivided.
      rewrite (proj2 (Nat.leb_gt (S i) i)) by lia.
      rewrite Nat.eqb_refl. reflexivity. }
    split; [rewrite Hnode by lia; rewrite Hnew; reflexivity|].
    split; [apply deCasteljau_split_point|].
    split; [rewrite Hnode by lia; rewrite Hnew; reflexivity|].
    apply deCasteljau_split_point.
  - intros m t i a b Hwf Hfz Hat Htb Ha Hb.
    pose proof Hwf as [(Hlen & _ & _ & Hec & _) [Hsc _]].
    pose proof (returnsEarly_between _ t i a b Hec Hsc Ha Hb Hat Htb Hfz) as Hgo.
    destruct (column_bracket m Hwf t i a b Ha Hb Hat Htb) as [Hub Hi].
    destruct (subdivideColumn_spec m t Hlen Hgo i a b Hub Hi Ha Hb)
      as (m' & Hm' & Hsize & _ & _ & _ & _ & Hnode).
    exists m'. split; [assumption|]. split; [assumption|].
    intros row Hrow.
    destruct (makePatch_spec m i row Hwf Hi Hrow) as [rect Hpatch].
    eexists. eexists. eexists. split; [exact Hpatch|].
    assert (Hnew : forall r, columnSubdivided m i ((t - a) / (b - a)) (S i) r
                             = snd (columnSplit m i ((t - a) / (b - a)) r)).
    { intros r. unfold columnSubdivided.
      rewrite (proj2 (Nat.leb_gt (S i) i)) by lia.
      rewrite Nat.eqb_refl. reflexivity. }
    split; [rewrite Hnode by lia; rewrite Hnew; reflexivity|].
    split; [apply deCasteljau_split_point|].
    split; [rewrite Hnode by lia; rewrite Hnew; reflexivity|].
    apply deCasteljau_split_point.
Qed.

Lemma subdivision_identity_witness :
  exists m',
    BezierMesh.subdivideRow (1 # 4) meshHalf = Some m'
    /\ BezierMesh.m_size m' = (BezierMesh.width meshHalf, S (BezierMesh.height meshHalf))
    /\ forall col, (S col < BezierMesh.width meshHalf)%nat ->
         exists patch nl nr,
           BezierMesh.makePatch meshHalf col 0 = Some patch
           /\ BezierMesh.node m' col 1 = Some nl
           /\ Node.node nl
              =p= BezierPatch.leftCurve patch (((1 # 4) - (0 # 1)) / ((1 # 2) - (0 # 1)))
           /\ BezierMesh.node m' (S col) 1 = Some nr
           /\ Node.node nr
              =p= BezierPatch.rightCurve patch (((1 # 4) - (0 # 1)) / ((1 # 2) - (0 # 1))).
Proof.
  assert (Hwf : wf meshHalf).
  { apply reachable_wf.
    apply (reachable_row unitMesh meshHalf (1 # 2));
      [|vm_compute; reflexivity].
    apply reachable_make; lia. }
  apply (proj1 (proj2 subdivision_identity) meshHalf (1 # 4) 0%nat (0 # 1) (1 # 2) Hwf);
    vm_compute; reflexivity.
Defined.

(* ------------------------------------------------------------------ *)
(** ** Linearization of flat and degenerate curves *)

Lemma Qeq_bool_true (x y : Q) : x == y -> Qeq_bool x y = true.
Proof. intros H. apply Qeq_bool_iff. assumption. Qed.



Section Linearize.

Variable qSqrt : Q -> Q.



End Linearize.

(* ------------------------------------------------------------------ *)
(** ** Sampling a freshly constructed mesh (claim C2) *)



Lemma nodeOr_make (mapRect : QRectF) (w h col row : nat) :
  (col < w)%nat -> (row < h)%nat ->
  nodeOr (BezierMesh.make mapRect (w, h)) col row
  = Node.ofPoint
      (mkPoint (BezierMesh.proportion col w * rectW mapRect + rectX mapRect)
               (BezierMesh.proportion row h * rectH mapRect + rectY mapRect)).
Proof.
  intros Hc Hr. pose proof (make_node mapRect w h col row Hc Hr) as H.
  unfold BezierMesh.node in H. unfold nodeOr.
  erewrite nth_error_nth; [reflexivity|exact H].
Qed.

Lemma sampleAt_nth (patch : BezierPatch.t) (xs ys : list Q) (ix iy : nat) (x y : Q) :
  nth_error xs ix = Some x -> nth_error ys iy = Some y ->
  nth_error (BezierPatch.transfPoints (BezierPatch.sampleAt patch xs ys))
            (iy * length xs + ix)
  = Some (BezierPatch.transfAt patch x y).
Proof.
  intros Hx Hy. unfold BezierPatch.sampleAt. cbn [BezierPatch.transfPoints].
  apply (nth_error_grid (fun y x => BezierPatch.transfAt patch x y)); assumption.
Qed.

Lemma makePatch_nodes (m : BezierMesh.t) (col row : nat) (tl tr bl br : Node.t)
      (c0 c1 r0 r1 : Q) :
  BezierMesh.node m col row = Some tl ->
  BezierMesh.node m (S col) row = Some tr ->
  BezierMesh.node m col (S row) = Some bl ->
  BezierMesh.node m (S col) (S row) = Some br ->
  nth_error (BezierMesh.m_columns m) col = Some c0 ->
  nth_error (BezierMesh.m_columns m) (S col) = Some c1 ->
  nth_error (BezierMesh.m_rows m) row = Some r0 ->
  nth_error (BezierMesh.m_rows m) (S row) = Some r1 ->
  BezierMesh.makePatch m col row
  = Some (BezierPatch.mk
            (relativeToAbsoluteRect (mkRect c0 r0 (c1 - c0) (r1 - r0))
                                    (BezierMesh.m_originalRect m))
            (BezierMesh.patchPoints tl tr bl br)).
Proof.
  intros H1 H2 H3 H4 H5 H6 H7 H8. unfold BezierMesh.makePatch.
  rewrite !Nat.add_1_r, H1, H2, H3, H4, H5, H6, H7, H8. reflexivity.
Qed.

Lemma nth_error_map_seq (f : nat -> Q) (n i : nat) :
  (i < n)%nat -> nth_error (map f (seq 0 n)) i = Some (f i).
Proof.
  intros Hi. apply map_nth_error.
  rewrite (nth_error_nth' _ 0%nat) by (rewrite length_seq; assumption).
  rewrite seq_nth by assumption. reflexivity.
Qed.









Lemma length_regularProportions (n : nat) : length (BezierPatch.regularProportions n) = n.
Proof. unfold BezierPatch.regularProportions. rewrite length_map, length_seq. reflexivity. Qed.



(* ------------------------------------------------------------------ *)
(** ** The concrete square root *)

Lemma isqrt_nonneg (x : Q) : 0 <= isqrt x.
Proof.
  unfold isqrt. apply Qle_shift_div_l.
  - unfold Qlt. simpl. lia.
  - rewrite Qmult_0_l. unfold Qle. simpl.
    pose proof (Z.sqrt_nonneg (Qnum x * QDen x)). lia.
Qed.

Lemma isqrt_zero (x : Q) : x == 0 -> isqrt x == 0.
Proof.
  intros H. unfold isqrt.
  assert (Hn : Qnum x = 0%Z).
  { unfold Qeq in H. simpl in H. lia. }
  rewrite Hn. simpl. unfold Qdiv. ring.
Qed.

(* ------------------------------------------------------------------ *)
(** ** [isLinearSegment] and the side of the deviation (claim C3) *)

(** An offset computed from a non-positive cross product never exceeds
    the threshold. *)
Lemma offset_nonpositive_cross (dist c : Q) :
  0 <= dist -> c <= 0 -> xgt (xmul (xdiv (1 / 3) dist) c) 1 = false.
Proof.
  intros Hd Hc. unfold xdiv.
  destruct (Qeq_bool dist 0) eqn:E.
  - change ((1 / 3) ?= 0) with Gt. cbn [xmul].
    destruct (c ?= 0) eqn:Ec; try reflexivity.
    apply Qgt_alt in Ec. exfalso. apply (Qlt_not_le _ _ Ec Hc).
  - cbn [xmul xgt]. apply Qltb_ge.
    assert (Hpos : 0 < dist).
    { apply Qle_lt_or_eq in Hd. destruct Hd as [Hd|Hd]; [assumption|].
      symmetry in Hd. apply Qeq_bool_iff in Hd. congruence. }
    assert (Hk : 0 <= 1 / 3 / dist).
    { apply Qle_shift_div_l; [assumption|]. rewrite Qmult_0_l. discriminate. }
    assert (Hprod : 1 / 3 / dist * c <= 0).
    { set (k := 1 / 3 / dist) in *. clearbody k. nra. }
    apply Qle_trans with 0; [assumption|discriminate].
Qed.

(** C3 (the code at the failing inputs): [isLinearSegment] answers [true]
    whenever both cross products of the chord with the tangents are
    non-positive, whatever their magnitude: a deviation on the negative
    side of the chord is never rejected. *)
Theorem isLinearSegment_ignores_negative_side
        (qSqrt : Q -> Q) (p0 d0 p1 d1 : QPointF) :
  (forall x, 0 <= qSqrt x) ->
  crossProduct (p1 - p0) d0 <= 0 ->
  crossProduct (p1 - p0) d1 <= 0 ->
  BezierPatch.isLinearSegment qSqrt p0 d0 p1 d1 = true.
Proof.
  intros Hs H0 H1. unfold BezierPatch.isLinearSegment, BezierPatch.norm.
  rewrite (offset_nonpositive_cross _ _ (Hs _) H0).
  rewrite (offset_nonpositive_cross _ _ (Hs _) H1).
  reflexivity.
Qed.

(** The chord from (0,0) to (3,0) with the tangent (0,-300) at its start:
    the offset is -100, a deviation of 100 on the negative side, and the
    segment is taken as linear, while the mirrored tangent (0,300) is
    rejected. *)
Lemma isLinearSegment_ignores_negative_side_witness :
  BezierPatch.isLinearSegment isqrt (mkPoint 0 0) (mkPoint 0 (-300))
                              (mkPoint 3 0) (mkPoint 0 0) = true
  /\ BezierPatch.isLinearSegment isqrt (mkPoint 0 0) (mkPoint 0 300)
                                 (mkPoint 3 0) (mkPoint 0 0) = false
  /\ xmul (xdiv (1 / 3) (BezierPatch.norm isqrt (mkPoint 3 0 - mkPoint 0 0)))
          (crossProduct (mkPoint 3 0 - mkPoint 0 0) (mkPoint 0 (-300)))
     = XFin (-900 # 9).
Proof.
  split; [|split; vm_compute; reflexivity].
  apply (isLinearSegment_ignores_negative_side isqrt).
  - exact isqrt_nonneg.
  - vm_compute. discriminate.
  - vm_compute. discriminate.
Defined.

(* ------------------------------------------------------------------ *)
(** ** [linearizeCurve] on a degenerate curve (claim C4) *)

(** C4, as stated, fails: for [p0 == p3] the chord length is 0 and the
    minimum step size is computed by dividing by it; the quotient is
    [+inf], not a finite step chosen by a guard. *)
Lemma linearizeCurve_divides_by_zero :
  BezierPatch.kisDistance isqrt (mkPoint 5 7) (mkPoint 5 7) == 0
  /\ BezierPatch.minStepSize isqrt (mkPoint 5 7) (mkPoint 5 7) = xdiv 2 (0 # 1)
  /\ xfinite (BezierPatch.minStepSize isqrt (mkPoint 5 7) (mkPoint 5 7)) = false.
Proof. split; [|split]; vm_compute; reflexivity. Qed.

(** C4 (amended): on a degenerate curve with [p0 == p3],
    [linearizeCurve] divides by the zero chord length without a guard;
    the quotient [2.0 / 0.0] is [+inf], so that the first test
    [t - lastT < minStepSize] succeeds and the call emits just the two end
    point parameters 0 and 1. *)
Theorem linearizeCurve_degenerate (qSqrt : Q -> Q) (fuel : nat) (p0 p1 p2 p3 : QPointF) :
  (forall x, x == 0 -> qSqrt x == 0) ->
  p0 =p= p3 ->
  BezierPatch.kisDistance qSqrt p0 p3 == 0
  /\ BezierPatch.minStepSize qSqrt p0 p3 = XPosInf
  /\ BezierPatch.linearizeCurve qSqrt (S fuel) p0 p1 p2 p3 = Some [0; 1].
Proof.
  intros Hs [Hx Hy].
  assert (Hd : BezierPatch.kisDistance qSqrt p0 p3 == 0).
  { unfold BezierPatch.kisDistance. apply Hs. unfold pow2. rewrite Hx, Hy. ring. }
  assert (Hm : BezierPatch.minStepSize qSqrt p0 p3 = XPosInf).
  { unfold BezierPatch.minStepSize, xdiv. rewrite (Qeq_bool_true _ _ Hd). reflexivity. }
  split; [assumption|]. split; [assumption|].
  unfold BezierPatch.linearizeCurve. rewrite Hm.
  cbn [BezierPatch.linearizeLoop xlt orb]. destruct fuel; reflexivity.
Qed.

Lemma linearizeCurve_degenerate_witness :
  BezierPatch.kisDistance isqrt (mkPoint 5 7) (mkPoint 5 7) == 0
  /\ BezierPatch.minStepSize isqrt (mkPoint 5 7) (mkPoint 5 7) = XPosInf
  /\ BezierPatch.linearizeCurve isqrt 1 (mkPoint 5 7) (mkPoint 8 9) (mkPoint 1 2)
                                (mkPoint 5 7)
     = Some [0; 1].
Proof.
  apply (linearizeCurve_degenerate isqrt 0 (mkPoint 5 7) (mkPoint 8 9) (mkPoint 1 2)
                                   (mkPoint 5 7)).
  - exact isqrt_zero.
  - split; reflexivity.
Defined.

(* ------------------------------------------------------------------ *)
(** ** The forward map of the solver (claim C6) *)

(** C6: for every patch and every [(u, v)], [meshForwardMapping(u, v, p)]
    with [p, q] taken from the top and bottom boundary curves and [r, s]
    from the left and right ones equals [transf = Sc + Sd - Sb], the
    Coons-patch evaluation of the two samplers, at [xProportion = u] and
    [yProportion = v]. *)
Theorem meshForwardMapping_is_coons_patch
        (patch : BezierPatch.t) (dst : QPointF) (u v : Q) :
  Solver.meshForwardMapping u v (Solver.paramsOf patch dst)
  =p= BezierPatch.transfAt patch u v.
Proof. apply meshForwardMapping_transfAt. Qed.

(* ------------------------------------------------------------------ *)
(** ** Boundary matching of the Coons patch (claim C8) *)

#[global] Instance transfAt_Proper (patch : BezierPatch.t) :
  Proper (Qeq ==> Qeq ==> peq) (BezierPatch.transfAt patch).
Proof.
  intros x x' Hx y y' Hy. unfold BezierPatch.transfAt.
  rewrite Hx, Hy. reflexivity.
Qed.

(** C8, as stated, fails in binary64, where the sum [Sc + Sd - Sb] is
    rounded: on [Binary64.wavyPatch] the sampler takes the steps 0, 1/4,
    1/2, 3/4 and 1 in both directions, and its point for the steps
    (1, 1/4), on the right boundary, has the horizontal coordinate
    98.14375000000001 where the right boundary curve at 1/4 has 98.14375. *)
Lemma sampleIrregularGrid_binary64_off_boundary :
  exists transfPoints tp,
    Binary64.sampleIrregularGrid 7 Binary64.wavyPatch
    = Some ([0; 0.25; 0.5; 0.75; 1]%float, [0; 0.25; 0.5; 0.75; 1]%float, transfPoints)
    /\ nth_error transfPoints (1 * 5 + 4) = Some tp
    /\ tp = Binary64.mkPoint 98.14375000000001 24.0625
    /\ Binary64.rightCurve Binary64.wavyPatch 0.25%float = Binary64.mkPoint 98.14375 24.0625
    /\ PrimFloat.ltb 98.14375%float 98.14375000000001%float = true.
Proof.
  eexists. eexists.
  split; [vm_compute; reflexivity|].
  split; [vm_compute; reflexivity|].
  split; [reflexivity|].
  split; vm_compute; reflexivity.
Qed.

(** C8 (amended): in exact arithmetic, that is with [Sc + Sd - Sb] read as
    a polynomial, whenever the linearization of the four boundary curves
    yields the step sequences [hs] and [vs], [sampleIrregularGrid] returns
    the grid of size [|hs| x |vs|], and its destination point for the steps
    [(x, y)] is the point of the left boundary curve at [y] when [x] is 0,
    of the right one when [x] is 1, of the top boundary curve at [x] when
    [y] is 0 and of the bottom one when [y] is 1.  The values computed in
    binary64 agree with this up to rounding only. *)
Theorem sampleIrregularGrid_boundary
        (qSqrt : Q -> Q) (fuel : nat) (patch : BezierPatch.t) (hs vs : list Q) :
  BezierPatch.horizontalSteps qSqrt fuel patch = Some hs ->
  BezierPatch.verticalSteps qSqrt fuel patch = Some vs ->
  exists g,
    BezierPatch.sampleIrregularGrid qSqrt fuel patch = Some g
    /\ BezierPatch.gridSize g = (length hs, length vs)
    /\ forall ix iy x y,
        nth_error hs ix = Some x -> nth_error vs iy = Some y ->
        exists tp,
          nth_error (BezierPatch.transfPoints g) (iy * length hs + ix) = Some tp
          /\ (x == 0 -> tp =p= BezierPatch.leftCurve patch y)
          /\ (x == 1 -> tp =p= BezierPatch.rightCurve patch y)
          /\ (y == 0 -> tp =p= BezierPatch.topCurve patch x)
          /\ (y == 1 -> tp =p= BezierPatch.bottomCurve patch x).
Proof.
  intros Hh Hv. unfold BezierPatch.sampleIrregularGrid. rewrite Hh, Hv.
  eexists. split; [reflexivity|]. split; [reflexivity|].
  intros ix iy x y Hx Hy.
  exists (BezierPatch.transfAt patch x y).
  split; [apply sampleAt_nth; assumption|].
  split; [|split; [|split]]; intros E; rewrite E.
  - apply transfAt_left.
  - apply transfAt_right.
  - apply transfAt_top.
  - apply transfAt_bottom.
Qed.

Lemma sampleIrregularGrid_boundary_witness :
  exists g,
    BezierPatch.sampleIrregularGrid isqrt 50 smallPatch = Some g
    /\ BezierPatch.gridSize g = (3%nat, 2%nat)
    /\ forall ix iy x y,
        nth_error [0; 1 # 2; 1] ix = Some x -> nth_error [0; 1] iy = Some y ->
        exists tp,
          nth_error (BezierPatch.transfPoints g) (iy * 3 + ix) = Some tp
          /\ (x == 0 -> tp =p= BezierPatch.leftCurve smallPatch y)
          /\ (x == 1 -> tp =p= BezierPatch.rightCurve smallPatch y)
          /\ (y == 0 -> tp =p= BezierPatch.topCurve smallPatch x)
          /\ (y == 1 -> tp =p= BezierPatch.bottomCurve smallPatch x).
Proof.
  apply (sampleIrregularGrid_boundary isqrt 50 smallPatch [0; 1 # 2; 1] [0; 1]);
    vm_compute; reflexivity.
Defined.

(* ------------------------------------------------------------------ *)
(** ** What [calculateLocalPos] returns on an error (claim C5) *)

Lemma maxIter_succ : Solver.maxIter = S (Nat.pred Solver.maxIter).
Proof. vm_compute. reflexivity. Qed.

(** The loop runs at least once and at most [maxIter] = 10000 times. *)
Lemma iterateLoop_iter_bound (M : Solver.Minimizer) (budget : nat) (s : Solver.state M)
      (iter : nat) (result : QPointF) :
  (iter < Solver.maxIter)%nat ->
  (iter <= Solver.iter (Solver.iterateLoop M budget s iter result) <= Solver.maxIter)%nat.
Proof.
  revert s iter result. induction budget as [|budget IH]; intros s iter result Hlt.
  - simpl. lia.
  - cbn [Solver.iterateLoop].
    destruct (Solver.fdfminimizer_iterate M s) as [status s'].
    destruct (negb (status =? 0)%Z); [simpl; lia|].
    destruct ((Solver.test_gradient M (Solver.gradient M s') (1 # 10000)
               =? Solver.GSL_CONTINUE)%Z); cbn [andb]; [|simpl; lia].
    destruct (Nat.ltb_spec (S iter) Solver.maxIter) as [Hlt'|Hge]; [|simpl; lia].
    specialize (IH s' (S iter) (mkPoint (px (Solver.x M s')) (py (Solver.x M s'))) Hlt').
    lia.
Qed.

Lemma solve_iter_bound (M : Solver.Minimizer) (patch : BezierPatch.t) (dst : QPointF) :
  (Solver.iter (Solver.solve M patch dst) <= Solver.maxIter)%nat.
Proof.
  unfold Solver.solve. apply iterateLoop_iter_bound.
  rewrite maxIter_succ. lia.
Qed.

(** C5 (the code at the failing input): when the first call of the
    minimizer's iteration reports an error, the loop is left before
    [result] is assigned, and [calculateLocalPos] returns the point built
    by the two assignments to [result.rx()] before the loop, namely
    [(s->x[1], 0)] = (0.5, 0), after one iteration. *)
Theorem calculateLocalPos_error_at_first_iteration
        (M : Solver.Minimizer) (patch : BezierPatch.t) (dst : QPointF) :
  let p := Solver.paramsOf patch dst in
  let s := Solver.fdfminimizer_set M (fun v => Solver.my_f v p) (fun v => Solver.my_df v p)
                                   Solver.startingPoint (1 # 100) (1 # 10) in
  Solver.x M s = Solver.startingPoint ->
  fst (Solver.fdfminimizer_iterate M s) <> 0%Z ->
  Solver.calculateLocalPos M patch dst = mkPoint (1 # 2) 0
  /\ Solver.iter (Solver.solve M patch dst) = 1%nat
  /\ Solver.final (Solver.solve M patch dst) = snd (Solver.fdfminimizer_iterate M s).
Proof.
  intros p s Hx Herr.
  unfold Solver.calculateLocalPos, Solver.solve. fold p. fold s.
  rewrite maxIter_succ. cbn [Solver.iterateLoop].
  destruct (Solver.fdfminimizer_iterate M s) as [status s'] eqn:E.
  cbn [fst snd] in *.
  destruct (Z.eqb_spec status 0) as [->|Hne]; [congruence|].
  cbn [negb Solver.result Solver.iter Solver.final].
  rewrite Hx. repeat split; reflexivity.
Qed.

(** The flat patch on (0,0)-(1000,1000) and its centre as the target: the
    gradient vanishes at the starting point, the first iteration reports
    [GSL_ENOPROG], the minimizer stays at (0.5, 0.5), and the call returns
    (0.5, 0). *)
Lemma calculateLocalPos_error_at_first_iteration_witness :
  (Solver.calculateLocalPos stallingMinimizer flatPatch (mkPoint 500 500)
   = mkPoint (1 # 2) 0
   /\ Solver.iter (Solver.solve stallingMinimizer flatPatch (mkPoint 500 500)) = 1%nat
   /\ Solver.final (Solver.solve stallingMinimizer flatPatch (mkPoint 500 500))
      = snd (Solver.fdfminimizer_iterate stallingMinimizer
               (Solver.fdfminimizer_set stallingMinimizer
                  (fun v => Solver.my_f v (Solver.paramsOf flatPatch (mkPoint 500 500)))
                  (fun v => Solver.my_df v (Solver.paramsOf flatPatch (mkPoint 500 500)))
                  Solver.startingPoint (1 # 100) (1 # 10))))
  /\ Solver.status (Solver.solve stallingMinimizer flatPatch (mkPoint 500 500))
     = Solver.GSL_ENOPROG
  /\ Solver.x stallingMinimizer
              (Solver.final (Solver.solve stallingMinimizer flatPatch (mkPoint 500 500)))
     = mkPoint (1 # 2) (1 # 2).
Proof.
  split; [|split; vm_compute; reflexivity].
  apply (calculateLocalPos_error_at_first_iteration stallingMinimizer flatPatch
                                                    (mkPoint 500 500)).
  - reflexivity.
  - vm_compute. discriminate.
Defined.

(* ================================================================== *)
(** * Further properties of the code *)

(* ------------------------------------------------------------------ *)
(** ** Derivatives *)

(** X1: [bezierCurveDeriv] and [bezierCurveDeriv2] are the first and second
    derivative of [bezierCurve]: the Taylor expansion of the cubic around
    [t] is exact with them, the third-order coefficient being
    [p3 - 3 p2 + 3 p1 - p0]; at the end points the first derivative is
    [3 (p1 - p0)] and [3 (p3 - p2)], the tangents [linearizeCurve] starts
    from. *)
Theorem bezierCurve_taylor (p0 p1 p2 p3 : QPointF) (t h : Q) :
  bezierCurve p0 p1 p2 p3 (t + h)
  =p= (bezierCurve p0 p1 p2 p3 t
       + h * bezierCurveDeriv p0 p1 p2 p3 t
       + (h * h * (1 # 2)) * bezierCurveDeriv2 p0 p1 p2 p3 t
       + (h * h * h) * (p3 - 3 * p2 + 3 * p1 - p0))%P
  /\ bezierCurveDeriv p0 p1 p2 p3 (t + h)
     =p= (bezierCurveDeriv p0 p1 p2 p3 t
          + h * bezierCurveDeriv2 p0 p1 p2 p3 t
          + (3 * (h * h)) * (p3 - 3 * p2 + 3 * p1 - p0))%P
  /\ bezierCurveDeriv p0 p1 p2 p3 0 =p= (3 * (p1 - p0))%P
  /\ bezierCurveDeriv p0 p1 p2 p3 1 =p= (3 * (p3 - p2))%P.
Proof.
  unfold bezierCurve, bezierCurveDeriv, bezierCurveDeriv2, pow2.
  split; [|split; [|split]]; pring.
Qed.

Lemma forward_expansion_u (p : Solver.Params2D) (u v h : Q) :
  Solver.meshForwardMapping (u + h) v p
  =p= (Solver.meshForwardMapping u v p
       + h * Solver.meshForwardMappingDiffU u v p
       + (h * h) * secondOrder (Solver.meshForwardMappingDiffU (u - 1) v p)
                               (Solver.meshForwardMappingDiffU u v p)
                               (Solver.meshForwardMappingDiffU (u + 1) v p) h)%P.
Proof.
  destruct p.
  unfold secondOrder, Solver.meshForwardMapping, Solver.meshForwardMappingDiffU, pow2, pow3.
  pring.
Qed.

Lemma forward_expansion_v (p : Solver.Params2D) (u v h : Q) :
  Solver.meshForwardMapping u (v + h) p
  =p= (Solver.meshForwardMapping u v p
       + h * Solver.meshForwardMappingDiffV u v p
       + (h * h) * secondOrder (Solver.meshForwardMappingDiffV u (v - 1) p)
                               (Solver.meshForwardMappingDiffV u v p)
                               (Solver.meshForwardMappingDiffV u (v + 1) p) h)%P.
Proof.
  destruct p.
  unfold secondOrder, Solver.meshForwardMapping, Solver.meshForwardMappingDiffV, pow2, pow3.
  pring.
Qed.

(** X2: [meshForwardMappingDiffU] and [meshForwardMappingDiffV] are the
    partial derivatives of [meshForwardMapping], for arbitrary parameters:
    in the expansion of the map in a step [h] along [u] (along [v]) the
    linear coefficient is the value of [DiffU] ([DiffV]), and the rest is
    [h^2] times a polynomial, built from the central differences of that
    same function. *)
Theorem meshForwardMapping_partial_derivatives (p : Solver.Params2D) (u v h : Q) :
  Solver.meshForwardMapping (u + h) v p
  =p= (Solver.meshForwardMapping u v p
       + h * Solver.meshForwardMappingDiffU u v p
       + (h * h) * secondOrder (Solver.meshForwardMappingDiffU (u - 1) v p)
                               (Solver.meshForwardMappingDiffU u v p)
                               (Solver.meshForwardMappingDiffU (u + 1) v p) h)%P
  /\ Solver.meshForwardMapping u (v + h) p
     =p= (Solver.meshForwardMapping u v p
          + h * Solver.meshForwardMappingDiffV u v p
          + (h * h) * secondOrder (Solver.meshForwardMappingDiffV u (v - 1) p)
                                  (Solver.meshForwardMappingDiffV u v p)
                                  (Solver.meshForwardMappingDiffV u (v + 1) p) h)%P.
Proof. split; [apply forward_expansion_u|apply forward_expansion_v]. Qed.

(* ------------------------------------------------------------------ *)
(** ** The objective of the solver *)

#[global] Instance kisSquareDistance_Proper :
  Proper (peq ==> peq ==> Qeq) Solver.kisSquareDistance.
Proof.
  intros a a' [Ha1 Ha2] b b' [Hb1 Hb2]. unfold Solver.kisSquareDistance, pow2.
  rewrite Ha1, Ha2, Hb1, Hb2. reflexivity.
Qed.

(** The squared distance along a path [S + h dS + h^2 R]. *)
Lemma kisSquareDistance_expansion (S dS R dst : QPointF) (h : Q) :
  Solver.kisSquareDistance (S + h * dS + (h * h) * R)%P dst
  == Solver.kisSquareDistance S dst
     + h * (2 * (px S - px dst) * px dS + 2 * (py S - py dst) * py dS)
     + h * h * (pow2 (px dS + h * px R) + pow2 (py dS + h * py R)
                + 2 * ((px S - px dst) * px R + (py S - py dst) * py R)).
Proof.
  unfold Solver.kisSquareDistance, pow2. cbv [padd psub popp pscale px py]. ring.
Qed.

Lemma Qsquare_sum_zero (a b : Q) : a * a + b * b == 0 -> a == 0 /\ b == 0.
Proof. intros H. split; nra. Qed.

Lemma Qsquare_sum_nonneg (a b : Q) : 0 <= a * a + b * b.
Proof. nra. Qed.

(** X3: [my_f] is non-negative and vanishes exactly where the forward map
    hits the target, and there the gradient [my_df] vanishes; [my_df] is
    the gradient of [my_f]: along [u] (along [v]) the value of [my_f]
    after a step [h] is [my_f] plus [h] times the first (second) component
    of [my_df] plus [h^2] times a polynomial; [my_fdf] computes the same
    value and gradient as [my_f] and [my_df]. *)
Theorem my_df_is_gradient_of_my_f (p : Solver.Params2D) (u v h : Q) :
  let x := mkPoint u v in
  let S := Solver.meshForwardMapping u v p in
  let dU := Solver.meshForwardMappingDiffU u v p in
  let dV := Solver.meshForwardMappingDiffV u v p in
  let RU := secondOrder (Solver.meshForwardMappingDiffU (u - 1) v p) dU
                        (Solver.meshForwardMappingDiffU (u + 1) v p) h in
  let RV := secondOrder (Solver.meshForwardMappingDiffV u (v - 1) p) dV
                        (Solver.meshForwardMappingDiffV u (v + 1) p) h in
  let dst := Solver.dstPoint p in
  0 <= Solver.my_f x p
  /\ (Solver.my_f x p == 0 <-> S =p= dst)
  /\ (Solver.my_f x p == 0 -> Solver.my_df x p =p= mkPoint 0 0)
  /\ Solver.my_f (mkPoint (u + h) v) p
     == Solver.my_f x p + h * px (Solver.my_df x p)
        + h * h * (pow2 (px dU + h * px RU) + pow2 (py dU + h * py RU)
                   + 2 * ((px S - px dst) * px RU + (py S - py dst) * py RU))
  /\ Solver.my_f (mkPoint u (v + h)) p
     == Solver.my_f x p + h * py (Solver.my_df x p)
        + h * h * (pow2 (px dV + h * px RV) + pow2 (py dV + h * py RV)
                   + 2 * ((px S - px dst) * px RV + (py S - py dst) * py RV))
  /\ my_fdf x p = (Solver.my_f x p, Solver.my_df x p).
Proof.
  intros x S dU dV RU RV dst.
  assert (Hzero : Solver.my_f x p == 0 -> S =p= dst).
  { unfold Solver.my_f, Solver.kisSquareDistance, pow2. cbn [px py x]. fold S. fold dst.
    intros H. apply Qsquare_sum_zero in H. destruct H as [Hx Hy].
    split; lra. }
  split; [|split; [|split; [|split; [|split]]]].
  - unfold Solver.my_f, Solver.kisSquareDistance, pow2. apply Qsquare_sum_nonneg.
  - split; [exact Hzero|].
    intros [Hx Hy]. unfold Solver.my_f, Solver.kisSquareDistance, pow2.
    cbn [px py x]. fold S. fold dst. rewrite Hx, Hy. ring.
  - intros H. destruct (Hzero H) as [Hx Hy].
    unfold Solver.my_df. cbn [px py x]. fold S. fold dst.
    split; cbn [px py]; rewrite Hx, Hy; ring.
  - unfold Solver.my_f. cbn [px py x].
    rewrite (forward_expansion_u p u v h). fold S. fold dU. fold RU. fold dst.
    rewrite kisSquareDistance_expansion.
    unfold Solver.my_df. cbn [px py x]. fold S. fold dU. fold dst. ring.
  - unfold Solver.my_f. cbn [px py x].
    rewrite (forward_expansion_v p u v h). fold S. fold dV. fold RV. fold dst.
    rewrite kisSquareDistance_expansion.
    unfold Solver.my_df. cbn [px py x]. fold S. fold dV. fold dst. ring.
  - reflexivity.
Qed.

(* ------------------------------------------------------------------ *)
(** ** The loop of [calculateLocalPos] *)

Lemma point_eta (a : QPointF) : mkPoint (px a) (py a) = a.
Proof. destruct a. reflexivity. Qed.

(** Once [result] holds the current point of the minimizer, it does so
    when the loop is left, provided a failing iteration does not move the
    point. *)
Lemma iterateLoop_result (M : Solver.Minimizer) :
  (forall s, fst (Solver.fdfminimizer_iterate M s) <> 0%Z ->
             Solver.x M (snd (Solver.fdfminimizer_iterate M s)) = Solver.x M s) ->
  forall (budget : nat) (s : Solver.state M) (iter : nat) (result : QPointF),
    result = Solver.x M s ->
    Solver.result (Solver.iterateLoop M budget s iter result)
    = Solver.x M (Solver.final (Solver.iterateLoop M budget s iter result)).
Proof.
  intros Hkeep. induction budget as [|budget IH]; intros s iter result Hres.
  - exact Hres.
  - cbn [Solver.iterateLoop].
    pose proof (Hkeep s) as Hk.
    destruct (Solver.fdfminimizer_iterate M s) as [status s']. cbn [fst snd] in Hk.
    destruct (Z.eqb_spec status 0) as [->|Hne]; cbn [negb].
    + destruct ((Solver.test_gradient M (Solver.gradient M s') (1 # 10000)
                 =? Solver.GSL_CONTINUE)%Z && (S iter <? Solver.maxIter)%nat).
      * apply IH. apply point_eta.
      * cbn [Solver.result Solver.final]. apply point_eta.
    + cbn [Solver.result Solver.final]. rewrite (Hk Hne). exact Hres.
Qed.

Lemma iterateLoop_iter_ge (M : Solver.Minimizer) (budget : nat) (s : Solver.state M)
      (iter : nat) (result : QPointF) :
  (S iter <= Solver.iter (Solver.iterateLoop M (S budget) s iter result))%nat.
Proof.
  cbn [Solver.iterateLoop].
  destruct (Solver.fdfminimizer_iterate M s) as [status s'].
  destruct (negb (status =? 0)%Z); [simpl; lia|].
  destruct ((Solver.test_gradient M (Solver.gradient M s') (1 # 10000)
             =? Solver.GSL_CONTINUE)%Z); cbn [andb]; [|simpl; lia].
  destruct (Nat.ltb_spec (S iter) Solver.maxIter) as [Hlt|Hge]; [|simpl; lia].
  apply iterateLoop_iter_bound. assumption.
Qed.

(** X4: [calculateLocalPos] runs its loop at least once and at most 10000
    times.  When the first iteration of the minimizer succeeds, and
    provided a failing iteration leaves the point of the minimizer where
    it was, the value returned is the point [s->x] the minimizer holds when
    the loop is left. *)
Theorem calculateLocalPos_returns_minimizer_point
        (M : Solver.Minimizer) (patch : BezierPatch.t) (dst : QPointF) :
  let p := Solver.paramsOf patch dst in
  let s := Solver.fdfminimizer_set M (fun v => Solver.my_f v p) (fun v => Solver.my_df v p)
                                   Solver.startingPoint (1 # 100) (1 # 10) in
  (forall s', fst (Solver.fdfminimizer_iterate M s') <> 0%Z ->
              Solver.x M (snd (Solver.fdfminimizer_iterate M s')) = Solver.x M s') ->
  fst (Solver.fdfminimizer_iterate M s) = 0%Z ->
  Solver.calculateLocalPos M patch dst
  = Solver.x M (Solver.final (Solver.solve M patch dst))
  /\ (1 <= Solver.iter (Solver.solve M patch dst) <= Z.to_nat 10000)%nat.
Proof.
  intros p s Hkeep Hfirst. split.
  - unfold Solver.calculateLocalPos, Solver.solve. fold p. fold s.
    rewrite maxIter_succ. cbn [Solver.iterateLoop].
    destruct (Solver.fdfminimizer_iterate M s) as [status s'].
    cbn [fst] in Hfirst. subst status. cbn [Z.eqb negb].
    destruct ((Solver.test_gradient M (Solver.gradient M s') (1 # 10000)
               =? Solver.GSL_CONTINUE)%Z && (1 <? Solver.maxIter)%nat).
    + apply iterateLoop_result; [exact Hkeep|apply point_eta].
    + cbn [Solver.result Solver.final]. apply point_eta.
  - split.
    + unfold Solver.solve. rewrite maxIter_succ. apply iterateLoop_iter_ge.
    + apply solve_iter_bound.
Qed.

Lemma stallingMinimizer_keeps_point (s : Solver.state stallingMinimizer) :
  fst (Solver.fdfminimizer_iterate stallingMinimizer s) <> 0%Z ->
  Solver.x stallingMinimizer (snd (Solver.fdfminimizer_iterate stallingMinimizer s))
  = Solver.x stallingMinimizer s.
Proof.
  destruct s as [[df x] g]. simpl.
  destruct (Qeq_bool (px g) 0 && Qeq_bool (py g) 0); simpl; [reflexivity|].
  intros H. exfalso. apply H. reflexivity.
Defined.

Lemma calculateLocalPos_returns_minimizer_point_witness :
  Solver.calculateLocalPos stallingMinimizer flatPatch (mkPoint 500 400)
  = Solver.x stallingMinimizer
             (Solver.final (Solver.solve stallingMinimizer flatPatch (mkPoint 500 400)))
  /\ (1 <= Solver.iter (Solver.solve stallingMinimizer flatPatch (mkPoint 500 400))
      <= Z.to_nat 10000)%nat.
Proof.
  apply (calculateLocalPos_returns_minimizer_point stallingMinimizer flatPatch
                                                   (mkPoint 500 400)).
  - exact stallingMinimizer_keeps_point.
  - vm_compute. reflexivity.
Defined.

(* ------------------------------------------------------------------ *)
(** ** Strictly increasing sequences *)

Lemma StronglySorted_app_iff (R : Q -> Q -> Prop) (l1 l2 : list Q) :
  StronglySorted R (l1 ++ l2)
  <-> StronglySorted R l1 /\ StronglySorted R l2
      /\ (forall x y, In x l1 -> In y l2 -> R x y).
Proof.
  induction l1 as [|a l1 IH]; simpl.
  - split.
    + intros H. repeat split; [constructor|assumption|intros x y []].
    + intros (_ & H & _). assumption.
  - split.
    + intros H. inversion H as [|a' l' Hs Ha]; subst.
      apply IH in Hs. destruct Hs as (H1 & H2 & H12).
      rewrite Forall_app in Ha. destruct Ha as [Ha1 Ha2].
      repeat split; [constructor; assumption|assumption|].
      intros x y [<-|Hx] Hy.
      * rewrite Forall_forall in Ha2. apply Ha2. assumption.
      * apply H12; assumption.
    + intros (H1 & H2 & H12). inversion H1 as [|a' l' Hs Ha]; subst.
      constructor.
      * apply IH. repeat split; try assumption.
        intros x y Hx Hy. apply H12; [right|]; assumption.
      * apply Forall_app. split; [assumption|].
        apply Forall_forall. intros y Hy. apply H12; [left; reflexivity|assumption].
Qed.

Lemma StronglySorted_hd_last (l : list Q) (d : Q) :
  StronglySorted Qlt l -> (2 <= length l)%nat -> hd d l < last l d.
Proof.
  intros Hs Hlen. destruct l as [|a [|b l]]; simpl in Hlen; try lia.
  inversion Hs as [|a' l' _ Ha]; subst.
  apply (Forall_last (fun x => a < x) (b :: l) d); [discriminate|assumption].
Qed.

(* ------------------------------------------------------------------ *)
(** ** [linearizeCurve] *)

Section LinearizeLoop.

Variable qSqrt : Q -> Q.
Variables p0 p1 p2 p3 : QPointF.
Variable minStep : xreal.

(** Whatever the loop returns is the accepted sequence followed by what
    was still stacked, refined; it is strictly increasing when the sequence
    and the stack are. *)
Lemma linearizeLoop_sorted (fuel : nat) :
  forall (stack : list (QPointF * QPointF * Q)) (lastP lastD : QPointF) (lastT : Q)
         (pre : list Q) (r : list Q),
    StronglySorted Qlt ((pre ++ [lastT]) ++ map stackedT stack) ->
    BezierPatch.linearizeLoop qSqrt fuel p0 p1 p2 p3 minStep stack lastP lastD lastT
                              (pre ++ [lastT]) = Some r ->
    StronglySorted Qlt r
    /\ hd 0 r = hd 0 (pre ++ [lastT])
    /\ last r 0 = last ((pre ++ [lastT]) ++ map stackedT stack) 0
    /\ (length ((pre ++ [lastT]) ++ map stackedT stack) <= length r)%nat.
Proof.
  induction fuel as [|fuel IH]; intros stack lastP lastD lastT pre r Hs Hr.
  - destruct stack as [|[[p d] t] rest]; simpl in Hr; [|discriminate].
    injection Hr as <-. simpl in *. rewrite app_nil_r in *. auto.
  - destruct stack as [|[[p d] t] rest].
    + simpl in Hr. injection Hr as <-. simpl in *. rewrite app_nil_r in *. auto.
    + cbn [BezierPatch.linearizeLoop] in Hr.
      destruct (xlt (t - lastT) minStep
                || BezierPatch.isLinearSegment qSqrt lastP lastD p d).
      * assert (E : (pre ++ [lastT]) ++ map stackedT ((p, d, t) :: rest)
                    = ((pre ++ [lastT]) ++ [t]) ++ map stackedT rest).
        { simpl. rewrite <- !app_assoc. reflexivity. }
        rewrite E in *.
        destruct (IH rest p d t (pre ++ [lastT]) r Hs Hr) as (H1 & H2 & H3 & H4).
        repeat split; try assumption.
        rewrite H2. destruct pre; reflexivity.
      * set (t' := (1 # 2) * (lastT + t)) in *.
        assert (Hlt : lastT < t).
        { apply StronglySorted_app_iff in Hs. destruct Hs as (_ & _ & H12).
          apply H12; [apply in_or_app; right; left; reflexivity|left; reflexivity]. }
        assert (Hs' : StronglySorted Qlt
                        ((pre ++ [lastT]) ++ map stackedT
                           ((bezierCurve p0 p1 p2 p3 t', bezierCurveDeriv p0 p1 p2 p3 t', t')
                              :: (p, d, t) :: rest))).
        { apply StronglySorted_app_iff in Hs. destruct Hs as (Hpre & Hst & H12).
          apply StronglySorted_app_iff. split; [assumption|]. split.
          - simpl. constructor; [assumption|].
            simpl in Hst. inversion Hst as [|a l Hl Ha]; subst.
            constructor; [unfold stackedT, t'; simpl; lra|].
            eapply Forall_impl; [|exact Ha]. intros y Hy.
            unfold stackedT, t' in *. simpl in *. lra.
          - intros x y Hx [<-|Hy].
            + assert (Hxl : x <= lastT).
              { apply in_app_or in Hx. destruct Hx as [Hx|[<-|[]]]; [|apply Qle_refl].
                apply StronglySorted_app_iff in Hpre. destruct Hpre as (_ & _ & Hp).
                apply Qlt_le_weak. apply Hp; [assumption|left; reflexivity]. }
              unfold stackedT, t'. simpl. lra.
            + apply H12; assumption. }
        destruct (IH _ lastP lastD lastT pre r Hs' Hr) as (H1 & H2 & H3 & H4).
        repeat split; try assumption.
        -- rewrite H3. rewrite !last_app_nonempty by discriminate.
           reflexivity.
        -- rewrite length_app in *. simpl in *. lia.
Qed.

End LinearizeLoop.

Lemma twoPow_pos (n : nat) : 0 < twoPow n.
Proof. induction n as [|n IH]; simpl; lra. Qed.

Section LinearizeTermination.

Variable qSqrt : Q -> Q.
Variables p0 p1 p2 p3 : QPointF.
Variable q : Q.


End LinearizeTermination.

(** X5: whenever [linearizeCurve] returns, the parameters it returns are
    strictly increasing, start with 0 and end with 1. *)
Theorem linearizeCurve_increasing
        (qSqrt : Q -> Q) (fuel : nat) (p0 p1 p2 p3 : QPointF) (steps : list Q) :
  BezierPatch.linearizeCurve qSqrt fuel p0 p1 p2 p3 = Some steps ->
  StronglySorted Qlt steps
  /\ hd 0 steps = 0 /\ last steps 0 = 1 /\ (2 <= length steps)%nat.
Proof.
  intros H. unfold BezierPatch.linearizeCurve in H.
  apply (linearizeLoop_sorted qSqrt p0 p1 p2 p3 _ fuel _ _ _ 0 [] steps) in H.
  - exact H.
  - simpl. repeat constructor.
Qed.

Lemma linearizeCurve_increasing_witness :
  StronglySorted Qlt [0; 1 # 2; 1]
  /\ hd 0 [0; 1 # 2; 1] = 0 /\ last [0; 1 # 2; 1] 0 = 1
  /\ le 2 (length [0; 1 # 2; 1]).
Proof.
  apply (linearizeCurve_increasing isqrt 50 (mkPoint 0 0) (mkPoint 1 2) (mkPoint 3 2)
                                   (mkPoint 4 0)).
  vm_compute. reflexivity.
Defined.




(* ------------------------------------------------------------------ *)
(** ** Merging the steps of two curves *)

Lemma qFuzzyCompare_Qeq (k x : Q) : k == x -> qFuzzyCompare k x = true.
Proof.
  intros E. unfold qFuzzyCompare. apply Qle_bool_iff.
  assert (E0 : k - x == 0) by lra. rewrite E0. simpl Qabs.
  rewrite Qmult_0_l. apply Q.min_glb; apply Qabs_nonneg.
Qed.


Lemma merge_nil_r (a : list Q) : BezierPatch.merge a [] = a.
Proof. destruct a; reflexivity. Qed.

Lemma merge_cons (x y : Q) (a b : list Q) :
  BezierPatch.merge (x :: a) (y :: b)
  = if Qltb y x then y :: BezierPatch.merge (x :: a) b
    else x :: BezierPatch.merge a (y :: b).
Proof. reflexivity. Qed.

Lemma merge_In (a b : list Q) (z : Q) :
  In z (BezierPatch.merge a b) <-> In z a \/ In z b.
Proof.
  revert b. induction a as [|x a IHa]; intros b.
  - simpl. destruct b; simpl; tauto.
  - induction b as [|y b IHb].
    + rewrite merge_nil_r. simpl. tauto.
    + rewrite merge_cons. destruct (Qltb y x).
      * simpl In at 1. rewrite IHb. simpl. tauto.
      * simpl In at 1. rewrite IHa. simpl. tauto.
Qed.

Lemma merge_length (a b : list Q) :
  length (BezierPatch.merge a b) = (length a + length b)%nat.
Proof.
  revert b. induction a as [|x a IHa]; intros b.
  - destruct b; reflexivity.
  - induction b as [|y b IHb].
    + rewrite merge_nil_r. simpl. lia.
    + rewrite merge_cons. destruct (Qltb y x).
      * cbn [length]. rewrite IHb. cbn [length]. lia.
      * cbn [length]. rewrite IHa. cbn [length]. lia.
Qed.

Lemma merge_sorted (a b : list Q) :
  StronglySorted Qle a -> StronglySorted Qle b ->
  StronglySorted Qle (BezierPatch.merge a b).
Proof.
  revert b. induction a as [|x a IHa]; intros b Ha Hb.
  - destruct b; assumption.
  - induction b as [|y b IHb].
    + rewrite merge_nil_r. assumption.
    + rewrite merge_cons.
      pose proof (StronglySorted_inv Ha) as [Ha' Hx].
      pose proof (StronglySorted_inv Hb) as [Hb' Hy].
      rewrite Forall_forall in Hx, Hy.
      destruct (Qltb y x) eqn:E.
      * apply Qltb_lt in E. constructor; [apply IHb; assumption|].
        apply Forall_forall. intros z Hz. apply merge_In in Hz.
        destruct Hz as [[<-|Hz]|Hz].
        -- lra.
        -- specialize (Hx z Hz). lra.
        -- apply Hy. assumption.
      * apply Qltb_ge in E. constructor; [apply IHa; assumption|].
        apply Forall_forall. intros z Hz. apply merge_In in Hz.
        destruct Hz as [Hz|[<-|Hz]].
        -- apply Hx. assumption.
        -- assumption.
        -- specialize (Hy z Hz). lra.
Qed.

Lemma unique_from_In (kept : Q) (l : list Q) (z : Q) :
  In z (BezierPatch.unique_from qFuzzyCompare kept l) -> In z l.
Proof.
  revert kept. induction l as [|x r IH]; intros kept; simpl; [tauto|].
  destruct (qFuzzyCompare kept x); simpl; intros H.
  - right. apply (IH kept). assumption.
  - destruct H as [H|H]; [left; assumption|right; apply (IH x); assumption].
Qed.

Lemma unique_from_sorted (l : list Q) :
  forall kept,
    StronglySorted Qle l -> Forall (Qle kept) l ->
    StronglySorted Qlt (BezierPatch.unique_from qFuzzyCompare kept l)
    /\ Forall (Qlt kept) (BezierPatch.unique_from qFuzzyCompare kept l).
Proof.
  induction l as [|x r IH]; intros kept Hs Hk; simpl.
  - split; constructor.
  - apply StronglySorted_inv in Hs. destruct Hs as [Hs Hx].
    inversion Hk as [|? ? Hkx Hkr]; subst.
    destruct (qFuzzyCompare kept x) eqn:E.
    + apply IH; assumption.
    + destruct (IH x Hs Hx) as [Hs' Hx'].
      assert (Hlt : kept < x).
      { destruct (Qlt_le_dec kept x) as [Hlt|Hge]; [assumption|].
        rewrite qFuzzyCompare_Qeq in E; [discriminate|]. lra. }
      split.
      * constructor; assumption.
      * constructor; [assumption|].
        eapply Forall_impl; [|exact Hx']. intros z Hz. simpl in Hz. lra.
Qed.

Lemma unique_from_cover (l : list Q) :
  forall kept z,
    StronglySorted Qle l -> Forall (Qle kept) l -> In z l ->
    exists k,
      (k = kept \/ In k (BezierPatch.unique_from qFuzzyCompare kept l))
      /\ k <= z /\ qFuzzyCompare k z = true.
Proof.
  induction l as [|x r IH]; intros kept z Hs Hk Hz; [destruct Hz|].
  apply StronglySorted_inv in Hs. destruct Hs as [Hs Hx].
  inversion Hk as [|? ? Hkx Hkr]; subst. simpl.
  destruct (qFuzzyCompare kept x) eqn:E.
  - destruct Hz as [<-|Hz].
    + exists kept. split; [left; reflexivity|]. split; assumption.
    + apply IH; assumption.
  - destruct Hz as [<-|Hz].
    + exists x. split; [right; left; reflexivity|].
      split; [apply Qle_refl|]. apply qFuzzyCompare_Qeq. reflexivity.
    + destruct (IH x z Hs Hx Hz) as (k & Hk' & Hle & Hf).
      exists k. split; [|split; assumption].
      right. destruct Hk' as [->|Hk']; [left; reflexivity|right; assumption].
Qed.

Lemma mergeSteps_sorted (a b : list Q) :
  StronglySorted Qle a -> StronglySorted Qle b ->
  StronglySorted Qlt (BezierPatch.mergeSteps a b).
Proof.
  intros Ha Hb. pose proof (merge_sorted a b Ha Hb) as Hm.
  unfold BezierPatch.mergeSteps, BezierPatch.unique.
  destruct (BezierPatch.merge a b) as [|x r]; [constructor|].
  apply StronglySorted_inv in Hm. destruct Hm as [Hs Hx].
  destruct (unique_from_sorted r x Hs Hx). constructor; assumption.
Qed.

Lemma mergeSteps_In (a b : list Q) (z : Q) :
  In z (BezierPatch.mergeSteps a b) -> In z a \/ In z b.
Proof.
  intros Hz. apply merge_In.
  unfold BezierPatch.mergeSteps, BezierPatch.unique in Hz.
  destruct (BezierPatch.merge a b) as [|x r]; [destruct Hz|].
  destruct Hz as [<-|Hz]; [left; reflexivity|].
  right. apply (unique_from_In x). assumption.
Qed.

Lemma mergeSteps_cover (a b : list Q) (z : Q) :
  StronglySorted Qle a -> StronglySorted Qle b ->
  In z a \/ In z b ->
  exists k, In k (BezierPatch.mergeSteps a b) /\ k <= z /\ qFuzzyCompare k z = true.
Proof.
  intros Ha Hb Hz. pose proof (merge_sorted a b Ha Hb) as Hm.
  apply merge_In in Hz.
  unfold BezierPatch.mergeSteps, BezierPatch.unique.
  destruct (BezierPatch.merge a b) as [|x r]; [destruct Hz|].
  apply StronglySorted_inv in Hm. destruct Hm as [Hs Hx].
  destruct Hz as [<-|Hz].
  - exists x. split; [left; reflexivity|].
    split; [apply Qle_refl|]. apply qFuzzyCompare_Qeq. reflexivity.
  - destruct (unique_from_cover r x z Hs Hx Hz) as (k & Hk & Hle & Hf).
    exists k. split; [|split; assumption].
    destruct Hk as [->|Hk]; [left; reflexivity|right; assumption].
Qed.




(** X7: [mergeSteps] of two sorted step sequences is strictly increasing,
    holds only elements of its inputs, and every element of an input is
    kept or is fuzzy-equal to a kept element that is not larger. *)
Theorem mergeSteps_spec (a b : list Q) :
  StronglySorted Qle a -> StronglySorted Qle b ->
  StronglySorted Qlt (BezierPatch.mergeSteps a b)
  /\ (forall z, In z (BezierPatch.mergeSteps a b) -> In z a \/ In z b)
  /\ (forall z, In z a \/ In z b ->
                exists k, In k (BezierPatch.mergeSteps a b)
                          /\ k <= z /\ qFuzzyCompare k z = true)
  /\ (length (BezierPatch.mergeSteps a b) <= length a + length b)%nat.
Proof.
  intros Ha Hb.
  split; [apply mergeSteps_sorted; assumption|].
  split; [intros z; apply mergeSteps_In|].
  split; [intros z; apply mergeSteps_cover; assumption|].
  rewrite <- merge_length.
  unfold BezierPatch.mergeSteps, BezierPatch.unique.
  destruct (BezierPatch.merge a b) as [|x r]; [apply Nat.le_refl|].
  simpl. apply le_n_S. clear. revert x.
  induction r as [|y r IH]; intros x; simpl; [apply Nat.le_refl|].
  destruct (qFuzzyCompare x y); simpl.
  - specialize (IH x). lia.
  - specialize (IH y). lia.
Qed.

Lemma mergeSteps_spec_witness :
  StronglySorted Qlt (BezierPatch.mergeSteps [0; 1 # 2; 1] [0; 1 # 3; 1])
  /\ (forall z, In z (BezierPatch.mergeSteps [0; 1 # 2; 1] [0; 1 # 3; 1]) ->
                In z [0; 1 # 2; 1] \/ In z [0; 1 # 3; 1])
  /\ (forall z, In z [0; 1 # 2; 1] \/ In z [0; 1 # 3; 1] ->
                exists k, In k (BezierPatch.mergeSteps [0; 1 # 2; 1] [0; 1 # 3; 1])
                          /\ k <= z /\ qFuzzyCompare k z = true)
  /\ le (length (BezierPatch.mergeSteps [0; 1 # 2; 1] [0; 1 # 3; 1]))
        (length [0; 1 # 2; 1] + length [0; 1 # 3; 1]).
Proof.
  apply (mergeSteps_spec [0; 1 # 2; 1] [0; 1 # 3; 1]);
    repeat constructor; discriminate.
Defined.



(* ------------------------------------------------------------------ *)
(** ** The patch iterator *)

Lemma endpoints_length (l : list Q) : endpoints l -> (2 <= length l)%nat.
Proof.
  intros [H0 H1]. destruct l as [|x [|y l]]; simpl in *.
  - discriminate.
  - rewrite H0 in H1. discriminate.
  - lia.
Qed.

Lemma wf_size (m : BezierMesh.t) :
  wf m -> (2 <= BezierMesh.width m)%nat /\ (2 <= BezierMesh.height m)%nat.
Proof.
  intros [(_ & Hc & Hr & Hec & Her) _].
  apply endpoints_length in Hec, Her. lia.
Qed.

Lemma quot_rem_index (w r c : Z) :
  (0 < w)%Z -> (0 <= r)%Z -> (0 <= c < w)%Z ->
  Z.quot (r * w + c) w = r /\ Z.rem (r * w + c) w = c.
Proof.
  intros Hw Hr Hc.
  rewrite Z.quot_div_nonneg, Z.rem_mod_nonneg by nia.
  split; symmetry.
  - apply (Z.div_unique _ _ r c); lia.
  - apply (Z.mod_unique _ _ r c); lia.
Qed.

Lemma div_mod_index (w r c : Z) :
  (0 < w)%Z -> (0 <= c < w)%Z ->
  ((r * w + c) / w = r /\ (r * w + c) mod w = c)%Z.
Proof.
  intros Hw Hc. split; symmetry.
  - apply (Z.div_unique _ _ r c); lia.
  - apply (Z.mod_unique _ _ r c); lia.
Qed.

Section IteratorFacts.

Variable m : BezierMesh.t.
Hypothesis Hwidth : (2 <= BezierMesh.width m)%nat.

Lemma meshWidth_pred_pos : (0 < PatchIterator.meshWidth m - 1)%Z.
Proof. unfold PatchIterator.meshWidth. lia. Qed.

Lemma wrapInt_inInt (z : Z) : PatchIterator.inInt z -> PatchIterator.wrapInt z = z.
Proof.
  unfold PatchIterator.inInt, PatchIterator.wrapInt, PatchIterator.INT_MIN,
    PatchIterator.INT_MAX.
  intros H. rewrite Z.mod_small; lia.
Qed.

(** Where the exact index fits into [int], the source computes it. *)
Lemma index_linearIndex (it : PatchIterator.t) :
  PatchIterator.inInt (PatchIterator.meshWidth m) ->
  (0 <= PatchIterator.m_col it)%Z -> (0 <= PatchIterator.m_row it)%Z ->
  PatchIterator.inInt (PatchIterator.linearIndex m it) ->
  PatchIterator.index m it = PatchIterator.linearIndex m it.
Proof.
  pose proof meshWidth_pred_pos as Hw.
  unfold PatchIterator.index, PatchIterator.linearIndex, PatchIterator.inInt,
    PatchIterator.INT_MIN, PatchIterator.INT_MAX.
  intros HW Hc Hr Hi.
  rewrite (wrapInt_inInt (PatchIterator.meshWidth m - 1))
    by (unfold PatchIterator.inInt, PatchIterator.INT_MIN, PatchIterator.INT_MAX; lia).
  assert (Hp : (0 <= PatchIterator.m_row it * (PatchIterator.meshWidth m - 1))%Z)
    by (apply Z.mul_nonneg_nonneg; lia).
  rewrite (wrapInt_inInt (PatchIterator.m_row it * (PatchIterator.meshWidth m - 1)))
    by (unfold PatchIterator.inInt, PatchIterator.INT_MIN, PatchIterator.INT_MAX; lia).
  apply wrapInt_inInt.
  unfold PatchIterator.inInt, PatchIterator.INT_MIN, PatchIterator.INT_MAX. lia.
Qed.

Lemma advance_index (n : Z) (it : PatchIterator.t) (r c : Z) :
  PatchIterator.inInt (PatchIterator.meshWidth m) ->
  (0 <= PatchIterator.m_col it)%Z -> (0 <= PatchIterator.m_row it)%Z ->
  PatchIterator.inInt (PatchIterator.linearIndex m it) ->
  PatchIterator.inInt (PatchIterator.linearIndex m it + n) ->
  (0 <= r)%Z -> (0 <= c < PatchIterator.meshWidth m - 1)%Z ->
  (PatchIterator.linearIndex m it + n = r * (PatchIterator.meshWidth m - 1) + c)%Z ->
  PatchIterator.advance m n it = Some (PatchIterator.mk c r).
Proof.
  intros HW Hcol Hrow Hi Hin Hr Hc E. pose proof meshWidth_pred_pos as Hw.
  unfold PatchIterator.advance.
  rewrite (index_linearIndex it HW Hcol Hrow Hi).
  rewrite (wrapInt_inInt _ Hin).
  rewrite (wrapInt_inInt (PatchIterator.meshWidth m - 1))
    by (unfold PatchIterator.inInt, PatchIterator.INT_MIN, PatchIterator.INT_MAX in *; lia).
  rewrite E.
  destruct (Z.eqb_spec (PatchIterator.meshWidth m - 1) 0) as [E0|_]; [lia|].
  destruct (Z.eqb_spec (PatchIterator.meshWidth m - 1) (-1)) as [E1|_]; [lia|].
  cbn [orb andb].
  destruct (quot_rem_index _ r c Hw Hr Hc) as [-> ->]. reflexivity.
Qed.

Lemma increment_index (it : PatchIterator.t) :
  (0 <= PatchIterator.m_col it < PatchIterator.meshWidth m - 1)%Z ->
  (0 <= PatchIterator.m_col (PatchIterator.increment m it)
   < PatchIterator.meshWidth m - 1)%Z
  /\ (PatchIterator.m_row it <= PatchIterator.m_row (PatchIterator.increment m it))%Z
  /\ (PatchIterator.linearIndex m (PatchIterator.increment m it)
      = PatchIterator.linearIndex m it + 1)%Z.
Proof.
  intros Hc. destruct it as [c r].
  unfold PatchIterator.increment, PatchIterator.linearIndex.
  cbn [PatchIterator.m_col PatchIterator.m_row] in *.
  destruct (Z.leb_spec (PatchIterator.meshWidth m - 1) (c + 1));
    cbn [PatchIterator.m_col PatchIterator.m_row]; lia.
Qed.

Lemma increment_atIndex (k : nat) :
  PatchIterator.increment m (PatchIterator.atIndex m k) = PatchIterator.atIndex m (S k).
Proof.
  pose proof meshWidth_pred_pos as Hw.
  unfold PatchIterator.atIndex, PatchIterator.increment.
  cbn [PatchIterator.m_col PatchIterator.m_row].
  set (w := (PatchIterator.meshWidth m - 1)%Z) in *.
  pose proof (Z.div_mod (Z.of_nat k) w ltac:(lia)) as E.
  pose proof (Z.mod_pos_bound (Z.of_nat k) w Hw) as Hb.
  set (q := (Z.of_nat k / w)%Z) in *. set (r := (Z.of_nat k mod w)%Z) in *.
  destruct (Z.leb_spec w (r + 1)).
  - assert (E' : Z.of_nat (S k) = ((q + 1) * w + 0)%Z) by lia.
    rewrite E'. destruct (div_mod_index w (q + 1) 0 Hw ltac:(lia)) as [-> ->].
    reflexivity.
  - assert (E' : Z.of_nat (S k) = (q * w + (r + 1))%Z) by lia.
    rewrite E'. destruct (div_mod_index w q (r + 1) Hw ltac:(lia)) as [-> ->].
    reflexivity.
Qed.

Lemma atIndex_inRange (k : nat) :
  (k < (BezierMesh.width m - 1) * (BezierMesh.height m - 1))%nat ->
  PatchIterator.inRange m (PatchIterator.atIndex m k).
Proof.
  intros Hk. pose proof meshWidth_pred_pos as Hw.
  unfold PatchIterator.inRange, PatchIterator.atIndex.
  cbn [PatchIterator.m_col PatchIterator.m_row].
  split; [apply Z.mod_pos_bound; assumption|].
  split; [apply Z.div_pos; lia|].
  apply Z.div_lt_upper_bound; [assumption|].
  unfold PatchIterator.meshWidth, PatchIterator.meshHeight in *. nia.
Qed.

Lemma atIndex_end :
  (1 <= BezierMesh.height m)%nat ->
  PatchIterator.atIndex m ((BezierMesh.width m - 1) * (BezierMesh.height m - 1))
  = PatchIterator.end_ m.
Proof.
  intros Hh. pose proof meshWidth_pred_pos as Hw.
  unfold PatchIterator.atIndex, PatchIterator.end_.
  assert (E : Z.of_nat ((BezierMesh.width m - 1) * (BezierMesh.height m - 1))
              = ((PatchIterator.meshHeight m - 1) * (PatchIterator.meshWidth m - 1) + 0)%Z).
  { unfold PatchIterator.meshWidth, PatchIterator.meshHeight. nia. }
  rewrite E.
  destruct (div_mod_index (PatchIterator.meshWidth m - 1) (PatchIterator.meshHeight m - 1)
                          0 Hw ltac:(lia)) as [-> ->].
  reflexivity.
Qed.

Lemma inRange_not_end (it : PatchIterator.t) :
  PatchIterator.inRange m it -> PatchIterator.equal it (PatchIterator.end_ m) = false.
Proof.
  intros [_ Hr]. unfold PatchIterator.equal, PatchIterator.end_.
  cbn [PatchIterator.m_col PatchIterator.m_row].
  destruct (Z.eqb_spec (PatchIterator.m_row it) (PatchIterator.meshHeight m - 1));
    [lia|reflexivity].
Qed.

Lemma visit_from (d : nat) :
  forall k fuel,
    (1 <= BezierMesh.height m)%nat ->
    (k + d = (BezierMesh.width m - 1) * (BezierMesh.height m - 1))%nat ->
    (d <= fuel)%nat ->
    PatchIterator.visit m fuel (PatchIterator.atIndex m k)
    = Some (map (PatchIterator.atIndex m) (seq k d)).
Proof.
  induction d as [|d IH]; intros k fuel Hh Hk Hfuel.
  - rewrite Nat.add_0_r in Hk. rewrite Hk, atIndex_end by assumption.
    destruct fuel; simpl; unfold PatchIterator.equal; rewrite !Z.eqb_refl; reflexivity.
  - destruct fuel as [|fuel]; [lia|].
    cbn [PatchIterator.visit].
    rewrite inRange_not_end by (apply atIndex_inRange; lia).
    rewrite increment_atIndex, (IH (S k) fuel) by lia.
    reflexivity.
Qed.

End IteratorFacts.

Lemma dereference_inRange (m : BezierMesh.t) (it : PatchIterator.t) :
  wf m -> PatchIterator.inRange m it ->
  exists patch, PatchIterator.dereference m it = Some patch.
Proof.
  intros Hwf [Hc Hr]. unfold PatchIterator.dereference.
  destruct (Z.ltb_spec (PatchIterator.m_col it) 0) as [H|_]; [lia|].
  destruct (Z.ltb_spec (PatchIterator.m_row it) 0) as [H|_]; [lia|].
  cbn [orb].
  unfold PatchIterator.meshWidth, PatchIterator.meshHeight in *.
  destruct (makePatch_spec m (Z.to_nat (PatchIterator.m_col it))
                           (Z.to_nat (PatchIterator.m_row it)) Hwf) as [rect E];
    [lia|lia|].
  eexists. exact E.
Qed.

(** X9: for a position of a mesh of width at least 2 whose column is in
    range, whose row is not negative and whose index and the next one fit
    into [int], [increment] is [advance(1)], moves the row-major index by
    one and keeps the column in range; [decrement] undoes [increment] and
    [increment] undoes [decrement]. *)
Theorem iterator_increment_decrement (m : BezierMesh.t) (it : PatchIterator.t) :
  (2 <= BezierMesh.width m)%nat ->
  PatchIterator.inInt (PatchIterator.meshWidth m) ->
  (0 <= PatchIterator.m_col it < PatchIterator.meshWidth m - 1)%Z ->
  (0 <= PatchIterator.m_row it)%Z ->
  PatchIterator.inInt (PatchIterator.linearIndex m it + 1) ->
  PatchIterator.advance m 1 it = Some (PatchIterator.increment m it)
  /\ (0 <= PatchIterator.m_col (PatchIterator.increment m it)
      < PatchIterator.meshWidth m - 1)%Z
  /\ PatchIterator.inInt (PatchIterator.m_row (PatchIterator.increment m it))
  /\ PatchIterator.distance_to m it (PatchIterator.increment m it) = 1%Z
  /\ PatchIterator.decrement m (PatchIterator.increment m it) = it
  /\ PatchIterator.increment m (PatchIterator.decrement m it) = it
  /\ PatchIterator.advance m (-1) (PatchIterator.increment m it) = Some it.
Proof.
  intros Hw HW Hc Hr Hfit.
  pose proof (meshWidth_pred_pos m Hw) as Hpos.
  destruct (increment_index m Hw it Hc) as (Hc' & Hr' & Hidx).
  assert (Hprod : (0 <= PatchIterator.m_row it * (PatchIterator.meshWidth m - 1))%Z)
    by (apply Z.mul_nonneg_nonneg; lia).
  assert (Hli : (0 <= PatchIterator.linearIndex m it)%Z)
    by (unfold PatchIterator.linearIndex; lia).
  assert (Hi : PatchIterator.inInt (PatchIterator.linearIndex m it)).
  { unfold PatchIterator.inInt, PatchIterator.INT_MIN, PatchIterator.INT_MAX in *. lia. }
  assert (Hrow' : PatchIterator.inInt (PatchIterator.m_row (PatchIterator.increment m it))).
  { assert (Hle : (PatchIterator.m_row (PatchIterator.increment m it)
                   <= PatchIterator.linearIndex m (PatchIterator.increment m it))%Z).
    { unfold PatchIterator.linearIndex.
      assert (0 <= PatchIterator.m_row (PatchIterator.increment m it))%Z by lia.
      nia. }
    rewrite Hidx in Hle.
    unfold PatchIterator.inInt, PatchIterator.INT_MIN, PatchIterator.INT_MAX in *. lia. }
  split; [|split; [assumption|split; [assumption|split; [|split; [|split]]]]].
  - destruct (PatchIterator.increment m it) as [c' r'] eqn:E.
    cbn [PatchIterator.m_col PatchIterator.m_row] in *.
    apply advance_index; try assumption; try lia.
    rewrite <- Hidx. reflexivity.
  - unfold PatchIterator.distance_to. unfold PatchIterator.linearIndex in Hidx. lia.
  - destruct it as [c r]. unfold PatchIterator.increment, PatchIterator.decrement.
    cbn [PatchIterator.m_col PatchIterator.m_row] in *.
    destruct (Z.leb_spec (PatchIterator.meshWidth m - 1) (c + 1));
      cbn [PatchIterator.m_col PatchIterator.m_row].
    + destruct (Z.ltb_spec (0 - 1) 0); [|lia]. f_equal; lia.
    + destruct (Z.ltb_spec (c + 1 - 1) 0); [lia|]. f_equal; lia.
  - destruct it as [c r]. unfold PatchIterator.increment, PatchIterator.decrement.
    cbn [PatchIterator.m_col PatchIterator.m_row] in *.
    destruct (Z.ltb_spec (c - 1) 0); cbn [PatchIterator.m_col PatchIterator.m_row].
    + destruct (Z.leb_spec (PatchIterator.meshWidth m - 1)
                           (PatchIterator.meshWidth m - 2 + 1)); [|lia].
      f_equal; lia.
    + destruct (Z.leb_spec (PatchIterator.meshWidth m - 1) (c - 1 + 1)); [lia|].
      f_equal; lia.
  - destruct it as [c r]. cbn [PatchIterator.m_col PatchIterator.m_row] in *.
    apply advance_index; cbn [PatchIterator.m_col PatchIterator.m_row];
      try assumption; try lia.
    + rewrite Hidx. assumption.
    + rewrite Hidx.
      replace (PatchIterator.linearIndex m (PatchIterator.mk c r) + 1 + -1)%Z
        with (PatchIterator.linearIndex m (PatchIterator.mk c r)) by lia.
      assumption.
    + rewrite Hidx. unfold PatchIterator.linearIndex.
      cbn [PatchIterator.m_col PatchIterator.m_row]. lia.
Qed.

Lemma iterator_increment_decrement_witness :
  PatchIterator.advance unitMesh 1 (PatchIterator.mk 0 0)
  = Some (PatchIterator.increment unitMesh (PatchIterator.mk 0 0))
  /\ (0 <= PatchIterator.m_col (PatchIterator.increment unitMesh (PatchIterator.mk 0 0))
      < PatchIterator.meshWidth unitMesh - 1)%Z
  /\ PatchIterator.inInt
       (PatchIterator.m_row (PatchIterator.increment unitMesh (PatchIterator.mk 0 0)))
  /\ PatchIterator.distance_to unitMesh (PatchIterator.mk 0 0)
       (PatchIterator.increment unitMesh (PatchIterator.mk 0 0)) = 1%Z
  /\ PatchIterator.decrement unitMesh (PatchIterator.increment unitMesh (PatchIterator.mk 0 0))
     = PatchIterator.mk 0 0
  /\ PatchIterator.increment unitMesh (PatchIterator.decrement unitMesh (PatchIterator.mk 0 0))
     = PatchIterator.mk 0 0
  /\ PatchIterator.advance unitMesh (-1)
       (PatchIterator.increment unitMesh (PatchIterator.mk 0 0))
     = Some (PatchIterator.mk 0 0).
Proof.
  apply (iterator_increment_decrement unitMesh (PatchIterator.mk 0 0)).
  - vm_compute. lia.
  - cbv. split; discriminate.
  - cbv. split; [discriminate|reflexivity].
  - cbv. discriminate.
  - cbv. split; discriminate.
Defined.



(** X11: in a well-formed mesh the loop from [begin()] to [end()] stops
    after [(width - 1) * (height - 1)] increments; it visits the patches row
    by row, every visited position lies inside the mesh and can be
    dereferenced, and [end() - begin()] is the number of patches. *)
Theorem iterator_traversal (m : BezierMesh.t) (fuel : nat) :
  wf m ->
  ((BezierMesh.width m - 1) * (BezierMesh.height m - 1) <= fuel)%nat ->
  let visited := map (PatchIterator.atIndex m)
                     (seq 0 ((BezierMesh.width m - 1) * (BezierMesh.height m - 1))) in
  PatchIterator.visit m fuel (PatchIterator.begin m) = Some visited
  /\ Forall (fun it => PatchIterator.inRange m it
                       /\ exists patch, PatchIterator.dereference m it = Some patch)
            visited
  /\ PatchIterator.distance_to m (PatchIterator.begin m) (PatchIterator.end_ m)
     = Z.of_nat (length visited)
  /\ (1 <= length visited)%nat.
Proof.
  intros Hwf Hfuel visited.
  destruct (wf_size m Hwf) as [Hw Hh].
  split; [|split; [|split]].
  - change (PatchIterator.begin m) with (PatchIterator.atIndex m 0).
    + apply visit_from; [assumption|lia|reflexivity|assumption].
  - apply Forall_forall. intros it Hit. unfold visited in Hit.
    apply in_map_iff in Hit. destruct Hit as (k & <- & Hk). apply in_seq in Hk.
    assert (Hin : PatchIterator.inRange m (PatchIterator.atIndex m k))
      by (apply atIndex_inRange; [assumption|lia]).
    split; [assumption|]. apply dereference_inRange; assumption.
  - unfold visited. rewrite length_map, length_seq.
    unfold PatchIterator.distance_to, PatchIterator.begin, PatchIterator.end_,
      PatchIterator.meshWidth, PatchIterator.meshHeight.
    cbn [PatchIterator.m_col PatchIterator.m_row]. nia.
  - unfold visited. rewrite length_map, length_seq. nia.
Qed.

Lemma iterator_traversal_witness :
  let visited := map (PatchIterator.atIndex meshHalf)
                     (seq 0 ((BezierMesh.width meshHalf - 1)
                             * (BezierMesh.height meshHalf - 1))) in
  PatchIterator.visit meshHalf 2 (PatchIterator.begin meshHalf) = Some visited
  /\ Forall (fun it => PatchIterator.inRange meshHalf it
                       /\ exists patch, PatchIterator.dereference meshHalf it = Some patch)
            visited
  /\ PatchIterator.distance_to meshHalf (PatchIterator.begin meshHalf)
                               (PatchIterator.end_ meshHalf)
     = Z.of_nat (length visited)
  /\ (1 <= length visited)%nat.
Proof.
  assert (Hwf : wf meshHalf).
  { apply reachable_wf.
    apply (reachable_row unitMesh meshHalf (1 # 2));
      [|vm_compute; reflexivity].
    apply reachable_make; lia. }
  apply (iterator_traversal meshHalf 2 Hwf). vm_compute. lia.
Defined.

(* ------------------------------------------------------------------ *)
(** ** The patches of a mesh tile it *)







(* ------------------------------------------------------------------ *)
(** ** What a subdivision does to the patches *)

Lemma nth_error_defined {A : Type} (l : list A) (i : nat) :
  (i < length l)%nat -> exists x, nth_error l i = Some x.
Proof.
  intros H. destruct (nth_error l i) as [x|] eqn:E; [exists x; reflexivity|].
  apply nth_error_None in E. lia.
Qed.

Lemma rowSubdivided_top (m : BezierMesh.t) (i : nat) (relT : Q) (col : nat) :
  (col < BezierMesh.width m)%nat ->
  rowSubdivided m i relT col i = fst (fst (rowSplit m i relT col)).
Proof.
  intros Hc. unfold rowSubdivided, rowLoopNode.
  rewrite Nat.leb_refl, (proj2 (Nat.ltb_lt _ _) Hc), Nat.eqb_refl. reflexivity.
Qed.

Lemma rowSubdivided_new (m : BezierMesh.t) (i : nat) (relT : Q) (col : nat) :
  rowSubdivided m i relT col (S i) = snd (rowSplit m i relT col).
Proof.
  unfold rowSubdivided.
  rewrite (proj2 (Nat.leb_gt (S i) i)) by lia.
  rewrite Nat.eqb_refl. reflexivity.
Qed.

Lemma rowSubdivided_bottom (m : BezierMesh.t) (i : nat) (relT : Q) (col : nat) :
  (col < BezierMesh.width m)%nat ->
  rowSubdivided m i relT col (S (S i)) = snd (fst (rowSplit m i relT col)).
Proof.
  intros Hc. unfold rowSubdivided, rowLoopNode.
  rewrite (proj2 (Nat.leb_gt (S (S i)) i)) by lia.
  rewrite (proj2 (Nat.eqb_neq (S (S i)) (S i))) by lia.
  replace (S (S i) - 1)%nat with (S i) by lia.
  rewrite (proj2 (Nat.ltb_lt _ _) Hc).
  rewrite (proj2 (Nat.eqb_neq (S i) i)) by lia.
  rewrite Nat.eqb_refl. reflexivity.
Qed.

Lemma columnSubdivided_left (m : BezierMesh.t) (i : nat) (relT : Q) (row : nat) :
  (row < BezierMesh.height m)%nat ->
  columnSubdivided m i relT i row = fst (fst (columnSplit m i relT row)).
Proof.
  intros Hr. unfold columnSubdivided, columnLoopNode.
  rewrite Nat.leb_refl, (proj2 (Nat.ltb_lt _ _) Hr), Nat.eqb_refl. reflexivity.
Qed.

Lemma columnSubdivided_new (m : BezierMesh.t) (i : nat) (relT : Q) (row : nat) :
  columnSubdivided m i relT (S i) row = snd (columnSplit m i relT row).
Proof.
  unfold columnSubdivided.
  rewrite (proj2 (Nat.leb_gt (S i) i)) by lia.
  rewrite Nat.eqb_refl. reflexivity.
Qed.

Lemma columnSubdivided_right (m : BezierMesh.t) (i : nat) (relT : Q) (row : nat) :
  (row < BezierMesh.height m)%nat ->
  columnSubdivided m i relT (S (S i)) row = snd (fst (columnSplit m i relT row)).
Proof.
  intros Hr. unfold columnSubdivided, columnLoopNode.
  rewrite (proj2 (Nat.leb_gt (S (S i)) i)) by lia.
  rewrite (proj2 (Nat.eqb_neq (S (S i)) (S i))) by lia.
  replace (S (S i) - 1)%nat with (S i) by lia.
  rewrite (proj2 (Nat.ltb_lt _ _) Hr).
  rewrite (proj2 (Nat.eqb_neq (S i) i)) by lia.
  rewrite Nat.eqb_refl. reflexivity.
Qed.

(** The three positions around an inserted one. *)
Lemma insert_nth_error_around (l : list Q) (i : nat) (t a b : Q) :
  nth_error l i = Some a -> nth_error l (S i) = Some b ->
  nth_error (firstn (S i) l ++ [t] ++ skipn (S i) l) i = Some a
  /\ nth_error (firstn (S i) l ++ [t] ++ skipn (S i) l) (S i) = Some t
  /\ nth_error (firstn (S i) l ++ [t] ++ skipn (S i) l) (S (S i)) = Some b.
Proof.
  intros Ha Hb.
  assert (Hlen : (S i <= length l)%nat).
  { apply Nat.lt_le_incl. apply nth_error_Some. congruence. }
  rewrite !insert_nth_error by assumption. cbn [length].
  rewrite (proj2 (Nat.ltb_lt i (S i))) by lia.
  rewrite (proj2 (Nat.ltb_ge (S i) (S i))) by lia.
  rewrite (proj2 (Nat.ltb_lt (S i) (S i + 1))) by lia.
  rewrite (proj2 (Nat.ltb_ge (S (S i)) (S i))) by lia.
  rewrite (proj2 (Nat.ltb_ge (S (S i)) (S i + 1))) by lia.
  rewrite Nat.sub_diag. replace (S (S i) - 1)%nat with (S i) by lia.
  split; [assumption|]. split; [reflexivity|assumption].
Qed.

(** The patches of the row that [subdivideRow] cuts, before and after the
    call. *)
Lemma subdivideRow_patches
        (m : BezierMesh.t) (t : Q) (i : nat) (a b : Q) :
  wf m -> BezierMesh.returnsEarly t = false -> a <= t -> t < b ->
  nth_error (BezierMesh.m_rows m) i = Some a ->
  nth_error (BezierMesh.m_rows m) (S i) = Some b ->
  exists m',
    BezierMesh.subdivideRow t m = Some m'
    /\ forall col, (S col < BezierMesh.width m)%nat ->
         exists patch upper lower,
           BezierMesh.makePatch m col i = Some patch
           /\ BezierMesh.makePatch m' col i = Some upper
           /\ BezierMesh.makePatch m' col (S i) = Some lower
           /\ forall s r,
               let relT := (t - a) / (b - a) in
               BezierPatch.leftCurve upper s =p= BezierPatch.leftCurve patch (relT * s)
               /\ BezierPatch.leftCurve lower s
                  =p= BezierPatch.leftCurve patch (relT + (1 - relT) * s)
               /\ BezierPatch.rightCurve upper s =p= BezierPatch.rightCurve patch (relT * s)
               /\ BezierPatch.rightCurve lower s
                  =p= BezierPatch.rightCurve patch (relT + (1 - relT) * s)
               /\ BezierPatch.topCurve upper s = BezierPatch.topCurve patch s
               /\ BezierPatch.bottomCurve lower s = BezierPatch.bottomCurve patch s
               /\ BezierPatch.bottomCurve upper s = BezierPatch.topCurve lower s
               /\ BezierPatch.origAt upper s r =p= BezierPatch.origAt patch s (relT * r)
               /\ BezierPatch.origAt lower s r
                  =p= BezierPatch.origAt patch s (relT + (1 - relT) * r).
Proof.
  intros Hwf Hgo Hat Htb Ha Hb.
  pose proof Hwf as [(Hlen & Hlc & Hlr & _ & Her) [_ Hsr]].
  assert (Hub : upper_bound (BezierMesh.m_rows m) t = S i)
    by (eapply upper_bound_between; eassumption).
  assert (Hi : (S i < BezierMesh.height m)%nat)
    by (rewrite <- Hlr; apply nth_error_Some; congruence).
  destruct (subdivideRow_spec m t Hlen Hgo i a b Hub Hi Ha Hb)
    as (m' & Hm' & Hsize & Hrows & Hcols & Hrect & _ & Hnode).
  exists m'. split; [assumption|].
  intros col Hcol.
  destruct (nth_error_defined (BezierMesh.m_columns m) col ltac:(lia)) as [c0 Hc0].
  destruct (nth_error_defined (BezierMesh.m_columns m) (S col) ltac:(lia)) as [c1 Hc1].
  destruct (insert_nth_error_around (BezierMesh.m_rows m) i t a b Ha Hb)
    as (Hr0 & Hr1 & Hr2).
  rewrite <- Hrows in Hr0, Hr1, Hr2. rewrite <- Hcols in Hc0, Hc1.
  pose proof (makePatch_nodes m' col i _ _ _ _ c0 c1 a t
                (Hnode col i ltac:(lia) ltac:(lia))
                (Hnode (S col) i ltac:(lia) ltac:(lia))
                (Hnode col (S i) ltac:(lia) ltac:(lia))
                (Hnode (S col) (S i) ltac:(lia) ltac:(lia))
                Hc0 Hc1 Hr0 Hr1) as Hupper.
  pose proof (makePatch_nodes m' col (S i) _ _ _ _ c0 c1 t b
                (Hnode col (S i) ltac:(lia) ltac:(lia))
                (Hnode (S col) (S i) ltac:(lia) ltac:(lia))
                (Hnode col (S (S i)) ltac:(lia) ltac:(lia))
                (Hnode (S col) (S (S i)) ltac:(lia) ltac:(lia))
                Hc0 Hc1 Hr1 Hr2) as Hlower.
  rewrite Hcols in Hc0, Hc1.
  assert (Hpatch : BezierMesh.makePatch m col i
                   = Some (BezierPatch.mk
                             (relativeToAbsoluteRect (mkRect c0 a (c1 - c0) (b - a))
                                                     (BezierMesh.m_originalRect m))
                             (BezierMesh.patchPoints (nodeOr m col i) (nodeOr m (S col) i)
                                                     (nodeOr m col (S i))
                                                     (nodeOr m (S col) (S i))))).
  { apply makePatch_nodes; try assumption;
      unfold BezierMesh.node; apply nodeOr_nth_error; assumption || lia. }
  rewrite !rowSubdivided_top, !rowSubdivided_new in Hupper by lia.
  rewrite !rowSubdivided_new, !rowSubdivided_bottom in Hlower by lia.
  rewrite Hrect in Hupper, Hlower.
  eexists. eexists. eexists.
  split; [exact Hpatch|]. split; [exact Hupper|]. split; [exact Hlower|].
  intros s r relT.
  assert (Hba : ~ b - a == 0) by lra.
  unfold BezierPatch.leftCurve, BezierPatch.rightCurve, BezierPatch.topCurve,
    BezierPatch.bottomCurve, rowSplit, BezierMesh.splitCurveVertically.
  cbn [BezierPatch.points BezierMesh.patchPoints fst snd
       Node.node Node.leftControl Node.rightControl Node.topControl Node.bottomControl
       Node.setBottomControl Node.setTopControl].
  fold relT.
  split; [apply deCasteljau_left_curve|].
  split; [apply deCasteljau_right_curve|].
  split; [apply deCasteljau_left_curve|].
  split; [apply deCasteljau_right_curve|].
  split; [reflexivity|]. split; [reflexivity|]. split; [reflexivity|].
  unfold BezierPatch.origAt, relativeToAbsoluteRect, relativeToAbsolute,
    rectOfCorners, topLeft, bottomRight.
  destruct (BezierMesh.m_originalRect m) as [X Y W H].
  cbv [BezierPatch.originalRect rectX rectY rectW rectH padd px py peq].
  unfold relT.
  split; (split; [ring|field; assumption]).
Qed.

(** X15: [subdivideRow(t)] with [t] strictly between two adjacent rows
    and not within the tolerance of [qFuzzyCompare] of 1.0 (where the call
    returns early) cuts every patch of that row into an upper and a lower
    patch.  In exact arithmetic their left and right boundary curves are
    the two parts of the old ones and their source rectangles the two
    parts of the old one; the outer horizontal curves are kept and the two
    patches meet in one curve. *)
Theorem subdivideRow_splits_patches
        (m : BezierMesh.t) (t : Q) (i : nat) (a b : Q) :
  wf m -> qFuzzyCompare t 1 = false -> a < t -> t < b ->
  nth_error (BezierMesh.m_rows m) i = Some a ->
  nth_error (BezierMesh.m_rows m) (S i) = Some b ->
  exists m',
    BezierMesh.subdivideRow t m = Some m'
    /\ forall col, (S col < BezierMesh.width m)%nat ->
         exists patch upper lower,
           BezierMesh.makePatch m col i = Some patch
           /\ BezierMesh.makePatch m' col i = Some upper
           /\ BezierMesh.makePatch m' col (S i) = Some lower
           /\ forall s r,
               let relT := (t - a) / (b - a) in
               BezierPatch.leftCurve upper s =p= BezierPatch.leftCurve patch (relT * s)
               /\ BezierPatch.leftCurve lower s
                  =p= BezierPatch.leftCurve patch (relT + (1 - relT) * s)
               /\ BezierPatch.rightCurve upper s =p= BezierPatch.rightCurve patch (relT * s)
               /\ BezierPatch.rightCurve lower s
                  =p= BezierPatch.rightCurve patch (relT + (1 - relT) * s)
               /\ BezierPatch.topCurve upper s = BezierPatch.topCurve patch s
               /\ BezierPatch.bottomCurve lower s = BezierPatch.bottomCurve patch s
               /\ BezierPatch.bottomCurve upper s = BezierPatch.topCurve lower s
               /\ BezierPatch.origAt upper s r =p= BezierPatch.origAt patch s (relT * r)
               /\ BezierPatch.origAt lower s r
                  =p= BezierPatch.origAt patch s (relT + (1 - relT) * r).
Proof.
  intros Hwf Hfz Hat Htb Ha Hb.
  pose proof Hwf as [(_ & _ & _ & Hec & Her) [Hsc Hsr]].
  apply subdivideRow_patches; try assumption; [|apply Qlt_le_weak; assumption].
  apply (returnsEarly_between _ t i a b Her Hsr Ha Hb Hat Htb Hfz).
Qed.

Lemma subdivideRow_splits_patches_witness :
  exists m',
    BezierMesh.subdivideRow (1 # 4) meshHalf = Some m'
    /\ forall col, (S col < BezierMesh.width meshHalf)%nat ->
         exists patch upper lower,
           BezierMesh.makePatch meshHalf col 0 = Some patch
           /\ BezierMesh.makePatch m' col 0 = Some upper
           /\ BezierMesh.makePatch m' col 1 = Some lower
           /\ forall s r,
               let relT := ((1 # 4) - (0 # 1)) / ((1 # 2) - (0 # 1)) in
               BezierPatch.leftCurve upper s =p= BezierPatch.leftCurve patch (relT * s)
               /\ BezierPatch.leftCurve lower s
                  =p= BezierPatch.leftCurve patch (relT + (1 - relT) * s)
               /\ BezierPatch.rightCurve upper s =p= BezierPatch.rightCurve patch (relT * s)
               /\ BezierPatch.rightCurve lower s
                  =p= BezierPatch.rightCurve patch (relT + (1 - relT) * s)
               /\ BezierPatch.topCurve upper s = BezierPatch.topCurve patch s
               /\ BezierPatch.bottomCurve lower s = BezierPatch.bottomCurve patch s
               /\ BezierPatch.bottomCurve upper s = BezierPatch.topCurve lower s
               /\ BezierPatch.origAt upper s r =p= BezierPatch.origAt patch s (relT * r)
               /\ BezierPatch.origAt lower s r
                  =p= BezierPatch.origAt patch s (relT + (1 - relT) * r).
Proof.
  assert (Hwf : wf meshHalf).
  { apply reachable_wf.
    apply (reachable_row unitMesh meshHalf (1 # 2));
      [|vm_compute; reflexivity].
    apply reachable_make; lia. }
  apply (subdivideRow_splits_patches meshHalf (1 # 4) 0%nat (0 # 1) (1 # 2) Hwf);
    vm_compute; reflexivity.
Defined.

(** The patches of the column that [subdivideColumn] cuts, before and after the
    call. *)
Lemma subdivideColumn_patches
        (m : BezierMesh.t) (t : Q) (i : nat) (a b : Q) :
  wf m -> BezierMesh.returnsEarly t = false -> a <= t -> t < b ->
  nth_error (BezierMesh.m_columns m) i = Some a ->
  nth_error (BezierMesh.m_columns m) (S i) = Some b ->
  exists m',
    BezierMesh.subdivideColumn t m = Some m'
    /\ forall row, (S row < BezierMesh.height m)%nat ->
         exists patch left right,
           BezierMesh.makePatch m i row = Some patch
           /\ BezierMesh.makePatch m' i row = Some left
           /\ BezierMesh.makePatch m' (S i) row = Some right
           /\ forall s r,
               let relT := (t - a) / (b - a) in
               BezierPatch.topCurve left s =p= BezierPatch.topCurve patch (relT * s)
               /\ BezierPatch.topCurve right s
                  =p= BezierPatch.topCurve patch (relT + (1 - relT) * s)
               /\ BezierPatch.bottomCurve left s =p= BezierPatch.bottomCurve patch (relT * s)
               /\ BezierPatch.bottomCurve right s
                  =p= BezierPatch.bottomCurve patch (relT + (1 - relT) * s)
               /\ BezierPatch.leftCurve left s = BezierPatch.leftCurve patch s
               /\ BezierPatch.rightCurve right s = BezierPatch.rightCurve patch s
               /\ BezierPatch.rightCurve left s = BezierPatch.leftCurve right s
               /\ BezierPatch.origAt left s r =p= BezierPatch.origAt patch (relT * s) r
               /\ BezierPatch.origAt right s r
                  =p= BezierPatch.origAt patch (relT + (1 - relT) * s) r.
Proof.
  intros Hwf Hgo Hat Htb Ha Hb.
  pose proof Hwf as [(Hlen & Hlc & Hlr & Hec & _) [Hsc _]].
  assert (Hub : upper_bound (BezierMesh.m_columns m) t = S i)
    by (eapply upper_bound_between; eassumption).
  assert (Hi : (S i < BezierMesh.width m)%nat)
    by (rewrite <- Hlc; apply nth_error_Some; congruence).
  destruct (subdivideColumn_spec m t Hlen Hgo i a b Hub Hi Ha Hb)
    as (m' & Hm' & Hsize & Hcols & Hrows & Hrect & _ & Hnode).
  exists m'. split; [assumption|].
  intros row Hrow.
  destruct (nth_error_defined (BezierMesh.m_rows m) row ltac:(lia)) as [r0 Hr0].
  destruct (nth_error_defined (BezierMesh.m_rows m) (S row) ltac:(lia)) as [r1 Hr1].
  destruct (insert_nth_error_around (BezierMesh.m_columns m) i t a b Ha Hb)
    as (Hc0 & Hc1 & Hc2).
  rewrite <- Hcols in Hc0, Hc1, Hc2. rewrite <- Hrows in Hr0, Hr1.
  pose proof (makePatch_nodes m' i row _ _ _ _ a t r0 r1
                (Hnode i row ltac:(lia) ltac:(lia))
                (Hnode (S i) row ltac:(lia) ltac:(lia))
                (Hnode i (S row) ltac:(lia) ltac:(lia))
                (Hnode (S i) (S row) ltac:(lia) ltac:(lia))
                Hc0 Hc1 Hr0 Hr1) as Hleft.
  pose proof (makePatch_nodes m' (S i) row _ _ _ _ t b r0 r1
                (Hnode (S i) row ltac:(lia) ltac:(lia))
                (Hnode (S (S i)) row ltac:(lia) ltac:(lia))
                (Hnode (S i) (S row) ltac:(lia) ltac:(lia))
                (Hnode (S (S i)) (S row) ltac:(lia) ltac:(lia))
                Hc1 Hc2 Hr0 Hr1) as Hright.
  rewrite Hrows in Hr0, Hr1.
  assert (Hpatch : BezierMesh.makePatch m i row
                   = Some (BezierPatch.mk
                             (relativeToAbsoluteRect (mkRect a r0 (b - a) (r1 - r0))
                                                     (BezierMesh.m_originalRect m))
                             (BezierMesh.patchPoints (nodeOr m i row) (nodeOr m (S i) row)
                                                     (nodeOr m i (S row))
                                                     (nodeOr m (S i) (S row))))).
  { apply makePatch_nodes; try assumption;
      unfold BezierMesh.node; apply nodeOr_nth_error; assumption || lia. }
  rewrite !columnSubdivided_left, !columnSubdivided_new in Hleft by lia.
  rewrite !columnSubdivided_new, !columnSubdivided_right in Hright by lia.
  rewrite Hrect in Hleft, Hright.
  eexists. eexists. eexists.
  split; [exact Hpatch|]. split; [exact Hleft|]. split; [exact Hright|].
  intros s r relT.
  assert (Hba : ~ b - a == 0) by lra.
  unfold BezierPatch.leftCurve, BezierPatch.rightCurve, BezierPatch.topCurve,
    BezierPatch.bottomCurve, columnSplit, BezierMesh.splitCurveHorizontally.
  cbn [BezierPatch.points BezierMesh.patchPoints fst snd
       Node.node Node.leftControl Node.rightControl Node.topControl Node.bottomControl
       Node.setRightControl Node.setLeftControl].
  fold relT.
  split; [apply deCasteljau_left_curve|].
  split; [apply deCasteljau_right_curve|].
  split; [apply deCasteljau_left_curve|].
  split; [apply deCasteljau_right_curve|].
  split; [reflexivity|]. split; [reflexivity|]. split; [reflexivity|].
  unfold BezierPatch.origAt, relativeToAbsoluteRect, relativeToAbsolute,
    rectOfCorners, topLeft, bottomRight.
  destruct (BezierMesh.m_originalRect m) as [X Y W H].
  cbv [BezierPatch.originalRect rectX rectY rectW rectH padd px py peq].
  unfold relT.
  split; (split; [field; assumption|ring]).
Qed.

(** X16: [subdivideColumn(t)] with [t] strictly between two adjacent
    columns and not within the tolerance of [qFuzzyCompare] of 1.0 (where
    the call returns early) cuts every patch of that column into a left and
    a right patch.  In exact arithmetic their top and bottom boundary
    curves are the two parts of the old ones and their source rectangles
    the two parts of the old one; the outer vertical curves are kept and
    the two patches meet in one curve. *)
Theorem subdivideColumn_splits_patches
        (m : BezierMesh.t) (t : Q) (i : nat) (a b : Q) :
  wf m -> qFuzzyCompare t 1 = false -> a < t -> t < b ->
  nth_error (BezierMesh.m_columns m) i = Some a ->
  nth_error (BezierMesh.m_columns m) (S i) = Some b ->
  exists m',
    BezierMesh.subdivideColumn t m = Some m'
    /\ forall row, (S row < BezierMesh.height m)%nat ->
         exists patch left right,
           BezierMesh.makePatch m i row = Some patch
           /\ BezierMesh.makePatch m' i row = Some left
           /\ BezierMesh.makePatch m' (S i) row = Some right
           /\ forall s r,
               let relT := (t - a) / (b - a) in
               BezierPatch.topCurve left s =p= BezierPatch.topCurve patch (relT * s)
               /\ BezierPatch.topCurve right s
                  =p= BezierPatch.topCurve patch (relT + (1 - relT) * s)
               /\ BezierPatch.bottomCurve left s =p= BezierPatch.bottomCurve patch (relT * s)
               /\ BezierPatch.bottomCurve right s
                  =p= BezierPatch.bottomCurve patch (relT + (1 - relT) * s)
               /\ BezierPatch.leftCurve left s = BezierPatch.leftCurve patch s
               /\ BezierPatch.rightCurve right s = BezierPatch.rightCurve patch s
               /\ BezierPatch.rightCurve left s = BezierPatch.leftCurve right s
               /\ BezierPatch.origAt left s r =p= BezierPatch.origAt patch (relT * s) r
               /\ BezierPatch.origAt right s r
                  =p= BezierPatch.origAt patch (relT + (1 - relT) * s) r.
Proof.
  intros Hwf Hfz Hat Htb Ha Hb.
  pose proof Hwf as [(_ & _ & _ & Hec & Her) [Hsc Hsr]].
  apply subdivideColumn_patches; try assumption; [|apply Qlt_le_weak; assumption].
  apply (returnsEarly_between _ t i a b Hec Hsc Ha Hb Hat Htb Hfz).
Qed.

Lemma subdivideColumn_splits_patches_witness :
  exists m',
    BezierMesh.subdivideColumn (1 # 4) meshHalf = Some m'
    /\ forall row, (S row < BezierMesh.height meshHalf)%nat ->
         exists patch left right,
           BezierMesh.makePatch meshHalf 0 row = Some patch
           /\ BezierMesh.makePatch m' 0 row = Some left
           /\ BezierMesh.makePatch m' 1 row = Some right
           /\ forall s r,
               let relT := ((1 # 4) - (0 # 1)) / ((1 # 1) - (0 # 1)) in
               BezierPatch.topCurve left s =p= BezierPatch.topCurve patch (relT * s)
               /\ BezierPatch.topCurve right s
                  =p= BezierPatch.topCurve patch (relT + (1 - relT) * s)
               /\ BezierPatch.bottomCurve left s =p= BezierPatch.bottomCurve patch (relT * s)
               /\ BezierPatch.bottomCurve right s
                  =p= BezierPatch.bottomCurve patch (relT + (1 - relT) * s)
               /\ BezierPatch.leftCurve left s = BezierPatch.leftCurve patch s
               /\ BezierPatch.rightCurve right s = BezierPatch.rightCurve patch s
               /\ BezierPatch.rightCurve left s = BezierPatch.leftCurve right s
               /\ BezierPatch.origAt left s r =p= BezierPatch.origAt patch (relT * s) r
               /\ BezierPatch.origAt right s r
                  =p= BezierPatch.origAt patch (relT + (1 - relT) * s) r.
Proof.
  assert (Hwf : wf meshHalf).
  { apply reachable_wf.
    apply (reachable_row unitMesh meshHalf (1 # 2));
      [|vm_compute; reflexivity].
    apply reachable_make; lia. }
  apply (subdivideColumn_splits_patches meshHalf (1 # 4) 0%nat (0 # 1) (1 # 1) Hwf);
    vm_compute; reflexivity.
Defined.






(* ------------------------------------------------------------------ *)
(** ** Curves that [linearizeCurve] does not refine *)




(* ------------------------------------------------------------------ *)
(** ** The convex hull of a curve *)

Lemma bernstein_lower (x0 x1 x2 x3 lo t : Q) :
  0 <= t -> t <= 1 ->
  lo <= x0 -> lo <= x1 -> lo <= x2 -> lo <= x3 ->
  lo <= (1 - t) * (1 - t) * (1 - t) * x0 + 3 * ((1 - t) * (1 - t)) * t * x1
        + 3 * (1 - t) * (t * t) * x2 + t * t * t * x3.
Proof.
  intros Ht0 Ht1 H0 H1 H2 H3.
  set (u := 1 - t). assert (Hu : 0 <= u) by (unfold u; lra).
  assert (Huu : 0 <= u * u) by (apply Qmult_le_0_compat; assumption).
  assert (Htt : 0 <= t * t) by (apply Qmult_le_0_compat; assumption).
  assert (A0 : 0 <= u * u * u * (x0 - lo)).
  { apply Qmult_le_0_compat; [apply Qmult_le_0_compat; assumption|lra]. }
  assert (A1 : 0 <= u * u * t * (x1 - lo)).
  { apply Qmult_le_0_compat; [apply Qmult_le_0_compat; assumption|lra]. }
  assert (A2 : 0 <= u * (t * t) * (x2 - lo)).
  { apply Qmult_le_0_compat; [apply Qmult_le_0_compat; assumption|lra]. }
  assert (A3 : 0 <= t * t * t * (x3 - lo)).
  { apply Qmult_le_0_compat; [apply Qmult_le_0_compat; assumption|lra]. }
  assert (E : u * u * u * x0 + 3 * (u * u) * t * x1 + 3 * u * (t * t) * x2 + t * t * t * x3
              - lo
              == u * u * u * (x0 - lo) + 3 * (u * u * t * (x1 - lo))
                 + 3 * (u * (t * t) * (x2 - lo)) + t * t * t * (x3 - lo)).
  { unfold u. ring. }
  lra.
Qed.

Lemma bernstein_upper (x0 x1 x2 x3 hi t : Q) :
  0 <= t -> t <= 1 ->
  x0 <= hi -> x1 <= hi -> x2 <= hi -> x3 <= hi ->
  (1 - t) * (1 - t) * (1 - t) * x0 + 3 * ((1 - t) * (1 - t)) * t * x1
  + 3 * (1 - t) * (t * t) * x2 + t * t * t * x3 <= hi.
Proof.
  intros Ht0 Ht1 H0 H1 H2 H3.
  pose proof (bernstein_lower (- x0) (- x1) (- x2) (- x3) (- hi) t Ht0 Ht1
                ltac:(lra) ltac:(lra) ltac:(lra) ltac:(lra)) as H.
  assert (E : (1 - t) * (1 - t) * (1 - t) * - x0 + 3 * ((1 - t) * (1 - t)) * t * - x1
              + 3 * (1 - t) * (t * t) * - x2 + t * t * t * - x3
              == - ((1 - t) * (1 - t) * (1 - t) * x0 + 3 * ((1 - t) * (1 - t)) * t * x1
                    + 3 * (1 - t) * (t * t) * x2 + t * t * t * x3)) by ring.
  rewrite E in H. lra.
Qed.

Lemma lerp_bounds (x0 x3 lo hi t : Q) :
  0 <= t -> t <= 1 -> lo <= x0 <= hi -> lo <= x3 <= hi ->
  lo <= x0 + t * (x3 - x0) <= hi.
Proof.
  intros Ht0 Ht1 [H0 H0'] [H3 H3'].
  assert (A : 0 <= t * (x3 - lo)) by (apply Qmult_le_0_compat; lra).
  assert (B : 0 <= (1 - t) * (x0 - lo)) by (apply Qmult_le_0_compat; lra).
  assert (C : 0 <= t * (hi - x3)) by (apply Qmult_le_0_compat; lra).
  assert (D : 0 <= (1 - t) * (hi - x0)) by (apply Qmult_le_0_compat; lra).
  split; lra.
Qed.

(** X20: in exact arithmetic, for a parameter in [0, 1] the point of
    [bezierCurve] lies in every axis-aligned box that holds the four control
    points, and the point of [lerp] in every box that holds its two end
    points.  The values computed in binary64 do not keep this bound: with
    the four control points at (0.1, 0.1) and [t = 0.1], [bezierCurve]
    returns a point above 0.1 in both coordinates. *)
Theorem bezierCurve_convex_hull
        (p0 p1 p2 p3 : QPointF) (t xlo xhi ylo yhi : Q) :
  0 <= t -> t <= 1 ->
  (forall p, In p [p0; p1; p2; p3] -> xlo <= px p <= xhi /\ ylo <= py p <= yhi) ->
  ((xlo <= px (bezierCurve p0 p1 p2 p3 t) <= xhi
    /\ ylo <= py (bezierCurve p0 p1 p2 p3 t) <= yhi)
   /\ (xlo <= px (lerp p0 p3 t) <= xhi /\ ylo <= py (lerp p0 p3 t) <= yhi))
  /\ (let c := Binary64.mkPoint 0.1 0.1 in
      Binary64.bezierCurve c c c c 0.1%float
      = Binary64.mkPoint 0.10000000000000002 0.10000000000000002
      /\ PrimFloat.ltb 0.1%float 0.10000000000000002%float = true).
Proof.
  intros Ht0 Ht1 Hbox.
  split; [|split; vm_compute; reflexivity].
  destruct (Hbox p0 ltac:(simpl; tauto)) as [[? ?] [? ?]].
  destruct (Hbox p1 ltac:(simpl; tauto)) as [[? ?] [? ?]].
  destruct (Hbox p2 ltac:(simpl; tauto)) as [[? ?] [? ?]].
  destruct (Hbox p3 ltac:(simpl; tauto)) as [[? ?] [? ?]].
  destruct p0 as [x0 y0], p1 as [x1 y1], p2 as [x2 y2], p3 as [x3 y3].
  cbn [px py] in *.
  split.
  - unfold bezierCurve, pow2. cbv [padd pscale px py].
    repeat split;
      (apply bernstein_lower; assumption) || (apply bernstein_upper; assumption).
  - unfold lerp. cbv [padd psub pscale px py].
    split; apply lerp_bounds; try assumption; split; assumption.
Qed.

Lemma bezierCurve_convex_hull_witness :
  ((0 <= px (bezierCurve (mkPoint 0 0) (mkPoint 1 2) (mkPoint 3 2) (mkPoint 4 0) (1 # 3)) <= 4
    /\ 0 <= py (bezierCurve (mkPoint 0 0) (mkPoint 1 2) (mkPoint 3 2) (mkPoint 4 0) (1 # 3))
       <= 2)
   /\ (0 <= px (lerp (mkPoint 0 0) (mkPoint 4 0) (1 # 3)) <= 4
       /\ 0 <= py (lerp (mkPoint 0 0) (mkPoint 4 0) (1 # 3)) <= 2))
  /\ (let c := Binary64.mkPoint 0.1 0.1 in
      Binary64.bezierCurve c c c c 0.1%float
      = Binary64.mkPoint 0.10000000000000002 0.10000000000000002
      /\ PrimFloat.ltb 0.1%float 0.10000000000000002%float = true).
Proof.
  apply (bezierCurve_convex_hull (mkPoint 0 0) (mkPoint 1 2) (mkPoint 3 2) (mkPoint 4 0)
                                 (1 # 3) 0 4 0 2).
  - discriminate.
  - discriminate.
  - intros p [<-|[<-|[<-|[<-|[]]]]]; simpl; repeat split; discriminate.
Defined.

(* ------------------------------------------------------------------ *)
(** ** The mapping of a freshly constructed mesh *)

(** X21: a freshly constructed mesh is not the identity mapping between
    its nodes.  Every patch sends the source point at the proportions
    [(x, y)] to the source point at [(3x^2 - 2x^3, 3y^2 - 2y^3)]: the corners
    stay in place, and on a source rectangle of non-zero width the point at
    [x = 1/4] moves. *)
Theorem fresh_mesh_maps_by_smoothstep
        (mapRect : QRectF) (w h col row : nat) :
  (S col < w)%nat -> (S row < h)%nat ->
  exists patch,
    BezierMesh.makePatch (BezierMesh.make mapRect (w, h)) col row = Some patch
    /\ (forall x y,
           BezierPatch.transfAt patch x y
           =p= BezierPatch.origAt patch (smoothstep x) (smoothstep y))
    /\ (BezierPatch.transfAt patch 0 0 =p= BezierPatch.origAt patch 0 0
        /\ BezierPatch.transfAt patch 1 1 =p= BezierPatch.origAt patch 1 1)
    /\ (~ rectW mapRect == 0 ->
        forall y, ~ BezierPatch.transfAt patch (1 # 4) y
                    =p= BezierPatch.origAt patch (1 # 4) y).
Proof.
  intros Hcol Hrow.
  set (mesh := BezierMesh.make mapRect (w, h)).
  set (c0 := BezierMesh.proportion col w). set (c1 := BezierMesh.proportion (S col) w).
  set (r0 := BezierMesh.proportion row h). set (r1 := BezierMesh.proportion (S row) h).
  assert (Hpatch :
    BezierMesh.makePatch mesh col row
    = Some (BezierPatch.mk
              (relativeToAbsoluteRect (mkRect c0 r0 (c1 - c0) (r1 - r0)) mapRect)
              (BezierMesh.patchPoints
                 (Node.ofPoint (mkPoint (c0 * rectW mapRect + rectX mapRect)
                                        (r0 * rectH mapRect + rectY mapRect)))
                 (Node.ofPoint (mkPoint (c1 * rectW mapRect + rectX mapRect)
                                        (r0 * rectH mapRect + rectY mapRect)))
                 (Node.ofPoint (mkPoint (c0 * rectW mapRect + rectX mapRect)
                                        (r1 * rectH mapRect + rectY mapRect)))
                 (Node.ofPoint (mkPoint (c1 * rectW mapRect + rectX mapRect)
                                        (r1 * rectH mapRect + rectY mapRect)))))).
  { apply (makePatch_nodes mesh col row).
    - apply make_node; lia.
    - apply make_node; lia.
    - apply make_node; lia.
    - apply make_node; lia.
    - apply (nth_error_map_seq (fun c => BezierMesh.proportion c w)). cbn [fst snd]. lia.
    - apply (nth_error_map_seq (fun c => BezierMesh.proportion c w)). cbn [fst snd]. lia.
    - apply (nth_error_map_seq (fun r => BezierMesh.proportion r h)). cbn [fst snd]. lia.
    - apply (nth_error_map_seq (fun r => BezierMesh.proportion r h)). cbn [fst snd]. lia. }
  assert (Hc : c0 < c1) by (apply proportion_lt; lia).
  clearbody c0 c1 r0 r1.
  eexists. split; [exact Hpatch|].
  assert (Hmap : forall x y,
    BezierPatch.transfAt
      (BezierPatch.mk
         (relativeToAbsoluteRect (mkRect c0 r0 (c1 - c0) (r1 - r0)) mapRect)
         (BezierMesh.patchPoints
            (Node.ofPoint (mkPoint (c0 * rectW mapRect + rectX mapRect)
                                   (r0 * rectH mapRect + rectY mapRect)))
            (Node.ofPoint (mkPoint (c1 * rectW mapRect + rectX mapRect)
                                   (r0 * rectH mapRect + rectY mapRect)))
            (Node.ofPoint (mkPoint (c0 * rectW mapRect + rectX mapRect)
                                   (r1 * rectH mapRect + rectY mapRect)))
            (Node.ofPoint (mkPoint (c1 * rectW mapRect + rectX mapRect)
                                   (r1 * rectH mapRect + rectY mapRect))))) x y
    =p= mkPoint ((c0 + smoothstep x * (c1 - c0)) * rectW mapRect + rectX mapRect)
                ((r0 + smoothstep y * (r1 - r0)) * rectH mapRect + rectY mapRect)).
  { intros x y.
    unfold BezierPatch.transfAt, smoothstep, lerp, bezierCurve, pow2, pow3.
    cbn [BezierPatch.points BezierMesh.patchPoints Node.ofPoint
         Node.node Node.leftControl Node.rightControl Node.topControl Node.bottomControl].
    destruct mapRect as [X Y W H].
    cbv [rectX rectY rectW rectH padd psub pscale px py peq]. split; ring. }
  assert (Horig : forall x y,
    BezierPatch.origAt
      (BezierPatch.mk
         (relativeToAbsoluteRect (mkRect c0 r0 (c1 - c0) (r1 - r0)) mapRect)
         (BezierMesh.patchPoints
            (Node.ofPoint (mkPoint (c0 * rectW mapRect + rectX mapRect)
                                   (r0 * rectH mapRect + rectY mapRect)))
            (Node.ofPoint (mkPoint (c1 * rectW mapRect + rectX mapRect)
                                   (r0 * rectH mapRect + rectY mapRect)))
            (Node.ofPoint (mkPoint (c0 * rectW mapRect + rectX mapRect)
                                   (r1 * rectH mapRect + rectY mapRect)))
            (Node.ofPoint (mkPoint (c1 * rectW mapRect + rectX mapRect)
                                   (r1 * rectH mapRect + rectY mapRect))))) x y
    =p= mkPoint ((c0 + x * (c1 - c0)) * rectW mapRect + rectX mapRect)
                ((r0 + y * (r1 - r0)) * rectH mapRect + rectY mapRect)).
  { intros x y.
    unfold BezierPatch.origAt, relativeToAbsoluteRect, relativeToAbsolute,
      rectOfCorners, topLeft, bottomRight.
    destruct mapRect as [X Y W H].
    cbv [BezierPatch.originalRect rectX rectY rectW rectH padd px py peq]. split; ring. }
  split; [|split; [split|]].
  - intros x y. rewrite Hmap, Horig. reflexivity.
  - rewrite Hmap, Horig. unfold smoothstep, pow2, pow3. split; cbv [px py]; ring.
  - rewrite Hmap, Horig. unfold smoothstep, pow2, pow3. split; cbv [px py]; ring.
  - intros HW y Heq. rewrite Hmap, Horig in Heq. destruct Heq as [Hx _].
    cbv [px smoothstep pow2 pow3] in Hx. apply HW.
    assert (E : (c1 - c0) * rectW mapRect == 0).
    { assert (E3 : (3 # 32) * ((c1 - c0) * rectW mapRect) == 0).
      { transitivity
          (((c0 + (1 # 4) * (c1 - c0)) * rectW mapRect + rectX mapRect)
           - ((c0 + (3 * ((1 # 4) * (1 # 4)) - 2 * ((1 # 4) * (1 # 4) * (1 # 4)))
                    * (c1 - c0)) * rectW mapRect + rectX mapRect)).
        - ring.
        - rewrite Hx. ring. }
      lra. }
    apply Qmult_integral in E. destruct E as [E|E]; [lra|assumption].
Qed.

Lemma fresh_mesh_maps_by_smoothstep_witness :
  exists patch,
    BezierMesh.makePatch unitMesh 0 0 = Some patch
    /\ (forall x y,
           BezierPatch.transfAt patch x y
           =p= BezierPatch.origAt patch (smoothstep x) (smoothstep y))
    /\ (BezierPatch.transfAt patch 0 0 =p= BezierPatch.origAt patch 0 0
        /\ BezierPatch.transfAt patch 1 1 =p= BezierPatch.origAt patch 1 1)
    /\ (~ rectW (mkRect 0 0 100 100) == 0 ->
        forall y, ~ BezierPatch.transfAt patch (1 # 4) y
                    =p= BezierPatch.origAt patch (1 # 4) y).
Proof.
  apply (fresh_mesh_maps_by_smoothstep (mkRect 0 0 100 100) 2 2 0 0); lia.
Defined.
